(** * BFV-RNS public-key encryption and the ciphertext randomisation block

    A shallow embedding of
      - [src/pke/lib/scheme/bfvrns/bfvrns-pke.cpp]
        ([PKEBFVRNS::KeyGenInternal], the two [PKEBFVRNS::Encrypt]
        overloads, [PKEBFVRNS::Decrypt]) and
      - the randomisation block of [src/pke/examples/hpdic_nemesis_ckks.cpp],
    together with the properties the specification states about them.

    Machine integers are [Z] with the wrap-around written out, residue
    polynomials are lists of [Z], exceptions are an error result and the
    random generators are an oracle read through a draw counter. *)

From Stdlib Require Import ZArith List Lia Bool Zcong.
Import ListNotations.
Local Open Scope Z_scope.

(** ** Exceptions and the random tape *)

Inductive error : Set :=
| tower_size_mismatch
| format_mismatch
| index_out_of_range
| too_few_towers.

Inductive result (A : Type) : Type :=
| Ok (a : A)
| Throw (e : error).

Arguments Ok {A} a.
Arguments Throw {A} e.

Definition rbind {A B : Type} (c : result A) (k : A -> result B) : result B :=
  match c with
  | Ok a => k a
  | Throw e => Throw e
  end.

Notation "'do' x <- c ; k" := (rbind c (fun x => k))
  (at level 10, x name, c at level 100, k at level 200).

(** Code that draws randomness threads the number of draws made so far. *)
Definition M (A : Type) : Type := nat -> result (A * nat).

Definition ret {A : Type} (a : A) : M A := fun k => Ok (a, k).

Definition bind {A B : Type} (c : M A) (f : A -> M B) : M B :=
  fun k => match c k with
           | Ok (a, k') => f a k'
           | Throw e => Throw e
           end.

Definition lift {A : Type} (r : result A) : M A :=
  fun k => match r with
           | Ok a => Ok (a, k)
           | Throw e => Throw e
           end.

Notation "'dom' x <- c ; k" := (bind c (fun x => k))
  (at level 10, x name, c at level 100, k at level 200).

(** ** Machine integers *)

(** [usint] is a 32-bit and [size_t] a 64-bit unsigned integer. *)
Definition usint (x : Z) : Z := x mod 2 ^ 32.
Definition size_t (x : Z) : Z := x mod 2 ^ 64.

(** ** Residue polynomials *)

Inductive Format : Set := EVALUATION | COEFFICIENT.

Definition Format_eqb (a b : Format) : bool :=
  match a, b with
  | EVALUATION, EVALUATION | COEFFICIENT, COEFFICIENT => true
  | _, _ => false
  end.

(** Parameters of one tower: ring dimension, prime modulus, root of unity. *)
Record ILNativeParams : Set := mkILNativeParams {
  ringDimension : nat;
  modulus : Z;
  rootOfUnity : Z
}.

(** A modulus chain: [elementParams->GetParams()]. *)
Definition ParmType : Set := list ILNativeParams.

Record NativePoly : Set := mkNativePoly {
  np_params : ILNativeParams;
  np_format : Format;
  np_values : list Z
}.

Record DCRTPoly : Set := mkDCRTPoly {
  m_format : Format;
  m_vectors : list NativePoly
}.

Definition GetModulus (p : NativePoly) : Z := modulus (np_params p).
Definition GetLength (p : NativePoly) : nat := length (np_values p).
Definition GetNumOfElements (p : DCRTPoly) : nat := length (m_vectors p).
Definition DCRTPoly_GetParams (p : DCRTPoly) : ParmType := map np_params (m_vectors p).

(** [DCRTPoly s;] the default-constructed polynomial owns no tower. *)
Definition DCRTPoly_default : DCRTPoly :=
  {| m_format := EVALUATION; m_vectors := [] |}.

(** [DCRTPoly(params, format)]: the zero polynomial on a chain. *)
Definition DCRTPoly_zero (params : ParmType) (fmt : Format) : DCRTPoly :=
  {| m_format := fmt;
     m_vectors := map (fun p => {| np_params := p; np_format := fmt;
                                   np_values := repeat 0 (ringDimension p) |}) params |}.

Fixpoint map2 {A B C : Type} (f : A -> B -> C) (l1 : list A) (l2 : list B) : list C :=
  match l1, l2 with
  | a :: l1', b :: l2' => f a b :: map2 f l1' l2'
  | _, _ => []
  end.

(** Tower-wise, coefficient-wise arithmetic; the result lives in the left
    operand's ring. *)
Definition NativePoly_binop (f : Z -> Z -> Z) (a b : NativePoly) : NativePoly :=
  {| np_params := np_params a;
     np_format := np_format a;
     np_values := map2 (fun x y => f x y mod GetModulus a) (np_values a) (np_values b) |}.

Definition DCRTPoly_binop (f : Z -> Z -> Z) (a b : DCRTPoly) : DCRTPoly :=
  {| m_format := m_format a;
     m_vectors := map2 (NativePoly_binop f) (m_vectors a) (m_vectors b) |}.

(** Modelled from the spec: the bodies of DCRTPoly's [operator+],
    [operator-] and [operator*] are not part of the sources at hand.
    Section 4.1 and section 7: the operators work tower by tower and
    modulo each tower's prime, and operands in different domains or with
    different tower counts fail fast. *)
Definition checked_binop (f : Z -> Z -> Z) (a b : DCRTPoly) : result DCRTPoly :=
  if negb (length (m_vectors a) =? length (m_vectors b))%nat then Throw tower_size_mismatch
  else if negb (Format_eqb (m_format a) (m_format b)) then Throw format_mismatch
  else Ok (DCRTPoly_binop f a b).

Definition Plus : DCRTPoly -> DCRTPoly -> result DCRTPoly := checked_binop Z.add.
Definition Minus : DCRTPoly -> DCRTPoly -> result DCRTPoly := checked_binop Z.sub.

(** Modelled from the spec: as [Plus]; section 3 makes coefficient-wise
    multiplication the ring product in the transform domain only, so the
    product is defined there and [operator*] is used there only. *)
Definition Times : DCRTPoly -> DCRTPoly -> result DCRTPoly := checked_binop Z.mul.

(** [ns * e]: a scalar times a polynomial. *)
Definition ScalarTimes (c : Z) (a : DCRTPoly) : DCRTPoly :=
  {| m_format := m_format a;
     m_vectors := map (fun v => {| np_params := np_params v; np_format := np_format v;
                                   np_values := map (fun x => (c * x) mod GetModulus v) (np_values v) |})
                      (m_vectors a) |}.

(** Modelled from the spec: [DropLastElements(k)] is not part of the
    sources at hand; section 3, "dropping the last k primes". *)
Definition DropLastElements (k : nat) (a : DCRTPoly) : DCRTPoly :=
  {| m_format := m_format a;
     m_vectors := firstn (length (m_vectors a) - k) (m_vectors a) |}.

(** ** Scheme parameters and keys *)

Inductive SecretKeyDist : Set :=
| GAUSSIAN
| UNIFORM_TERNARY
| SPARSE_TERNARY
| OTHER_DIST (code : Z).   (* any other value of the enumeration's integer type *)

Inductive EncryptionTechnique : Set := STANDARD | EXTENDED.

Inductive MultiplicationTechnique : Set := BEHZ | HPS | HPSPOVERQ | HPSPOVERQLEVELED.

Definition is_EXTENDED (e : EncryptionTechnique) : bool :=
  match e with EXTENDED => true | STANDARD => false end.

(** The accessors of [CryptoParametersBFVRNS] that the code reads.  The
    precomputed tables are opaque here: the code only hands them on. *)
Record CryptoParametersBFVRNS : Set := mkCryptoParameters {
  GetElementParams : ParmType;
  GetParamsQr : ParmType;
  GetParamsPK : ParmType;
  GetEncryptionTechnique : EncryptionTechnique;
  GetMultiplicationTechnique : MultiplicationTechnique;
  GetSecretKeyDist : SecretKeyDist;
  GetNoiseScale : Z;
  GetPlaintextModulus : Z;
  GettInvModq : list Z;
  GettInvModqr : list Z;
  GetNegQModt : Z -> Z;
  GetNegQModtPrecon : Z -> Z;
  GetNegQrModt : Z;
  GetNegQrModtPrecon : Z;
  GetrInvModq : list Z;
  GetModuliQ : list Z;
  GettQHatInvModqDivqModt : list Z;
  GettQHatInvModqDivqModtPrecon : list Z;
  GettQHatInvModqBDivqModt : list Z;
  GettQHatInvModqBDivqModtPrecon : list Z;
  GettQHatInvModqDivqFrac : list Z;
  GettQHatInvModqBDivqFrac : list Z;
  Gettgamma : Z;
  GettgammaQHatInvModq : list Z;
  GettgammaQHatInvModqPrecon : list Z;
  GetNegInvqModtgamma : list Z;
  GetNegInvqModtgammaPrecon : list Z;
  GetQlQlInvModqlDivqlModq : Z -> list Z;
  GetqlInvModq : Z -> list Z
}.

Record CryptoContext : Set := mkCryptoContext {
  GetCryptoParameters : CryptoParametersBFVRNS
}.

(** A key tag: [None] is the empty tag, [Some k] the k-th unique id. *)
Definition KeyTag : Set := option nat.

Record PrivateKey : Set := mkPrivateKey {
  sk_context : CryptoContext;
  sk_keyTag : KeyTag;
  GetPrivateElement : DCRTPoly
}.

Record PublicKey : Set := mkPublicKey {
  pk_context : CryptoContext;
  pk_keyTag : KeyTag;
  GetPublicElements : list DCRTPoly
}.

Record KeyPair : Set := mkKeyPair {
  publicKey : PublicKey;
  secretKey : PrivateKey
}.

Record Ciphertext : Set := mkCiphertext {
  ct_context : CryptoContext;
  ct_keyTag : KeyTag;
  GetElements : list DCRTPoly;
  GetNoiseScaleDeg : Z;
  GetLevel : Z
}.

Inductive Generator : Set :=
| DGG                (* discrete Gaussian generator *)
| DUG                (* discrete uniform generator *)
| TUG (h : nat).     (* ternary uniform generator, Hamming weight [h] (0: unconstrained) *)


Record DecryptResult : Set := mkDecryptResult {
  isValid : bool;
  messageLength : nat
}.

(** ** Vectors *)

(** [v[i]]: reading past the end is an error. *)
Definition at_index {A : Type} (l : list A) (i : nat) : result A :=
  match nth_error l i with
  | Some x => Ok x
  | None => Throw index_out_of_range
  end.

(** [v[i] = x] *)
Fixpoint set_index {A : Type} (i : nat) (x : A) (l : list A) : result (list A) :=
  match l, i with
  | [], _ => Throw index_out_of_range
  | _ :: l', O => Ok (x :: l')
  | y :: l', S i' => do r <- set_index i' x l'; Ok (y :: r)
  end.

(** ** Integers behind the residues *)

(** Division rounded to the nearest integer (halves go up). *)
Definition round_div (a b : Z) : Z := (2 * a + b) / (2 * b).

(** The centred representative of [x] modulo [q], in [(-q/2, q/2]]. *)
Definition centered (x q : Z) : Z :=
  let r := x mod q in if 2 * r <=? q then r else r - q.

Definition product (qs : list Z) : Z := fold_right Z.mul 1 qs.

(** Chinese remaindering over a chain of pairwise coprime moduli: the
    integer in [[0, product qs)] with residue [r_i] modulo [q_i]. *)
Fixpoint crt (qs rs : list Z) : Z :=
  match qs, rs with
  | q :: qs', r :: rs' => Z.combinecong q (product qs') r (crt qs' rs')
  | _, _ => 0
  end.

Definition coeff (k : nat) (v : NativePoly) : Z := nth k (np_values v) 0.

Definition moduli (p : DCRTPoly) : list Z := map GetModulus (m_vectors p).

Definition GetRingDimension (p : DCRTPoly) : nat :=
  match m_vectors p with
  | v :: _ => ringDimension (np_params v)
  | [] => O
  end.

(** Modelled from the spec: [CRTInterpolate] is not part of the sources at
    hand; section 4.3 step 2, "explicit CRT interpolation": coefficient by
    coefficient, the integer modulo [Q] behind the residues. *)
Definition CRTInterpolate (p : DCRTPoly) : list Z :=
  map (fun k => crt (moduli p) (map (coeff k) (m_vectors p))) (seq 0 (GetRingDimension p)).

(** Modelled from the spec: [DCRTPoly(bigPtxt, params)] is not part of the
    sources at hand; section 4.3 step 2 reinterprets integer coefficients
    on a chain, each tower holding them modulo its prime. *)
Definition DCRTPoly_ofPoly (xs : list Z) (params : ParmType) : DCRTPoly :=
  {| m_format := COEFFICIENT;
     m_vectors := map (fun p => {| np_params := p; np_format := COEFFICIENT;
                                   np_values := map (fun x => x mod modulus p) xs |}) params |}.

Definition chain_product (params : ParmType) : Z := product (map modulus params).

(** Modelled from the spec: [TimesQovert] is not part of the sources at
    hand; section 4.3 step 3: every coefficient is multiplied by the
    per-tower constant [floor(Q/t) mod q_i], so that the polynomial
    represents [floor(Q/t) * m].  The tables are the precomputed forms of
    that constant (section 3) and are not read. *)
Definition TimesQovert (paramsQ : ParmType) (tInvModq : list Z) (t NegQModt NegQModtPrecon : Z)
    (p : DCRTPoly) : DCRTPoly :=
  {| m_format := m_format p;
     m_vectors :=
       map (fun v => {| np_params := np_params v; np_format := np_format v;
                        np_values := map (fun x => (x * ((chain_product paramsQ / t) mod GetModulus v))
                                                     mod GetModulus v) (np_values v) |})
           (m_vectors p) |}.

(** One coefficient of the scale by [t/Q]: round to nearest, then modulo
    [t]. *)
Definition scale_round (t Q x : Z) : Z := round_div (t * x) Q mod t.

(** Modelled from the spec: the direct [ScaleAndRound] is not part of the
    sources at hand; section 4.4 step 2: scale by [t/Q] with one rounded
    multiply per coefficient.  The result is a polynomial modulo [t]. *)
Definition ScaleAndRound_direct (t : Z)
    (tQHatInvModqDivqModt tQHatInvModqDivqModtPrecon tQHatInvModqBDivqModt
     tQHatInvModqBDivqModtPrecon tQHatInvModqDivqFrac tQHatInvModqBDivqFrac : list Z)
    (p : DCRTPoly) : NativePoly :=
  {| np_params := {| ringDimension := GetRingDimension p; modulus := t; rootOfUnity := 1 |};
     np_format := COEFFICIENT;
     np_values := map (scale_round t (product (moduli p))) (CRTInterpolate p) |}.

(** Modelled from the spec: the gamma [ScaleAndRound] is not part of the
    sources at hand; section 4.4 step 2 gives it as numerically equal to
    the direct technique, over the moduli it is handed. *)
Definition ScaleAndRound_gamma (moduliQ : list Z) (t tgamma : Z)
    (tgammaQHatInvModq tgammaQHatInvModqPrecon negInvqModtgamma negInvqModtgammaPrecon : list Z)
    (p : DCRTPoly) : NativePoly :=
  {| np_params := {| ringDimension := GetRingDimension p; modulus := t; rootOfUnity := 1 |};
     np_format := COEFFICIENT;
     np_values := map (fun k => scale_round t (product moduliQ) (crt moduliQ (map (coeff k) (m_vectors p))))
                      (seq 0 (GetRingDimension p)) |}.

(** Modelled from the spec: [ScaleAndRoundPOverQ] is not part of the
    sources at hand; section 4.3 step 5: a rounded division from the
    extended basis down to the primary basis [paramsQ]. *)
Definition ScaleAndRoundPOverQ (paramsQ : ParmType) (pInvModq : list Z) (p : DCRTPoly) : DCRTPoly :=
  let xs := map (fun x => round_div (x * chain_product paramsQ) (product (moduli p)))
                (CRTInterpolate p) in
  {| m_format := m_format p;
     m_vectors := map (fun q => {| np_params := q; np_format := m_format p;
                                   np_values := map (fun x => x mod modulus q) xs |}) paramsQ |}.

(** Modelled from the spec: [NativePoly::MultiplyAndRound] is not part of
    the sources at hand; section 4.4 step 3, "multiply by [p] and
    round-divide by [q]". *)
Definition MultiplyAndRound (p q : Z) (v : NativePoly) : NativePoly :=
  {| np_params := np_params v; np_format := np_format v;
     np_values := map (fun x => round_div (x * p) q) (np_values v) |}.

(** Modelled from the spec: [NativePoly::SwitchModulus] is not part of
    the sources at hand; section 4.4 step 3, "reinterpret the result
    modulo [t]", the root of unity being the one handed in. *)
Definition SwitchModulus (newModulus rootOfUnity' modulusArb rootOfUnityArb : Z) (v : NativePoly)
    : NativePoly :=
  {| np_params := {| ringDimension := ringDimension (np_params v); modulus := newModulus;
                     rootOfUnity := rootOfUnity' |};
     np_format := np_format v;
     np_values := map (fun x => x mod newModulus) (np_values v) |}.

(** The generator a secret-key distribution selects, if it is one of the
    three the switch of [KeyGenInternal] knows. *)
Definition secret_generator (d : SecretKeyDist) : option Generator :=
  match d with
  | GAUSSIAN => Some DGG
  | UNIFORM_TERNARY => Some (TUG 0)
  | SPARSE_TERNARY => Some (TUG 192)
  | OTHER_DIST _ => None
  end.

(** The chain key generation sizes the secret key by. *)
Definition working_chain (cryptoParams : CryptoParametersBFVRNS) : ParmType :=
  if is_EXTENDED (GetEncryptionTechnique cryptoParams)
  then GetParamsQr cryptoParams
  else GetElementParams cryptoParams.

(** ** A small parameter set to run the model on

    Ring dimension 2 and the primes 17, 97 and 113 (each 1 modulo 4), with
    their primitive fourth roots of unity 4, 22 and 15. *)

Definition tower17 : ILNativeParams := {| ringDimension := 2; modulus := 17; rootOfUnity := 4 |}.
Definition tower97 : ILNativeParams := {| ringDimension := 2; modulus := 97; rootOfUnity := 22 |}.
Definition tower113 : ILNativeParams := {| ringDimension := 2; modulus := 113; rootOfUnity := 15 |}.

Definition small_params (Q Qr PK : ParmType) (enc : EncryptionTechnique)
    (mul : MultiplicationTechnique) (dist : SecretKeyDist) (t : Z) : CryptoParametersBFVRNS :=
  {| GetElementParams := Q;
     GetParamsQr := Qr;
     GetParamsPK := PK;
     GetEncryptionTechnique := enc;
     GetMultiplicationTechnique := mul;
     GetSecretKeyDist := dist;
     GetNoiseScale := 1;
     GetPlaintextModulus := t;
     GettInvModq := [];
     GettInvModqr := [];
     GetNegQModt := fun _ => 0;
     GetNegQModtPrecon := fun _ => 0;
     GetNegQrModt := 0;
     GetNegQrModtPrecon := 0;
     GetrInvModq := [];
     GetModuliQ := map modulus Q;
     GettQHatInvModqDivqModt := [];
     GettQHatInvModqDivqModtPrecon := [];
     GettQHatInvModqBDivqModt := [];
     GettQHatInvModqBDivqModtPrecon := [];
     GettQHatInvModqDivqFrac := [];
     GettQHatInvModqBDivqFrac := [];
     Gettgamma := 0;
     GettgammaQHatInvModq := [];
     GettgammaQHatInvModqPrecon := [];
     GetNegInvqModtgamma := [];
     GetNegInvqModtgammaPrecon := [];
     GetQlQlInvModqlDivqlModq := fun _ => [];
     GetqlInvModq := fun _ => [] |}.

(** A fixed random tape: draw [k] of any generator is [k+1, 2k+3, ...]. *)
Definition small_rnd (g : Generator) (k n : nat) (q : Z) : list Z :=
  map (fun j => Z.of_nat (k * (j + 1) + 2 * j + 1)) (seq 0 n).

(** An extended-technique context: one primary prime, a two-prime
    extended chain, a three-prime public-key chain. *)
Definition small_cc_extended : CryptoContext :=
  {| GetCryptoParameters :=
       small_params [tower17] [tower17; tower97] [tower17; tower97; tower113]
                    EXTENDED HPS UNIFORM_TERNARY 7 |}.

(** A standard-technique context: a two-prime primary chain, a
    three-prime public-key chain. *)
Definition small_cc (dist : SecretKeyDist) : CryptoContext :=
  {| GetCryptoParameters :=
       small_params [tower17; tower97] [tower17; tower97; tower113] [tower17; tower97; tower113]
                    STANDARD HPS dist 7 |}.

(** The chain [Encrypt] asks the encryption of zero for. *)
Definition encryption_chain (cryptoParams : CryptoParametersBFVRNS) (ptxt : DCRTPoly) : ParmType :=
  if is_EXTENDED (GetEncryptionTechnique cryptoParams)
  then GetParamsQr cryptoParams
  else DCRTPoly_GetParams ptxt.

(** A polynomial that lives on a chain in a format: its towers carry the
    chain's parameters and each holds one value per ring position. *)
Definition on_chain (params : ParmType) (fmt : Format) (p : DCRTPoly) : Prop :=
  m_format p = fmt /\
  DCRTPoly_GetParams p = params /\
  Forall (fun v => length (np_values v) = ringDimension (np_params v)) (m_vectors p).

(** The constant polynomial 1 in the transform domain: 1 at every
    evaluation point of every tower. *)
Definition DCRTPoly_one (params : ParmType) : DCRTPoly :=
  {| m_format := EVALUATION;
     m_vectors := map (fun p => {| np_params := p; np_format := EVALUATION;
                                   np_values := repeat 1 (ringDimension p) |}) params |}.

(** ** Valid parameters, noise and the decoding margin *)

(** Pairwise coprime moduli, each above one. *)
Fixpoint coprime_chain (qs : list Z) : Prop :=
  match qs with
  | [] => True
  | q :: qs' => 1 < q /\ Forall (fun q' => Z.gcd q q' = 1) qs' /\ coprime_chain qs'
  end.

(** A chain of at least one tower, all of ring dimension [n]. *)
Definition valid_chain (n : nat) (params : ParmType) : Prop :=
  params <> [] /\
  coprime_chain (map modulus params) /\
  Forall (fun p => ringDimension p = n) params.

(** What the engine takes for granted of a scheme parameter set: a valid
    primary chain, a plaintext modulus above one, the moduli table of the
    primary chain, and extended and public-key chains no shorter than the
    primary one and short enough for the machine integers. *)
Definition valid_parameters (n : nat) (cp : CryptoParametersBFVRNS) : Prop :=
  valid_chain n (GetElementParams cp) /\
  1 < GetPlaintextModulus cp /\
  GetModuliQ cp = map modulus (GetElementParams cp) /\
  (length (GetElementParams cp) <= length (GetParamsQr cp))%nat /\
  (length (GetElementParams cp) <= length (GetParamsPK cp))%nat /\
  Z.of_nat (length (GetParamsQr cp)) < 2 ^ 32 /\
  Z.of_nat (length (GetParamsPK cp)) < 2 ^ 32.

(** The contract of the external encryption of zero: a pair in the
    transform domain on the chain asked for. *)
Definition zero_encryption_at (enc : ParmType -> M (list DCRTPoly)) : Prop :=
  forall (params : ParmType) (k : nat),
  exists b a k',
    enc params k = Ok ([b; a], k') /\
    m_format b = EVALUATION /\ m_format a = EVALUATION /\
    DCRTPoly_GetParams b = params /\ DCRTPoly_GetParams a = params.

(** The plaintext polynomial with coefficients [m] on a chain. *)
Definition plaintext_on (m : list Z) (params : ParmType) : DCRTPoly := DCRTPoly_ofPoly m params.

(** The integer the decode loop leaves in the first tower: [ds] are the
    moduli dropped, last tower first, [Qc] the product of the moduli
    still there. *)
Fixpoint rescale (Qc : Z) (ds : list Z) (x : Z) : Z :=
  match ds with
  | [] => x
  | d :: ds' => rescale (Qc / d) ds' (round_div x d mod (Qc / d))
  end.

(** Twice the rounding error the drops can add up to, in units of the
    full modulus: the sum of the products of the moduli dropped so far
    ([P] is the product before the first drop). *)
Fixpoint rescale_allowance (P : Z) (ds : list Z) : Z :=
  match ds with
  | [] => 0
  | d :: ds' => P * d + rescale_allowance (P * d) ds'
  end.

Definition decode_allowance (cp : CryptoParametersBFVRNS) (qs : list Z) : Z :=
  if (length qs =? length (GetElementParams cp))%nat then 0
  else rescale_allowance 1 (rev (tl qs)).

(** The margin within which a coefficient decodes: [v] is its noise, [mk]
    its plaintext value and [qs] the ciphertext's moduli. *)
Definition within_margin (cp : CryptoParametersBFVRNS) (qs : list Z) (v mk : Z) : Prop :=
  let Q := product qs in
  let t := GetPlaintextModulus cp in
  2 * (t * Z.abs v + (Q mod t) * mk) + t * decode_allowance cp qs < Q.

(** The bound the specification gives: below half of every modulus. *)
Definition below_half_moduli (qs : list Z) (v : Z) : Prop :=
  Forall (fun q => 2 * Z.abs v < q) qs.

(** The chain of the ciphertext [Encrypt] returns: the primary chain
    under the extended technique, the plaintext's chain otherwise. *)
Definition ciphertext_chain (cp : CryptoParametersBFVRNS) (ptxt : DCRTPoly) : ParmType :=
  if is_EXTENDED (GetEncryptionTechnique cp) then GetElementParams cp
  else DCRTPoly_GetParams ptxt.

(** Every tower of a polynomial is stored in the polynomial's format. *)
Definition towers_in_format (p : DCRTPoly) : Prop :=
  Forall (fun v => np_format v = m_format p) (m_vectors p).

(** The negacyclic transform of ring dimension two, evaluation at the
    root of unity and at its negative, and its inverse. *)
Definition small_ntt (p : ILNativeParams) (xs : list Z) : list Z :=
  match xs with
  | [a0; a1] => [(a0 + rootOfUnity p * a1) mod modulus p;
                 (a0 - rootOfUnity p * a1) mod modulus p]
  | _ => xs
  end.

Definition small_intt (p : ILNativeParams) (ys : list Z) : list Z :=
  match ys with
  | [y0; y1] => [((y0 + y1) * Z.invmod 2 (modulus p)) mod modulus p;
                 ((y0 - y1) * Z.invmod (2 * rootOfUnity p) (modulus p)) mod modulus p]
  | _ => repeat 0 (ringDimension p)
  end.

Definition tower_values (towers : list NativePoly) (i : nat) : list Z :=
  match nth_error towers i with
  | Some v => np_values v
  | None => []
  end.

(** A transform-domain polynomial on a chain, tower [i] holding [f i p]. *)
Definition towers_of (params : ParmType) (f : nat -> ILNativeParams -> list Z) : DCRTPoly :=
  {| m_format := EVALUATION;
     m_vectors := map (fun ip => {| np_params := snd ip; np_format := EVALUATION;
                                    np_values := f (fst ip) (snd ip) |})
                      (combine (seq 0 (length params)) params) |}.

(** An encryption of zero under a secret key [s]: [(e - a * s, a)] with
    the mask [a = (3, 4)] at the two evaluation points and the noise
    [e = 2 + 5 x]. *)
Definition small_zero_priv (privateKey : PrivateKey) (params : ParmType) : M (list DCRTPoly) :=
  fun k =>
    let s := m_vectors (GetPrivateElement privateKey) in
    Ok ([towers_of params
           (fun i p => map2 (fun e x => (e - x) mod modulus p) (small_ntt p [2; 5])
                         (map2 (fun a y => (a * y) mod modulus p) [3; 4] (tower_values s i)));
         towers_of params (fun _ _ => [3; 4])], k).

(** An encryption of zero under a public key [(b, a)]: [(b + e, a)] with
    the noise [e = 2 + 5 x]. *)
Definition small_zero_pub (publicKey : PublicKey) (params : ParmType) : M (list DCRTPoly) :=
  fun k =>
    let b := match GetPublicElements publicKey with b :: _ => m_vectors b | [] => [] end in
    let a := match GetPublicElements publicKey with _ :: a :: _ => m_vectors a | _ => [] end in
    Ok ([towers_of params
           (fun i p => map2 (fun x e => (x + e) mod modulus p) (tower_values b i)
                         (small_ntt p [2; 5]));
         towers_of params (fun i _ => tower_values a i)], k).

(** One primary prime, for a ciphertext modulus of 17 only. *)
Definition small_cc_single : CryptoContext :=
  {| GetCryptoParameters :=
       small_params [tower17] [tower17; tower97] [tower17; tower97]
                    STANDARD HPS UNIFORM_TERNARY 7 |}.

(** Three primary primes, so that a two-tower ciphertext is level-reduced. *)
Definition small_cc_three : CryptoContext :=
  {| GetCryptoParameters :=
       small_params [tower17; tower97; tower113] [tower17; tower97; tower113]
                    [tower17; tower97; tower113] STANDARD BEHZ UNIFORM_TERNARY 7 |}.

(** A secret key on the primary chain of a context: the ternary
    polynomial that is [1] and [-1] at the two evaluation points. *)
Definition small_sk (cc : CryptoContext) : PrivateKey :=
  {| sk_context := cc;
     sk_keyTag := Some 0%nat;
     GetPrivateElement :=
       towers_of (GetElementParams (GetCryptoParameters cc)) (fun _ p => [1; modulus p - 1]) |}.

(** The public key [(- a * s, a)] derived from it, with the mask
    [a = (3, 4)] and no key noise. *)
Definition small_pk (cc : CryptoContext) : PublicKey :=
  {| pk_context := cc;
     pk_keyTag := Some 0%nat;
     GetPublicElements :=
       [towers_of (GetElementParams (GetCryptoParameters cc)) (fun _ p => [modulus p - 3; 4]);
        towers_of (GetElementParams (GetCryptoParameters cc)) (fun _ _ => [3; 4])] |}.

(** A three-component ciphertext on the two-prime chain. *)
Definition small_ct : Ciphertext :=
  {| ct_context := small_cc UNIFORM_TERNARY;
     ct_keyTag := Some 0%nat;
     GetElements := [towers_of [tower17; tower97] (fun _ _ => [5; 6]);
                     towers_of [tower17; tower97] (fun _ _ => [3; 4]);
                     towers_of [tower17; tower97] (fun _ _ => [7; 8])];
     GetNoiseScaleDeg := 1;
     GetLevel := 0 |}.

(** A polynomial in one domain whose towers hold reduced residues, one
    per ring position. *)
Definition reduced_form (fmt : Format) (p : DCRTPoly) : Prop :=
  m_format p = fmt /\
  Forall (fun v => np_format v = fmt /\
                   length (np_values v) = ringDimension (np_params v) /\
                   Forall (fun x => 0 <= x < modulus (np_params v)) (np_values v))
         (m_vectors p).

(** A polynomial that is zero at every position of every tower. *)
Definition vanishes (p : DCRTPoly) : Prop :=
  Forall (fun v => Forall (fun x => x = 0) (np_values v)) (m_vectors p).

(** A random tape that tells the generators apart: as [small_rnd], moved
    by a tag of the generator, which for the ternary generator holds its
    Hamming weight. *)
Definition tagged_rnd (g : Generator) (k n : nat) (q : Z) : list Z :=
  let tag := match g with DGG => 0%nat | DUG => 1%nat | TUG h => (2 + h)%nat end in
  map (fun j => Z.of_nat (tag + k * (j + 1) + 2 * j + 1)) (seq 0 n).
Section PKE.

(** The random generators are external: [rnd g k n q] is what generator
    [g] hands out at draw number [k] for ring dimension [n] and modulus
    [q]. *)
Variable rnd : Generator -> nat -> nat -> Z -> list Z.

(** [GenerateVector(ringDim, modulus)]: [ringDim] residues modulo
    [modulus]. *)
Definition drawn (g : Generator) (k : nat) (n : nat) (q : Z) : list Z :=
  map (fun j => nth j (rnd g k n q) 0 mod q) (seq 0 n).

Definition GenerateVector (g : Generator) (n : nat) (q : Z) : M (list Z) :=
  fun k => Ok (drawn g k n q, S k).

(** [DCRTPoly(gen, params, format)]: one draw, a tower per modulus of
    the chain, in the requested format. *)
Definition sampled (g : Generator) (params : ParmType) (fmt : Format) (k : nat) : DCRTPoly :=
  {| m_format := fmt;
     m_vectors := map (fun p => {| np_params := p; np_format := fmt;
                                   np_values := drawn g k (ringDimension p) (modulus p) |}) params |}.

Definition DCRTPoly_random (g : Generator) (params : ParmType) (fmt : Format) : M DCRTPoly :=
  fun k => Ok (sampled g params fmt k, S k).

(** [PrivateKeyImpl(cc)] takes a fresh unique id, [PublicKeyImpl(cc)]
    starts with the empty tag. *)
Definition GenerateUniqueKeyID : M KeyTag := fun k => Ok (Some k, S k).

(** *** [PKEBFVRNS::KeyGenInternal] *)

Definition KeyGenInternal (cc : CryptoContext) (makeSparse : bool) : M KeyPair :=
  dom tag <- GenerateUniqueKeyID;
  let cryptoParams := GetCryptoParameters cc in
  let elementParams :=
    if is_EXTENDED (GetEncryptionTechnique cryptoParams)
    then GetParamsQr cryptoParams
    else GetElementParams cryptoParams in
  let paramsPK := GetParamsPK cryptoParams in
  let ns := GetNoiseScale cryptoParams in
  (* Private Key Generation *)
  dom s <- match GetSecretKeyDist cryptoParams with
           | GAUSSIAN => DCRTPoly_random DGG paramsPK EVALUATION
           | UNIFORM_TERNARY => DCRTPoly_random (TUG 0) paramsPK EVALUATION
           | SPARSE_TERNARY => DCRTPoly_random (TUG 192) paramsPK EVALUATION
           | OTHER_DIST _ => ret DCRTPoly_default
           end;
  (* Public Key Generation *)
  dom a <- DCRTPoly_random DUG paramsPK EVALUATION;
  dom e <- DCRTPoly_random DGG paramsPK EVALUATION;
  dom b <- lift (do a_s <- Times a s; Minus (ScalarTimes ns e) a_s);
  let sizeQ := usint (Z.of_nat (length elementParams)) in
  let sizePK := usint (Z.of_nat (length paramsPK)) in
  let s' := if sizePK >? sizeQ then DropLastElements (Z.to_nat (usint (sizePK - sizeQ))) s else s in
  ret {| publicKey := {| pk_context := cc; pk_keyTag := tag; GetPublicElements := [b; a] |};
         secretKey := {| sk_context := cc; sk_keyTag := tag; GetPrivateElement := s' |} |}.

(** *** Domain conversion *)

(** The number-theoretic transform of one tower and its inverse are
    external primitives. *)
Variable ntt : ILNativeParams -> list Z -> list Z.
Variable intt : ILNativeParams -> list Z -> list Z.

Definition NativePoly_SetFormat (fmt : Format) (v : NativePoly) : NativePoly :=
  if Format_eqb (np_format v) fmt then v
  else {| np_params := np_params v;
          np_format := fmt;
          np_values := match fmt with
                       | EVALUATION => ntt (np_params v) (np_values v)
                       | COEFFICIENT => intt (np_params v) (np_values v)
                       end |}.

Definition SetFormat (fmt : Format) (p : DCRTPoly) : DCRTPoly :=
  if Format_eqb (m_format p) fmt then p
  else {| m_format := fmt; m_vectors := map (NativePoly_SetFormat fmt) (m_vectors p) |}.

(** Modelled from the spec: [DropLastElementAndScale] is not part of the
    sources at hand; section 4.1: the last tower is removed and its
    contribution redistributed into the remaining towers, rounding to the
    nearest, so the integer behind the residues becomes [x / q_last]
    rounded, on the chain without its last prime.  The rescale tables
    are the precomputed forms of these constants and are not read. *)
Definition DropLastElementAndScale (QlQlInvModqlDivqlModq qlInvModq : list Z) (p : DCRTPoly)
    : result DCRTPoly :=
  match rev (m_vectors p) with
  | [] => Throw too_few_towers
  | last :: _ =>
      let xs := map (fun x => round_div x (GetModulus last))
                    (CRTInterpolate (SetFormat COEFFICIENT p)) in
      Ok (SetFormat (m_format p)
            (DCRTPoly_ofPoly xs (removelast (DCRTPoly_GetParams p))))
  end.

(** *** [PKEBFVRNS::Encrypt] *)

(** The encryption of zero under a key at a chain is an external routine;
    it draws its own randomness. *)
Variable EncryptZeroCore_priv : PrivateKey -> ParmType -> M (list DCRTPoly).
Variable EncryptZeroCore_pub : PublicKey -> ParmType -> M (list DCRTPoly).

Definition Encrypt_priv (ptxt : DCRTPoly) (privateKey : PrivateKey) : M Ciphertext :=
  let cryptoParams := GetCryptoParameters (sk_context privateKey) in
  let elementParams := GetElementParams cryptoParams in
  let sizeQ := size_t (Z.of_nat (length elementParams)) in
  let encParams := DCRTPoly_GetParams ptxt in
  let sizeP := size_t (Z.of_nat (length encParams)) in
  (* enables encoding of plaintexts using a smaller number of RNS limbs *)
  let level := size_t (sizeQ - sizeP) in
  let extended := is_EXTENDED (GetEncryptionTechnique cryptoParams) in
  let tInvModq := if extended then GettInvModqr cryptoParams else GettInvModq cryptoParams in
  let encParams := if extended then GetParamsQr cryptoParams else encParams in
  let ptxt := if extended
              then DCRTPoly_ofPoly (CRTInterpolate (SetFormat COEFFICIENT ptxt)) encParams
              else ptxt in
  let ptxt := SetFormat COEFFICIENT ptxt in
  dom ba <- EncryptZeroCore_priv privateKey encParams;
  let NegQModt := if extended then GetNegQrModt cryptoParams
                  else GetNegQModt cryptoParams level in
  let NegQModtPrecon := if extended then GetNegQrModtPrecon cryptoParams
                        else GetNegQModtPrecon cryptoParams level in
  let t := GetPlaintextModulus cryptoParams in
  let ptxt := TimesQovert encParams tInvModq t NegQModt NegQModtPrecon ptxt in
  let ptxt := SetFormat EVALUATION ptxt in
  dom ba0 <- lift (at_index ba 0);
  dom ba0 <- lift (Plus ba0 ptxt);
  dom ba1 <- lift (at_index ba 1);
  let ba0 := SetFormat COEFFICIENT ba0 in
  let ba1 := SetFormat COEFFICIENT ba1 in
  let ba0 := if extended then ScaleAndRoundPOverQ elementParams (GetrInvModq cryptoParams) ba0
             else ba0 in
  let ba1 := if extended then ScaleAndRoundPOverQ elementParams (GetrInvModq cryptoParams) ba1
             else ba1 in
  let ba0 := SetFormat EVALUATION ba0 in
  let ba1 := SetFormat EVALUATION ba1 in
  ret {| ct_context := sk_context privateKey;
         ct_keyTag := sk_keyTag privateKey;
         GetElements := [ba0; ba1];
         GetNoiseScaleDeg := 1;
         GetLevel := 0 |}.

Definition Encrypt_pub (ptxt : DCRTPoly) (publicKey : PublicKey) : M Ciphertext :=
  let cryptoParams := GetCryptoParameters (pk_context publicKey) in
  let elementParams := GetElementParams cryptoParams in
  let sizeQ := size_t (Z.of_nat (length elementParams)) in
  let encParams := DCRTPoly_GetParams ptxt in
  let sizeP := size_t (Z.of_nat (length encParams)) in
  (* enables encoding of plaintexts using a smaller number of RNS limbs *)
  let level := size_t (sizeQ - sizeP) in
  let extended := is_EXTENDED (GetEncryptionTechnique cryptoParams) in
  let tInvModq := if extended then GettInvModqr cryptoParams else GettInvModq cryptoParams in
  let encParams := if extended then GetParamsQr cryptoParams else encParams in
  let ptxt := if extended
              then DCRTPoly_ofPoly (CRTInterpolate (SetFormat COEFFICIENT ptxt)) encParams
              else ptxt in
  let ptxt := SetFormat COEFFICIENT ptxt in
  dom ba <- EncryptZeroCore_pub publicKey encParams;
  let NegQModt := if extended then GetNegQrModt cryptoParams
                  else GetNegQModt cryptoParams level in
  let NegQModtPrecon := if extended then GetNegQrModtPrecon cryptoParams
                        else GetNegQModtPrecon cryptoParams level in
  let t := GetPlaintextModulus cryptoParams in
  let ptxt := TimesQovert encParams tInvModq t NegQModt NegQModtPrecon ptxt in
  let ptxt := SetFormat EVALUATION ptxt in
  dom ba0 <- lift (at_index ba 0);
  dom ba0 <- lift (Plus ba0 ptxt);
  dom ba1 <- lift (at_index ba 1);
  let ba0 := SetFormat COEFFICIENT ba0 in
  let ba1 := SetFormat COEFFICIENT ba1 in
  let ba0 := if extended then ScaleAndRoundPOverQ elementParams (GetrInvModq cryptoParams) ba0
             else ba0 in
  let ba1 := if extended then ScaleAndRoundPOverQ elementParams (GetrInvModq cryptoParams) ba1
             else ba1 in
  let ba0 := SetFormat EVALUATION ba0 in
  let ba1 := SetFormat EVALUATION ba1 in
  ret {| ct_context := pk_context publicKey;
         ct_keyTag := pk_keyTag publicKey;
         GetElements := [ba0; ba1];
         GetNoiseScaleDeg := 1;
         GetLevel := 0 |}.

(** *** [PKEBFVRNS::Decrypt] *)

(** Modelled from the spec: [DecryptCore] is not part of the sources at
    hand; section 4.4 step 1: [b = c0 + c1 * s] in the transform domain,
    the key being read on the towers the ciphertext still has. *)
Definition DecryptCore (cv : list DCRTPoly) (privateKey : PrivateKey) : result DCRTPoly :=
  do c0 <- at_index cv 0;
  do c1 <- at_index cv 1;
  let s := GetPrivateElement privateKey in
  let s := DropLastElements (GetNumOfElements s - GetNumOfElements c1) s in
  do c1s <- Times c1 s;
  Plus c0 c1s.

(** [for (size_t l = 0; l < levels; ++l) b.DropLastElementAndScale(...)],
    with [n] rounds left and the counter at [l]. *)
Fixpoint DropAndScaleLoop (cryptoParams : CryptoParametersBFVRNS) (diffQl : Z)
    (n : nat) (l : Z) (b : DCRTPoly) : result DCRTPoly :=
  match n with
  | O => Ok b
  | S n' =>
      do b <- DropLastElementAndScale
                (GetQlQlInvModqlDivqlModq cryptoParams (size_t (diffQl + l)))
                (GetqlInvModq cryptoParams (size_t (diffQl + l))) b;
      DropAndScaleLoop cryptoParams diffQl n' (size_t (l + 1)) b
  end.

Definition Decrypt (ciphertext : Ciphertext) (privateKey : PrivateKey)
    : result (NativePoly * DecryptResult) :=
  let cryptoParams := GetCryptoParameters (sk_context privateKey) in
  let cv := GetElements ciphertext in
  do b <- DecryptCore cv privateKey;
  let sizeQl := size_t (Z.of_nat (GetNumOfElements b)) in
  let elementParams := GetElementParams cryptoParams in
  let sizeQ := size_t (Z.of_nat (length elementParams)) in
  do plaintext <-
    (* use RNS procedures only if the number of RNS limbs is the same as for fresh ciphertexts *)
    (if sizeQl =? sizeQ then
       let b := SetFormat COEFFICIENT b in
       match GetMultiplicationTechnique cryptoParams with
       | HPS | HPSPOVERQ | HPSPOVERQLEVELED =>
           Ok (ScaleAndRound_direct (GetPlaintextModulus cryptoParams)
                 (GettQHatInvModqDivqModt cryptoParams)
                 (GettQHatInvModqDivqModtPrecon cryptoParams)
                 (GettQHatInvModqBDivqModt cryptoParams)
                 (GettQHatInvModqBDivqModtPrecon cryptoParams)
                 (GettQHatInvModqDivqFrac cryptoParams)
                 (GettQHatInvModqBDivqFrac cryptoParams) b)
       | BEHZ =>
           Ok (ScaleAndRound_gamma (GetModuliQ cryptoParams)
                 (GetPlaintextModulus cryptoParams) (Gettgamma cryptoParams)
                 (GettgammaQHatInvModq cryptoParams)
                 (GettgammaQHatInvModqPrecon cryptoParams)
                 (GetNegInvqModtgamma cryptoParams)
                 (GetNegInvqModtgammaPrecon cryptoParams) b)
       end
     else
       (* for the case when compress was called, we automatically reduce the polynomial to 1 RNS limb *)
       let diffQl := size_t (sizeQ - sizeQl) in
       let levels := size_t (sizeQl - 1) in
       do b <- DropAndScaleLoop cryptoParams diffQl (Z.to_nat levels) 0 b;
       let b := SetFormat COEFFICIENT b in
       let t := GetPlaintextModulus cryptoParams in
       do element <- at_index (m_vectors b) 0;
       let q := GetModulus element in
       let element := MultiplyAndRound t q element in
       (* Setting the root of unity to ONE as the calculation is expensive *)
       let element := SwitchModulus t 1 0 0 element in
       Ok element);
  Ok (plaintext, {| isValid := true; messageLength := GetLength plaintext |}).

(** *** The randomisation block of [hpdic_nemesis_ckks.cpp] *)

(** [for (size_t i = 0; i < numTowers; ++i) { ... }]: a noise vector per
    tower, put into [randomNoise] at the tower's index. *)
Fixpoint NoiseLoop (towers : ParmType) (i : nat) (randomNoise : DCRTPoly) : M DCRTPoly :=
  match towers with
  | [] => ret randomNoise
  | p :: towers' =>
      dom noiseVector <- GenerateVector DGG (ringDimension p) (modulus p);
      let noisePoly := {| np_params := p; np_format := COEFFICIENT; np_values := noiseVector |} in
      dom vs <- lift (set_index i noisePoly (m_vectors randomNoise));
      NoiseLoop towers' (S i) {| m_format := m_format randomNoise; m_vectors := vs |}
  end.

Definition Randomize (ct_product : Ciphertext) : M Ciphertext :=
  let elements := GetElements ct_product in
  dom c0 <- lift (at_index elements 0);
  dom c1 <- lift (at_index elements 1);
  let elementParams := DCRTPoly_GetParams c0 in
  let randomNoise := DCRTPoly_zero elementParams COEFFICIENT in
  dom randomNoise <- NoiseLoop elementParams 0 randomNoise;
  let randomNoise := SetFormat EVALUATION randomNoise in
  dom newC0 <- lift (Plus c0 randomNoise);
  dom newC1 <- lift (Minus c1 randomNoise);
  let newC0 := SetFormat EVALUATION newC0 in
  let newC1 := SetFormat EVALUATION newC1 in
  dom elements <- lift (set_index 0 newC0 elements);
  dom elements <- lift (set_index 1 newC1 elements);
  ret {| ct_context := ct_context ct_product;
         ct_keyTag := ct_keyTag ct_product;
         GetElements := elements;
         GetNoiseScaleDeg := GetNoiseScaleDeg ct_product;
         GetLevel := GetLevel ct_product |}.

(** The towers [NoiseLoop] leaves behind when it starts at draw [k]: tower
    [i] holds draw [k + i], in coefficient format. *)
Definition noise_towers (k : nat) (towers : ParmType) : list NativePoly :=
  map (fun pj => {| np_params := fst pj; np_format := COEFFICIENT;
                    np_values := drawn DGG (snd pj) (ringDimension (fst pj)) (modulus (fst pj)) |})
      (combine towers (seq k (length towers))).

(** The noise polynomial [r] of the randomisation block, in the
    transform domain. *)
Definition noise_polynomial (k : nat) (towers : ParmType) : DCRTPoly :=
  SetFormat EVALUATION {| m_format := COEFFICIENT; m_vectors := noise_towers k towers |}.

(** *** The reduced-precision decode in the specification's words

    Section 4.4 step 3: drop and rescale until a single tower remains,
    convert to the coefficient domain, multiply the remaining residues by
    [t] and round-divide by the remaining modulus, and read the result
    modulo [t] with the root of unity reset to one. *)

Fixpoint drop_until_one (fuel : nat) (b : DCRTPoly) : result DCRTPoly :=
  match fuel with
  | O => Ok b
  | S fuel' =>
      if (GetNumOfElements b <=? 1)%nat then Ok b
      else do b' <- DropLastElementAndScale [] [] b; drop_until_one fuel' b'
  end.

Definition reduced_precision_decode (t : Z) (b : DCRTPoly) : result NativePoly :=
  do b1 <- drop_until_one (GetNumOfElements b) b;
  match m_vectors (SetFormat COEFFICIENT b1) with
  | [v] =>
      Ok {| np_params := {| ringDimension := ringDimension (np_params v);
                            modulus := t; rootOfUnity := 1 |};
            np_format := np_format v;
            np_values := map (fun x => round_div (x * t) (GetModulus v) mod t) (np_values v) |}
  | _ => Throw too_few_towers
  end.

(** *** Noise *)

(** What is taken for granted of the external transform on the towers of
    a chain: the inverse transform undoes the forward one on residue
    vectors, and it returns one residue per ring position. *)
Definition transform_correct (params : ParmType) : Prop :=
  forall p : ILNativeParams, In p params ->
    (forall xs, length xs = ringDimension p ->
                Forall (fun x => 0 <= x < modulus p) xs ->
                intt p (ntt p xs) = xs) /\
    (forall xs, length (intt p xs) = ringDimension p /\
                Forall (fun x => 0 <= x < modulus p) (intt p xs)).

(** The forward transform undoes the inverse one on reduced residues. *)
Definition transform_undone (params : ParmType) : Prop :=
  forall p : ILNativeParams, In p params ->
    forall xs, length xs = ringDimension p ->
               Forall (fun x => 0 <= x < modulus p) xs ->
               ntt p (intt p xs) = xs.

(** The accumulated noise of a ciphertext that encrypts [m]: coefficient
    by coefficient, the centred distance modulo [Q] between
    [c0 + c1 * s] and the scaled plaintext [floor(Q/t) * m]. *)
Definition noise (ct : Ciphertext) (privateKey : PrivateKey) (t : Z) (m : list Z)
    : result (list Z) :=
  do b <- DecryptCore (GetElements ct) privateKey;
  let Q := product (moduli b) in
  Ok (map2 (fun x mk => centered (x - Q / t * mk) Q)
           (CRTInterpolate (SetFormat COEFFICIENT b)) m).
(** * Properties *)

Lemma Format_eqb_eq (a b : Format) : Format_eqb a b = true <-> a = b.
Proof. destruct a, b; simpl; split; congruence. Qed.

Lemma Format_eqb_refl (a : Format) : Format_eqb a a = true.
Proof. now destruct a. Qed.

(** ** Lists and residue polynomials *)

#[local] Existing Instances eqm_setoid Zplus_eqm Zminus_eqm Zmult_eqm Zopp_eqm.

(** Closes [a mod q = b mod q] when [a] and [b] agree as ring expressions
    once the inner reductions modulo [q] are forgotten. *)
Ltac mod_ring q :=
  match goal with |- ?a mod q = ?b mod q => change (eqm q a b) end;
  rewrite ?(Zmod_eqm q);
  unfold eqm; f_equal; ring.

Lemma map2_length {A B C : Type} (f : A -> B -> C) (l1 : list A) (l2 : list B) :
  length l1 = length l2 -> length (map2 f l1 l2) = length l1.
Proof.
  revert l2; induction l1 as [|a l1 IH]; intros [|b l2]; simpl; try congruence.
  intros H; f_equal; apply IH; congruence.
Qed.

Lemma map2_map_l {A B C D : Type} (g : C -> D) (f : A -> B -> C) (l1 : list A) (l2 : list B) :
  map g (map2 f l1 l2) = map2 (fun a b => g (f a b)) l1 l2.
Proof.
  revert l2; induction l1 as [|a l1 IH]; intros [|b l2]; simpl; try reflexivity.
  now rewrite IH.
Qed.

Lemma map2_fst {A B : Type} (l1 : list A) (l2 : list B) :
  length l1 = length l2 -> map2 (fun a _ => a) l1 l2 = l1.
Proof.
  revert l2; induction l1 as [|a l1 IH]; intros [|b l2]; simpl; try congruence.
  intros H; f_equal; apply IH; congruence.
Qed.

Lemma checked_binop_ok (f : Z -> Z -> Z) (a b : DCRTPoly) :
  length (m_vectors a) = length (m_vectors b) ->
  m_format a = m_format b ->
  checked_binop f a b = Ok (DCRTPoly_binop f a b).
Proof.
  intros Hl Hf; unfold checked_binop.
  rewrite Hl, Nat.eqb_refl, Hf, Format_eqb_refl; reflexivity.
Qed.

Lemma checked_binop_mismatch (f : Z -> Z -> Z) (a b : DCRTPoly) :
  length (m_vectors a) <> length (m_vectors b) ->
  checked_binop f a b = Throw tower_size_mismatch.
Proof.
  intros Hl; unfold checked_binop.
  destruct (Nat.eqb_spec (length (m_vectors a)) (length (m_vectors b))); [contradiction|reflexivity].
Qed.

Lemma binop_params (f : Z -> Z -> Z) (a b : DCRTPoly) :
  length (m_vectors a) = length (m_vectors b) ->
  DCRTPoly_GetParams (DCRTPoly_binop f a b) = DCRTPoly_GetParams a.
Proof.
  intros Hl; unfold DCRTPoly_GetParams, DCRTPoly_binop; simpl.
  rewrite map2_map_l; simpl.
  rewrite <- (map2_fst (m_vectors a) (m_vectors b) Hl) at 2.
  clear Hl; generalize (m_vectors b); induction (m_vectors a) as [|x xs IH]; intros [|y ys]; simpl;
    try reflexivity.
  now rewrite IH.
Qed.

Lemma binop_length (f : Z -> Z -> Z) (a b : DCRTPoly) :
  length (m_vectors a) = length (m_vectors b) ->
  length (m_vectors (DCRTPoly_binop f a b)) = length (m_vectors a).
Proof. intros Hl; unfold DCRTPoly_binop; cbn [m_vectors]; now apply map2_length. Qed.

Lemma map2_length_min {A B C : Type} (f : A -> B -> C) (l1 : list A) (l2 : list B) :
  length (map2 f l1 l2) = Nat.min (length l1) (length l2).
Proof.
  revert l2; induction l1 as [|a l1 IH]; intros [|b l2]; simpl; try reflexivity.
  now rewrite IH.
Qed.

Lemma binop_length_min (f : Z -> Z -> Z) (a b : DCRTPoly) :
  length (m_vectors (DCRTPoly_binop f a b))
  = Nat.min (length (m_vectors a)) (length (m_vectors b)).
Proof. unfold DCRTPoly_binop; cbn [m_vectors]; apply map2_length_min. Qed.

(** Tower counts and formats of nested sums and products. *)
Ltac shape :=
  rewrite ?binop_length_min; cbn [m_format DCRTPoly_binop];
  first [lia | congruence].

Lemma ScalarTimes_length (c : Z) (a : DCRTPoly) :
  length (m_vectors (ScalarTimes c a)) = length (m_vectors a).
Proof. unfold ScalarTimes; cbn [m_vectors]; apply length_map. Qed.

Lemma ScalarTimes_params (c : Z) (a : DCRTPoly) :
  DCRTPoly_GetParams (ScalarTimes c a) = DCRTPoly_GetParams a.
Proof.
  unfold DCRTPoly_GetParams, ScalarTimes; simpl; rewrite map_map; reflexivity.
Qed.

Lemma sampled_params (g : Generator) (params : ParmType) (fmt : Format) (k : nat) :
  DCRTPoly_GetParams (sampled g params fmt k) = params.
Proof.
  unfold DCRTPoly_GetParams, sampled; simpl; rewrite map_map; simpl; apply map_id.
Qed.

Lemma sampled_length (g : Generator) (params : ParmType) (fmt : Format) (k : nat) :
  length (m_vectors (sampled g params fmt k)) = length params.
Proof. unfold sampled; simpl; apply length_map. Qed.

Lemma DropLastElements_0 (a : DCRTPoly) : DropLastElements 0 a = a.
Proof.
  destruct a as [f vs]; unfold DropLastElements; simpl.
  now rewrite Nat.sub_0_r, firstn_all.
Qed.

Lemma DropLastElements_params (n : nat) (a : DCRTPoly) :
  DCRTPoly_GetParams (DropLastElements n a)
  = firstn (length (m_vectors a) - n) (DCRTPoly_GetParams a).
Proof. unfold DCRTPoly_GetParams, DropLastElements; simpl; now rewrite firstn_map. Qed.

(** ** Key generation *)

(** What [KeyGenInternal] returns for one of the three supported
    distributions, draw by draw. *)
Lemma KeyGenInternal_supported (cc : CryptoContext) (makeSparse : bool) (k : nat) (g : Generator) :
  secret_generator (GetSecretKeyDist (GetCryptoParameters cc)) = Some g ->
  let cp := GetCryptoParameters cc in
  let paramsPK := GetParamsPK cp in
  let s := sampled g paramsPK EVALUATION (S k) in
  let a := sampled DUG paramsPK EVALUATION (S (S k)) in
  let e := sampled DGG paramsPK EVALUATION (S (S (S k))) in
  let sizeQ := usint (Z.of_nat (length (working_chain cp))) in
  let sizePK := usint (Z.of_nat (length paramsPK)) in
  KeyGenInternal cc makeSparse k
  = Ok ({| publicKey := {| pk_context := cc; pk_keyTag := Some k;
                           GetPublicElements :=
                             [DCRTPoly_binop Z.sub (ScalarTimes (GetNoiseScale cp) e)
                                (DCRTPoly_binop Z.mul a s); a] |};
           secretKey := {| sk_context := cc; sk_keyTag := Some k;
                           GetPrivateElement :=
                             if sizePK >? sizeQ
                             then DropLastElements (Z.to_nat (usint (sizePK - sizeQ))) s
                             else s |} |},
        S (S (S (S k)))).
Proof.
  intros Hg cp paramsPK s a e sizeQ sizePK.
  assert (Has : Times a s = Ok (DCRTPoly_binop Z.mul a s)).
  { apply checked_binop_ok; [subst a s; now rewrite !sampled_length|reflexivity]. }
  assert (Hb : Minus (ScalarTimes (GetNoiseScale cp) e) (DCRTPoly_binop Z.mul a s)
               = Ok (DCRTPoly_binop Z.sub (ScalarTimes (GetNoiseScale cp) e)
                       (DCRTPoly_binop Z.mul a s))).
  { apply checked_binop_ok; [|reflexivity].
    rewrite ScalarTimes_length, binop_length; subst a e s; now rewrite !sampled_length. }
  unfold KeyGenInternal, bind, GenerateUniqueKeyID.
  fold cp; fold paramsPK.
  assert (Hs : match GetSecretKeyDist cp with
               | GAUSSIAN => DCRTPoly_random DGG paramsPK EVALUATION
               | UNIFORM_TERNARY => DCRTPoly_random (TUG 0) paramsPK EVALUATION
               | SPARSE_TERNARY => DCRTPoly_random (TUG 192) paramsPK EVALUATION
               | OTHER_DIST _ => ret DCRTPoly_default
               end (S k) = Ok (s, S (S k))).
  { subst s cp; destruct (GetSecretKeyDist (GetCryptoParameters cc)); simpl in Hg;
      try discriminate Hg; injection Hg as <-; reflexivity. }
  rewrite Hs.
  unfold DCRTPoly_random, lift, ret; fold a; fold e.
  rewrite Has; simpl rbind; rewrite Hb; reflexivity.
Qed.

(** C2: key generation computes the first public-key component as
    [b = noiseScale * e - a * s], with [a] drawn from the uniform
    generator, [e] from the discrete Gaussian generator and [s] from the
    configured secret distribution, all four in the transform domain on
    the public-key chain; the public key is [(b, a)]. *)
Theorem KeyGenInternal_public_key (cc : CryptoContext) (makeSparse : bool) (k : nat)
    (g : Generator) :
  secret_generator (GetSecretKeyDist (GetCryptoParameters cc)) = Some g ->
  let cp := GetCryptoParameters cc in
  let paramsPK := GetParamsPK cp in
  let s := sampled g paramsPK EVALUATION (S k) in
  let a := sampled DUG paramsPK EVALUATION (S (S k)) in
  let e := sampled DGG paramsPK EVALUATION (S (S (S k))) in
  exists a_s b kp,
    Times a s = Ok a_s /\
    Minus (ScalarTimes (GetNoiseScale cp) e) a_s = Ok b /\
    KeyGenInternal cc makeSparse k = Ok (kp, S (S (S (S k)))) /\
    GetPublicElements (publicKey kp) = [b; a] /\
    Forall (fun p => m_format p = EVALUATION /\ DCRTPoly_GetParams p = paramsPK) [s; a; e; b].
Proof.
  intros Hg cp paramsPK s a e.
  pose proof (KeyGenInternal_supported cc makeSparse k g Hg) as Hk; cbv zeta in Hk.
  fold cp paramsPK s a e in Hk.
  assert (Hl : length (m_vectors a) = length (m_vectors s))
    by (subst a s; now rewrite !sampled_length).
  exists (DCRTPoly_binop Z.mul a s).
  exists (DCRTPoly_binop Z.sub (ScalarTimes (GetNoiseScale cp) e) (DCRTPoly_binop Z.mul a s)).
  eexists; split; [|split; [|split; [exact Hk|split; [reflexivity|]]]].
  - apply checked_binop_ok; [exact Hl|reflexivity].
  - apply checked_binop_ok; [|reflexivity].
    rewrite ScalarTimes_length, binop_length by exact Hl.
    subst a e; now rewrite !sampled_length.
  - repeat constructor; try (subst s a e; apply sampled_params).
    rewrite binop_params, ScalarTimes_params; [subst e; apply sampled_params|].
    rewrite ScalarTimes_length, binop_length by exact Hl.
    subst a e; now rewrite !sampled_length.
Qed.

Lemma Times_default_refused (g : Generator) (params : ParmType) (fmt : Format) (k : nat) :
  params <> [] ->
  Times (sampled g params fmt k) DCRTPoly_default = Throw tower_size_mismatch.
Proof.
  intros Hne. apply checked_binop_mismatch. rewrite sampled_length.
  destruct params; [contradiction|discriminate].
Qed.

(** C3: with a secret-key distribution selector that is none of the three
    supported ones, key generation on a (non-empty) public-key chain ends
    in an exception and returns no key material: the secret stays the
    default-constructed polynomial and the product [a * s] is refused. *)
Theorem KeyGenInternal_unsupported_distribution (cc : CryptoContext) (makeSparse : bool)
    (k : nat) :
  secret_generator (GetSecretKeyDist (GetCryptoParameters cc)) = None ->
  GetParamsPK (GetCryptoParameters cc) <> [] ->
  KeyGenInternal cc makeSparse k = Throw tower_size_mismatch.
Proof.
  intros Hg Hpk.
  unfold KeyGenInternal, bind, GenerateUniqueKeyID.
  destruct (GetSecretKeyDist (GetCryptoParameters cc)); simpl in Hg; try discriminate Hg.
  unfold ret, DCRTPoly_random, lift.
  now rewrite Times_default_refused.
Qed.

(** C4, as amended: when the public-key chain has more towers than the
    chain key generation works on (the primary chain, or the extended
    chain [Qr] under the extended encryption technique), the returned
    secret key is the sampled one without its excess last towers, and
    the public key [(b, a)] stays on the public-key chain. *)
Theorem KeyGenInternal_secret_truncated (cc : CryptoContext) (makeSparse : bool) (k : nat)
    (g : Generator) :
  secret_generator (GetSecretKeyDist (GetCryptoParameters cc)) = Some g ->
  let cp := GetCryptoParameters cc in
  let paramsPK := GetParamsPK cp in
  Z.of_nat (length paramsPK) < 2 ^ 32 ->
  (length (working_chain cp) < length paramsPK)%nat ->
  exists kp k' b a,
    KeyGenInternal cc makeSparse k = Ok (kp, k') /\
    GetPrivateElement (secretKey kp)
    = DropLastElements (length paramsPK - length (working_chain cp))
        (sampled g paramsPK EVALUATION (S k)) /\
    DCRTPoly_GetParams (GetPrivateElement (secretKey kp))
    = firstn (length (working_chain cp)) paramsPK /\
    GetNumOfElements (GetPrivateElement (secretKey kp)) = length (working_chain cp) /\
    GetPublicElements (publicKey kp) = [b; a] /\
    DCRTPoly_GetParams b = paramsPK /\
    DCRTPoly_GetParams a = paramsPK.
Proof.
  intros Hg cp paramsPK Hpk Hlt.
  pose proof (KeyGenInternal_supported cc makeSparse k g Hg) as Hk; cbv zeta in Hk.
  fold cp paramsPK in Hk.
  assert (Hsz : (usint (Z.of_nat (length paramsPK))
                 >? usint (Z.of_nat (length (working_chain cp)))) = true).
  { unfold usint; rewrite !Z.mod_small by lia; apply Z.gtb_lt; lia. }
  assert (Hd : Z.to_nat (usint (usint (Z.of_nat (length paramsPK))
                               - usint (Z.of_nat (length (working_chain cp)))))
               = (length paramsPK - length (working_chain cp))%nat).
  { unfold usint; rewrite (Z.mod_small (Z.of_nat (length paramsPK))) by lia.
    rewrite (Z.mod_small (Z.of_nat (length (working_chain cp)))) by lia.
    rewrite Z.mod_small by lia; lia. }
  rewrite Hsz, Hd in Hk.
  eexists; eexists; eexists; eexists.
  split; [exact Hk|]. cbn [secretKey publicKey GetPrivateElement GetPublicElements].
  split; [reflexivity|].
  split; [rewrite DropLastElements_params, sampled_params, sampled_length; f_equal; lia|].
  split; [|split; [reflexivity|split; [|apply sampled_params]]].
  - unfold GetNumOfElements, DropLastElements; cbn [m_vectors].
    rewrite length_firstn, sampled_length; lia.
  - rewrite binop_params, ScalarTimes_params; [apply sampled_params|].
    rewrite ScalarTimes_length, binop_length; now rewrite !sampled_length.
Qed.

(** ** Encryption *)

(** C5: for the same plaintext, the same scheme parameters (and key tag)
    and the same output of the external encryption of zero, the
    secret-key and the public-key entry points run the same steps and
    return the same ciphertext; so any key decrypts both alike. *)
Theorem Encrypt_priv_pub_agree (ptxt : DCRTPoly) (privateKey : PrivateKey)
    (publicKey : PublicKey) (k : nat) :
  sk_context privateKey = pk_context publicKey ->
  sk_keyTag privateKey = pk_keyTag publicKey ->
  EncryptZeroCore_priv privateKey
    (encryption_chain (GetCryptoParameters (sk_context privateKey)) ptxt) k
  = EncryptZeroCore_pub publicKey
      (encryption_chain (GetCryptoParameters (pk_context publicKey)) ptxt) k ->
  Encrypt_priv ptxt privateKey k = Encrypt_pub ptxt publicKey k /\
  forall ct1 k1 ct2 k2 key,
    Encrypt_priv ptxt privateKey k = Ok (ct1, k1) ->
    Encrypt_pub ptxt publicKey k = Ok (ct2, k2) ->
    Decrypt ct1 key = Decrypt ct2 key.
Proof.
  intros Hcc Htag Hzero.
  assert (Heq : Encrypt_priv ptxt privateKey k = Encrypt_pub ptxt publicKey k).
  { unfold Encrypt_priv, Encrypt_pub, bind.
    unfold encryption_chain in Hzero.
    rewrite Hzero, <- Hcc, <- Htag; reflexivity. }
  split; [exact Heq|].
  intros ct1 k1 ct2 k2 key H1 H2.
  rewrite Heq, H2 in H1; injection H1 as <- _; reflexivity.
Qed.

(** ** The randomisation block *)

Lemma set_index_app {A : Type} (done : list A) (x y : A) (rest : list A) :
  set_index (length done) x (done ++ y :: rest) = Ok (done ++ x :: rest).
Proof.
  induction done as [|d done IH]; simpl; [reflexivity|now rewrite IH].
Qed.

Lemma NoiseLoop_run (towers : ParmType) :
  forall (done rest : list NativePoly) (fmt : Format) (k : nat),
    length rest = length towers ->
    NoiseLoop towers (length done) {| m_format := fmt; m_vectors := done ++ rest |} k
    = Ok ({| m_format := fmt; m_vectors := done ++ noise_towers k towers |},
          (k + length towers)%nat).
Proof.
  induction towers as [|p towers IH]; intros done rest fmt k Hlen.
  - destruct rest; [|discriminate]. simpl. unfold ret. now rewrite Nat.add_0_r.
  - destruct rest as [|y rest]; [discriminate|].
    cbn [NoiseLoop]. unfold bind at 1. unfold GenerateVector.
    cbn [m_vectors m_format]. unfold bind at 1.
    rewrite set_index_app. unfold lift.
    replace (S (length done)) with (length (done ++ [{| np_params := p; np_format := COEFFICIENT;
                                                         np_values := drawn DGG k (ringDimension p) (modulus p) |}]))
      by (rewrite length_app; simpl; lia).
    replace (done ++ {| np_params := p; np_format := COEFFICIENT;
                        np_values := drawn DGG k (ringDimension p) (modulus p) |} :: rest)
      with ((done ++ [{| np_params := p; np_format := COEFFICIENT;
                         np_values := drawn DGG k (ringDimension p) (modulus p) |}]) ++ rest)
      by (rewrite <- app_assoc; reflexivity).
    rewrite IH by (simpl in Hlen; lia).
    rewrite <- app_assoc. simpl. unfold noise_towers. simpl.
    repeat f_equal; lia.
Qed.

Lemma SetFormat_params (fmt : Format) (p : DCRTPoly) :
  DCRTPoly_GetParams (SetFormat fmt p) = DCRTPoly_GetParams p.
Proof.
  unfold SetFormat, DCRTPoly_GetParams.
  destruct (Format_eqb (m_format p) fmt); [reflexivity|]. cbn [m_vectors].
  rewrite map_map. apply map_ext. intros v. unfold NativePoly_SetFormat.
  destruct (Format_eqb (np_format v) fmt); reflexivity.
Qed.

Lemma SetFormat_length (fmt : Format) (p : DCRTPoly) :
  length (m_vectors (SetFormat fmt p)) = length (m_vectors p).
Proof.
  unfold SetFormat. destruct (Format_eqb (m_format p) fmt); [reflexivity|].
  cbn [m_vectors]. apply length_map.
Qed.

Lemma SetFormat_format (fmt : Format) (p : DCRTPoly) : m_format (SetFormat fmt p) = fmt.
Proof.
  unfold SetFormat. destruct (Format_eqb (m_format p) fmt) eqn:E; [|reflexivity].
  now apply Format_eqb_eq.
Qed.

Lemma SetFormat_same (fmt : Format) (p : DCRTPoly) : m_format p = fmt -> SetFormat fmt p = p.
Proof. intros <-. unfold SetFormat. now rewrite Format_eqb_refl. Qed.

Lemma noise_towers_params (k : nat) (towers : ParmType) :
  map np_params (noise_towers k towers) = towers.
Proof.
  unfold noise_towers. rewrite map_map. cbn [np_params].
  rewrite <- (map_map fst (fun p => p)), map_id.
  generalize k. induction towers as [|p towers IH]; intros k'; simpl; [reflexivity|].
  now rewrite IH.
Qed.

(** C8: the randomisation block replaces the two components by
    [(c0 + r, c1 - r)] for one and the same noise polynomial [r], drawn
    tower by tower and converted to the transform domain, and leaves the
    rest of the ciphertext as it was: further components, level,
    noise-scale degree, key tag and context. *)
Theorem Randomize_frame (ct : Ciphertext) (c0 c1 : DCRTPoly) (rest : list DCRTPoly) (k : nat) :
  GetElements ct = c0 :: c1 :: rest ->
  m_format c0 = EVALUATION ->
  m_format c1 = EVALUATION ->
  GetNumOfElements c1 = GetNumOfElements c0 ->
  let r := noise_polynomial k (DCRTPoly_GetParams c0) in
  exists c0' c1' ct',
    Plus c0 r = Ok c0' /\
    Minus c1 r = Ok c1' /\
    Randomize ct k = Ok (ct', (k + GetNumOfElements c0)%nat) /\
    GetElements ct' = c0' :: c1' :: rest /\
    m_format r = EVALUATION /\
    DCRTPoly_GetParams r = DCRTPoly_GetParams c0 /\
    GetLevel ct' = GetLevel ct /\
    GetNoiseScaleDeg ct' = GetNoiseScaleDeg ct /\
    ct_keyTag ct' = ct_keyTag ct /\
    ct_context ct' = ct_context ct.
Proof.
  intros Hel Hf0 Hf1 Hn r.
  assert (Hrp : DCRTPoly_GetParams r = DCRTPoly_GetParams c0).
  { subst r; unfold noise_polynomial. rewrite SetFormat_params.
    unfold DCRTPoly_GetParams at 1; cbn [m_vectors]. apply noise_towers_params. }
  assert (Hrl : length (m_vectors r) = length (m_vectors c0)).
  { unfold DCRTPoly_GetParams in Hrp.
    rewrite <- (length_map np_params (m_vectors r)), Hrp. apply length_map. }
  assert (Hrf : m_format r = EVALUATION) by apply SetFormat_format.
  assert (H0 : Plus c0 r = Ok (DCRTPoly_binop Z.add c0 r)).
  { apply checked_binop_ok; [now rewrite Hrl|now rewrite Hrf]. }
  assert (H1 : Minus c1 r = Ok (DCRTPoly_binop Z.sub c1 r)).
  { apply checked_binop_ok; [|now rewrite Hrf].
    unfold GetNumOfElements in Hn. now rewrite Hrl. }
  exists (DCRTPoly_binop Z.add c0 r), (DCRTPoly_binop Z.sub c1 r).
  exists {| ct_context := ct_context ct; ct_keyTag := ct_keyTag ct;
            GetElements := DCRTPoly_binop Z.add c0 r :: DCRTPoly_binop Z.sub c1 r :: rest;
            GetNoiseScaleDeg := GetNoiseScaleDeg ct; GetLevel := GetLevel ct |}.
  split; [exact H0|split; [exact H1|]].
  split; [|split; [reflexivity|split; [exact Hrf|split; [exact Hrp|repeat split]]]].
  unfold Randomize. rewrite Hel. unfold bind at 1. cbn [at_index nth_error lift].
  unfold bind at 1. cbn [at_index nth_error lift].
  unfold bind at 1.
  pose proof (NoiseLoop_run (DCRTPoly_GetParams c0) [] (m_vectors (DCRTPoly_zero (DCRTPoly_GetParams c0) COEFFICIENT)) COEFFICIENT k) as Hloop.
  cbn [app length] in Hloop.
  unfold DCRTPoly_zero in Hloop |- *. cbn [m_vectors] in Hloop.
  rewrite Hloop by apply length_map.
  fold (noise_polynomial k (DCRTPoly_GetParams c0)). fold r.
  unfold bind at 1. rewrite H0. cbn [lift].
  unfold bind at 1. rewrite H1. cbn [lift].
  rewrite !SetFormat_same by (unfold DCRTPoly_binop; cbn [m_format]; assumption).
  unfold bind, lift, ret. cbn [set_index rbind].
  unfold DCRTPoly_GetParams, GetNumOfElements. rewrite length_map. reflexivity.
Qed.

(** ** The decryption identity of the randomised ciphertext *)

Lemma randomised_values (q : Z) (n : nat) :
  forall xs0 xs1 ss rs : list Z,
    length xs0 = n -> length xs1 = n -> length ss = n -> length rs = n ->
    map2 (fun x y => (x + y) mod q)
      (map2 (fun x y => (x + y) mod q) xs0 rs)
      (map2 (fun x y => (x * y) mod q) (map2 (fun x y => (x - y) mod q) xs1 rs) ss)
    = map2 (fun x y => (x + y) mod q)
        (map2 (fun x y => (x + y) mod q) xs0 (map2 (fun x y => (x * y) mod q) xs1 ss))
        (map2 (fun x y => (x * y) mod q) rs
           (map2 (fun x y => (x - y) mod q) (repeat 1 n) ss)).
Proof.
  induction n as [|n IH]; intros [|x0 xs0] [|x1 xs1] [|s ss] [|r rs];
    cbn [map2 repeat length]; try discriminate; try reflexivity.
  intros H0 H1 H2 H3. f_equal; [mod_ring q|apply IH; congruence].
Qed.

Lemma randomised_towers (params : ParmType) :
  forall C0 C1 S R : list NativePoly,
    map np_params C0 = params -> map np_params C1 = params ->
    map np_params S = params -> map np_params R = params ->
    Forall (fun v => length (np_values v) = ringDimension (np_params v)) C0 ->
    Forall (fun v => length (np_values v) = ringDimension (np_params v)) C1 ->
    Forall (fun v => length (np_values v) = ringDimension (np_params v)) S ->
    Forall (fun v => length (np_values v) = ringDimension (np_params v)) R ->
    map2 (NativePoly_binop Z.add)
      (map2 (NativePoly_binop Z.add) C0 R)
      (map2 (NativePoly_binop Z.mul) (map2 (NativePoly_binop Z.sub) C1 R) S)
    = map2 (NativePoly_binop Z.add)
        (map2 (NativePoly_binop Z.add) C0 (map2 (NativePoly_binop Z.mul) C1 S))
        (map2 (NativePoly_binop Z.mul) R
           (map2 (NativePoly_binop Z.sub) (m_vectors (DCRTPoly_one params)) S)).
Proof.
  induction params as [|p params IH]; intros [|c0 C0] [|c1 C1] [|s S] [|r R]; simpl;
    try discriminate; try reflexivity.
  intros H0 H1 H2 H3 F0 F1 F2 F3.
  injection H0 as Hp0 H0. injection H1 as Hp1 H1.
  injection H2 as Hp2 H2. injection H3 as Hp3 H3.
  inversion F0 as [|? ? L0 F0']; inversion F1 as [|? ? L1 F1'];
    inversion F2 as [|? ? L2 F2']; inversion F3 as [|? ? L3 F3']; subst.
  f_equal; [|now apply IH].
  unfold NativePoly_binop, GetModulus; cbn [np_params np_format np_values].
  f_equal. rewrite Hp1, Hp3.
  apply randomised_values; congruence.
Qed.

Lemma on_chain_length (params : ParmType) (fmt : Format) (p : DCRTPoly) :
  on_chain params fmt p -> length (m_vectors p) = length params.
Proof.
  intros (_ & Hp & _). rewrite <- Hp. unfold DCRTPoly_GetParams. now rewrite length_map.
Qed.

Lemma DCRTPoly_one_params (params : ParmType) :
  DCRTPoly_GetParams (DCRTPoly_one params) = params.
Proof.
  unfold DCRTPoly_GetParams, DCRTPoly_one; cbn [m_vectors].
  rewrite map_map; cbn [np_params]; apply map_id.
Qed.

Lemma DCRTPoly_one_length (params : ParmType) :
  length (m_vectors (DCRTPoly_one params)) = length params.
Proof. unfold DCRTPoly_one; cbn [m_vectors]; apply length_map. Qed.

Lemma cancelled_values (q : Z) (n : nat) :
  forall xs ys rs : list Z,
    length xs = n -> length ys = n -> length rs = n ->
    map2 (fun x y => (x + y) mod q)
      (map2 (fun x y => (x + y) mod q) xs ys)
      (map2 (fun x y => (x * y) mod q) rs
         (map2 (fun x y => (x - y) mod q) (repeat 1 n) (repeat 1 n)))
    = map2 (fun x y => (x + y) mod q) xs ys.
Proof.
  induction n as [|n IH]; intros [|x xs] [|y ys] [|r rs];
    cbn [map2 repeat length]; try discriminate; try reflexivity.
  intros H0 H1 H2. f_equal; [|apply IH; congruence].
  rewrite <- (Zmod_mod (x + y) q) at 2. mod_ring q.
Qed.

Lemma binop_values_length (f : Z -> Z -> Z) :
  forall A B : list NativePoly,
    map np_params A = map np_params B ->
    Forall (fun v => length (np_values v) = ringDimension (np_params v)) A ->
    Forall (fun v => length (np_values v) = ringDimension (np_params v)) B ->
    Forall (fun v => length (np_values v) = ringDimension (np_params v))
      (map2 (NativePoly_binop f) A B).
Proof.
  induction A as [|a A IH]; intros [|b B]; cbn [map map2]; try discriminate; try constructor.
  - unfold NativePoly_binop; cbn [np_values np_params].
    injection H as Hp _. inversion H0; inversion H1; subst.
    rewrite map2_length; congruence.
  - injection H as _ Hp. inversion H0; inversion H1; subst. now apply IH.
Qed.

Lemma cancelled_towers (params : ParmType) :
  forall C0 X R : list NativePoly,
    map np_params C0 = params -> map np_params X = params -> map np_params R = params ->
    Forall (fun v => length (np_values v) = ringDimension (np_params v)) C0 ->
    Forall (fun v => length (np_values v) = ringDimension (np_params v)) X ->
    Forall (fun v => length (np_values v) = ringDimension (np_params v)) R ->
    map2 (NativePoly_binop Z.add)
      (map2 (NativePoly_binop Z.add) C0 X)
      (map2 (NativePoly_binop Z.mul) R
         (map2 (NativePoly_binop Z.sub) (m_vectors (DCRTPoly_one params))
            (m_vectors (DCRTPoly_one params))))
    = map2 (NativePoly_binop Z.add) C0 X.
Proof.
  induction params as [|p params IH]; intros [|c0 C0] [|x X] [|r R]; cbn [map map2 DCRTPoly_one m_vectors];
    try discriminate; try reflexivity.
  intros H0 H1 H3 F0 F1 F3.
  injection H0 as Hp0 H0. injection H1 as Hp1 H1. injection H3 as Hp3 H3.
  inversion F0 as [|? ? L0 F0']; inversion F1 as [|? ? L1 F1'];
    inversion F3 as [|? ? L3 F3']; subst.
  f_equal; [|now apply IH].
  unfold NativePoly_binop, GetModulus; cbn [np_params np_format np_values].
  f_equal. rewrite Hp3.
  apply cancelled_values; congruence.
Qed.

(** On one chain in the transform domain the randomised pair decrypts to
    the old decryption plus [r * (1 - s)]:
    [(c0 + r) + (c1 - r) * s = (c0 + c1 * s) + r * (1 - s)]. *)
Lemma randomised_decryption (params : ParmType) (c0 c1 r : DCRTPoly)
    (privateKey : PrivateKey) :
  on_chain params EVALUATION c0 ->
  on_chain params EVALUATION c1 ->
  on_chain params EVALUATION r ->
  on_chain params EVALUATION (GetPrivateElement privateKey) ->
  let s := GetPrivateElement privateKey in
  let c0' := DCRTPoly_binop Z.add c0 r in
  let c1' := DCRTPoly_binop Z.sub c1 r in
  let b := DCRTPoly_binop Z.add c0 (DCRTPoly_binop Z.mul c1 s) in
  let one_minus_s := DCRTPoly_binop Z.sub (DCRTPoly_one params) s in
  let err := DCRTPoly_binop Z.mul r one_minus_s in
  let b' := DCRTPoly_binop Z.add b err in
  Plus c0 r = Ok c0' /\
  Minus c1 r = Ok c1' /\
  DecryptCore [c0; c1] privateKey = Ok b /\
  DecryptCore [c0'; c1'] privateKey = Ok b' /\
  Minus (DCRTPoly_one params) s = Ok one_minus_s /\
  Times r one_minus_s = Ok err /\
  Plus b err = Ok b' /\
  (s = DCRTPoly_one params -> b' = b).
Proof.
  intros H0 H1 Hr Hs s c0' c1' b one_minus_s err b'.
  subst c0' c1' b one_minus_s err b'.
  pose proof (on_chain_length _ _ _ H0) as L0.
  pose proof (on_chain_length _ _ _ H1) as L1.
  pose proof (on_chain_length _ _ _ Hr) as Lr.
  pose proof (on_chain_length _ _ _ Hs) as Ls.
  pose proof (DCRTPoly_one_length params) as Lo.
  destruct H0 as (F0 & P0 & V0), H1 as (F1 & P1 & V1), Hr as (Fr & Pr & Vr),
    Hs as (Fs & Ps & Vs).
  fold s in Ls, Fs, Ps, Vs.
  assert (Hcut : forall c, length (m_vectors c) = length params ->
                           DropLastElements (GetNumOfElements s - GetNumOfElements c) s = s).
  { intros c Lc. unfold GetNumOfElements. rewrite Ls, Lc, Nat.sub_diag.
    apply DropLastElements_0. }
  assert (Fo : m_format (DCRTPoly_one params) = EVALUATION) by reflexivity.
  assert (E1 : Plus c0 r = Ok (DCRTPoly_binop Z.add c0 r))
    by (apply checked_binop_ok; shape).
  assert (E2 : Minus c1 r = Ok (DCRTPoly_binop Z.sub c1 r))
    by (apply checked_binop_ok; shape).
  assert (E3 : DecryptCore [c0; c1] privateKey
               = Ok (DCRTPoly_binop Z.add c0 (DCRTPoly_binop Z.mul c1 s))).
  { unfold DecryptCore; cbn [at_index nth_error rbind]. fold s. rewrite (Hcut c1 L1).
    unfold Times, Plus. rewrite (checked_binop_ok Z.mul c1 s) by shape.
    cbn [rbind]. apply checked_binop_ok; shape. }
  assert (E4 : DecryptCore [DCRTPoly_binop Z.add c0 r; DCRTPoly_binop Z.sub c1 r] privateKey
               = Ok (DCRTPoly_binop Z.add (DCRTPoly_binop Z.add c0 r)
                       (DCRTPoly_binop Z.mul (DCRTPoly_binop Z.sub c1 r) s))).
  { unfold DecryptCore; cbn [at_index nth_error rbind]. fold s.
    rewrite (Hcut (DCRTPoly_binop Z.sub c1 r)) by shape.
    unfold Times, Plus.
    rewrite (checked_binop_ok Z.mul (DCRTPoly_binop Z.sub c1 r) s) by shape.
    cbn [rbind]. apply checked_binop_ok; shape. }
  assert (E5 : Minus (DCRTPoly_one params) s = Ok (DCRTPoly_binop Z.sub (DCRTPoly_one params) s))
    by (apply checked_binop_ok; shape).
  assert (E6 : Times r (DCRTPoly_binop Z.sub (DCRTPoly_one params) s)
               = Ok (DCRTPoly_binop Z.mul r (DCRTPoly_binop Z.sub (DCRTPoly_one params) s)))
    by (apply checked_binop_ok; shape).
  assert (E7 : DCRTPoly_binop Z.add (DCRTPoly_binop Z.add c0 (DCRTPoly_binop Z.mul c1 s))
                 (DCRTPoly_binop Z.mul r (DCRTPoly_binop Z.sub (DCRTPoly_one params) s))
               = DCRTPoly_binop Z.add (DCRTPoly_binop Z.add c0 r)
                   (DCRTPoly_binop Z.mul (DCRTPoly_binop Z.sub c1 r) s)).
  { unfold DCRTPoly_binop; cbn [m_format m_vectors]. f_equal.
    symmetry. apply randomised_towers; assumption. }
  split; [exact E1|]. split; [exact E2|]. split; [exact E3|].
  split; [rewrite E7; exact E4|]. split; [exact E5|]. split; [exact E6|].
  split.
  - apply checked_binop_ok; shape.
  - intros Hone. rewrite Hone.
    unfold DCRTPoly_binop; cbn [m_format m_vectors]. f_equal.
    apply cancelled_towers; try assumption.
    + rewrite <- P1 at 2.
      fold (DCRTPoly_GetParams (DCRTPoly_binop Z.mul c1 (DCRTPoly_one params))).
      apply binop_params. rewrite DCRTPoly_one_length. exact L1.
    + apply binop_values_length; [| assumption |].
      * fold (DCRTPoly_GetParams c1). rewrite P1.
        symmetry. apply DCRTPoly_one_params.
      * unfold DCRTPoly_one; cbn [m_vectors]. apply Forall_forall.
        intros v Hv. apply in_map_iff in Hv. destruct Hv as (q & <- & _).
        cbn [np_values np_params]. apply repeat_length.
Qed.

(** ** Decryption of a level-reduced ciphertext *)

Lemma DropLastElementAndScale_towers (tab1 tab2 : list Z) (p : DCRTPoly) (n : nat) :
  length (m_vectors p) = S n ->
  exists p', DropLastElementAndScale tab1 tab2 p = Ok p' /\
             DropLastElementAndScale [] [] p = Ok p' /\
             length (m_vectors p') = n.
Proof.
  intros Hl. unfold DropLastElementAndScale.
  destruct (rev (m_vectors p)) as [|last rest] eqn:Hrev.
  - apply (f_equal (@length _)) in Hrev. rewrite length_rev, Hl in Hrev. discriminate.
  - eexists; split; [reflexivity|split; [reflexivity|]].
    rewrite SetFormat_length. unfold DCRTPoly_ofPoly; cbn [m_vectors].
    rewrite length_map.
    assert (Hp : length (DCRTPoly_GetParams p) = S n)
      by (unfold DCRTPoly_GetParams; now rewrite length_map).
    destruct (DCRTPoly_GetParams p) as [|x xs] using rev_ind; [discriminate|].
    rewrite removelast_last. rewrite length_app in Hp. simpl in Hp. lia.
Qed.

Lemma DropAndScaleLoop_drop_until_one (cp : CryptoParametersBFVRNS) (diffQl : Z) (n : nat) :
  forall (l : Z) (b : DCRTPoly),
    length (m_vectors b) = S n ->
    exists b1 v,
      DropAndScaleLoop cp diffQl n l b = Ok b1 /\
      drop_until_one (S n) b = Ok b1 /\
      m_vectors b1 = [v].
Proof.
  induction n as [|n IH]; intros l b Hl.
  - destruct (m_vectors b) as [|v [|w vs]] eqn:Hv; try discriminate.
    exists b, v. cbn [DropAndScaleLoop drop_until_one]. unfold GetNumOfElements.
    rewrite Hv. repeat split.
  - destruct (DropLastElementAndScale_towers
                (GetQlQlInvModqlDivqlModq cp (size_t (diffQl + l)))
                (GetqlInvModq cp (size_t (diffQl + l))) b (S n) Hl) as (b' & H1 & H2 & Hl').
    destruct (IH (size_t (l + 1)) b' Hl') as (b1 & v & Hloop & Hdrop & Hone).
    exists b1, v. cbn [DropAndScaleLoop drop_until_one]. unfold GetNumOfElements.
    rewrite Hl, H1, H2. cbn [Nat.leb rbind]. repeat split; assumption.
Qed.

(** C7: a ciphertext with fewer towers than the full chain (and at least
    one) is decrypted on the reduced-precision path: the loop drops and
    rescales until exactly one tower remains, the polynomial goes to the
    coefficient domain, the remaining residues are multiplied by [t],
    round-divided by the remaining modulus and read modulo [t], with the
    root of unity set to one. *)
Theorem Decrypt_reduced_level (ciphertext : Ciphertext) (privateKey : PrivateKey)
    (b : DCRTPoly) :
  let cp := GetCryptoParameters (sk_context privateKey) in
  let t := GetPlaintextModulus cp in
  DecryptCore (GetElements ciphertext) privateKey = Ok b ->
  (0 < GetNumOfElements b < length (GetElementParams cp))%nat ->
  Z.of_nat (length (GetElementParams cp)) < 2 ^ 64 ->
  exists b1 v plaintext,
    drop_until_one (GetNumOfElements b) b = Ok b1 /\
    m_vectors b1 = [v] /\
    m_format (SetFormat COEFFICIENT b1) = COEFFICIENT /\
    reduced_precision_decode t b = Ok plaintext /\
    GetModulus plaintext = t /\
    rootOfUnity (np_params plaintext) = 1 /\
    Decrypt ciphertext privateKey
    = Ok (plaintext, {| isValid := true; messageLength := GetLength plaintext |}).
Proof.
  intros cp t Hb [Hpos Hlt] Hbound.
  unfold GetNumOfElements in *.
  destruct (length (m_vectors b)) as [|n] eqn:Hn; [lia|].
  destruct (DropAndScaleLoop_drop_until_one cp
              (size_t (size_t (Z.of_nat (length (GetElementParams cp)))
                       - size_t (Z.of_nat (S n)))) n 0 b Hn)
    as (b1 & v & Hloop & Hdrop & Hone).
  assert (Hone' : exists v', m_vectors (SetFormat COEFFICIENT b1) = [v']).
  { pose proof (SetFormat_length COEFFICIENT b1) as Hl. rewrite Hone in Hl.
    destruct (m_vectors (SetFormat COEFFICIENT b1)) as [|v' [|w vs]]; try discriminate.
    now exists v'. }
  destruct Hone' as (v' & Hv').
  exists b1, v. eexists.
  split; [exact Hdrop|split; [exact Hone|split; [apply SetFormat_format|]]].
  assert (Hdec : reduced_precision_decode t b
                 = Ok {| np_params := {| ringDimension := ringDimension (np_params v');
                                         modulus := t; rootOfUnity := 1 |};
                         np_format := np_format v';
                         np_values := map (fun x => round_div (x * t) (GetModulus v') mod t)
                                          (np_values v') |}).
  { unfold reduced_precision_decode, GetNumOfElements. rewrite Hn, Hdrop. cbn [rbind].
    now rewrite Hv'. }
  split; [exact Hdec|split; [reflexivity|split; [reflexivity|]]].
  unfold Decrypt. fold cp. rewrite Hb. cbn [rbind]. unfold GetNumOfElements. rewrite Hn.
  assert (Hsz : (size_t (Z.of_nat (S n)) =? size_t (Z.of_nat (length (GetElementParams cp))))
                = false).
  { unfold size_t. rewrite !Z.mod_small by lia. apply Z.eqb_neq. lia. }
  rewrite Hsz.
  assert (Hlev : Z.to_nat (size_t (size_t (Z.of_nat (S n)) - 1)) = n).
  { unfold size_t. rewrite (Z.mod_small (Z.of_nat (S n))) by lia.
    rewrite Z.mod_small by lia. lia. }
  rewrite Hlev, Hloop. cbn [rbind]. rewrite Hv'. cbn [at_index nth_error rbind].
  unfold SwitchModulus, MultiplyAndRound, GetLength; cbn [np_params np_format np_values].
  rewrite !map_map. reflexivity.
Qed.

(** ** Rounding, centring and Chinese remaindering *)

Lemma centered_spec (x q : Z) : 0 < q -> exists j, x = centered x q + j * q.
Proof.
  intros Hq. unfold centered. pose proof (Z.div_mod x q ltac:(lia)) as E.
  destruct (2 * (x mod q) <=? q).
  - exists (x / q). lia.
  - exists (x / q + 1). lia.
Qed.

Lemma round_div_shift (a b j : Z) : 0 < b -> round_div (a + j * b) b = round_div a b + j.
Proof.
  intros Hb. unfold round_div.
  replace (2 * (a + j * b) + b) with (2 * a + b + j * (2 * b)) by ring.
  apply Z.div_add; lia.
Qed.

Lemma round_div_small (w b : Z) : 0 < b -> - b <= 2 * w < b -> round_div w b = 0.
Proof.
  intros Hb Hw. unfold round_div. apply Z.div_small. lia.
Qed.

Lemma round_div_error (x d : Z) : 0 < d -> - d <= 2 * x - 2 * d * round_div x d < d.
Proof.
  intros Hd. unfold round_div.
  pose proof (Z.div_mod (2 * x + d) (2 * d) ltac:(lia)) as E.
  pose proof (Z.mod_pos_bound (2 * x + d) (2 * d) ltac:(lia)) as B.
  lia.
Qed.

(** Scaling by [t/Q] and rounding recovers [m] from [floor(Q/t) * m + v]
    when the noise [v] is within the margin. *)
Lemma scale_round_correct (t Q x m v j : Z) :
  0 < t -> 0 < Q -> 0 <= m < t ->
  x = (Q / t) * m + v + j * Q ->
  2 * (t * Z.abs v + (Q mod t) * m) < Q ->
  scale_round t Q x = m.
Proof.
  intros Ht HQ Hm Hx Hb. unfold scale_round.
  pose proof (Z.div_mod Q t ltac:(lia)) as HQt.
  pose proof (Z.mod_pos_bound Q t Ht) as Hr.
  replace (t * x) with ((t * v - (Q mod t) * m) + (m + j * t) * Q) by (subst x; nia).
  rewrite round_div_shift by assumption.
  rewrite round_div_small; [|assumption|nia].
  rewrite Z.add_0_l, Z.mod_add by lia. apply Z.mod_small; lia.
Qed.

Lemma product_pos_all (ds : list Z) : Forall (fun d => 0 < d) ds -> 0 < product ds.
Proof. induction 1; simpl; [lia|nia]. Qed.

(** The drops keep the integer within the allowance of [x / P], [P] being
    the product of the moduli dropped. *)
Lemma rescale_error (QL X : Z) (ds : list Z) :
  Forall (fun d => 0 < d) ds ->
  forall (q0 P x E2 j : Z),
    0 < q0 -> 0 < P ->
    P * (q0 * product ds) = QL ->
    2 * Z.abs (P * x - X - j * QL) <= E2 ->
    exists j',
      2 * Z.abs (P * product ds * rescale (q0 * product ds) ds x - X - j' * QL)
      <= E2 + rescale_allowance P ds.
Proof.
  induction 1 as [|d ds Hd Hds IH]; intros q0 P x E2 j Hq0 HP HQL Hx.
  - exists j. cbn [rescale rescale_allowance product fold_right].
    rewrite Z.mul_1_r, Z.add_0_r. exact Hx.
  - cbn [rescale rescale_allowance product fold_right]. fold (product ds).
    pose proof (product_pos_all ds Hds) as Hpd.
    assert (Hdiv : q0 * (d * product ds) / d = q0 * product ds).
    { replace (q0 * (d * product ds)) with (q0 * product ds * d) by ring.
      apply Z.div_mul; lia. }
    rewrite Hdiv.
    set (Qc' := q0 * product ds) in *.
    assert (HQc' : 0 < Qc') by (subst Qc'; nia).
    pose proof (Z.div_mod (round_div x d) Qc' ltac:(lia)) as Hmod.
    set (c := round_div x d / Qc') in *.
    set (x' := round_div x d mod Qc') in *.
    pose proof (round_div_error x d Hd) as Hrd.
    assert (HQLe : QL = P * d * Qc').
    { subst Qc'. cbn [product fold_right] in HQL. fold (product ds) in HQL.
      rewrite <- HQL. ring. }
    destruct (IH q0 (P * d) x' (E2 + P * d) (j - c) Hq0 ltac:(nia)) as (j' & Hj').
    + now rewrite HQLe.
    + replace (P * d * x' - X - (j - c) * QL)
        with ((P * x - X - j * QL) - P * (x - d * round_div x d))
        by (rewrite HQLe; replace (round_div x d) with (Qc' * c + x') by lia; ring).
      assert (HB : 2 * Z.abs (P * (x - d * round_div x d)) <= P * d).
      { rewrite Z.abs_mul, (Z.abs_eq P) by lia.
        assert (2 * Z.abs (x - d * round_div x d) <= d) by lia. nia. }
      generalize dependent (P * (x - d * round_div x d)).
      generalize dependent (P * x - X - j * QL). intros A HA B HB.
      generalize dependent (P * d). intros. clear - HA HB. lia.
    + exists j'. replace (P * (d * product ds)) with (P * d * product ds) by ring.
      rewrite Z.add_assoc. exact Hj'.
Qed.

(** After the drops, multiplying by [t], round-dividing by the remaining
    modulus and reducing modulo [t] recovers [m] when the noise and the
    rescale allowance are within the margin. *)
Lemma rescale_decode_correct (t q0 : Z) (ds : list Z) (x m v j : Z) :
  0 < t -> 0 < q0 -> Forall (fun d => 0 < d) ds -> 0 <= m < t ->
  let QL := q0 * product ds in
  x = (QL / t) * m + v + j * QL ->
  2 * (t * Z.abs v + (QL mod t) * m) + t * rescale_allowance 1 ds < QL ->
  round_div (rescale QL ds x * t) q0 mod t = m.
Proof.
  intros Ht Hq0 Hds Hm QL Hx Hb.
  pose proof (product_pos_all ds Hds) as Hpd.
  destruct (rescale_error QL x ds Hds q0 1 x 0 0 Hq0 ltac:(lia)) as (j' & Hj').
  - subst QL. ring.
  - replace (1 * x - x - 0 * QL) with 0 by ring. simpl. lia.
  - fold QL in Hj'. set (x1 := rescale QL ds x) in *.
    rewrite Z.mul_1_l, Z.add_0_l in Hj'.
    assert (HQL : 0 < QL) by (subst QL; nia).
    pose proof (Z.div_mod QL t ltac:(lia)) as HQt.
    pose proof (Z.mod_pos_bound QL t Ht) as Hr.
    assert (Hrd : round_div (x1 * t) q0 = round_div (product ds * (x1 * t)) QL).
    { unfold round_div, QL.
      replace (2 * (product ds * (x1 * t)) + q0 * product ds)
        with (product ds * (2 * (x1 * t) + q0)) by ring.
      replace (2 * (q0 * product ds)) with (product ds * (2 * q0)) by ring.
      symmetry. apply Z.div_mul_cancel_l; lia. }
    rewrite Hrd.
    set (delta := product ds * x1 - x - j' * QL) in *.
    replace (product ds * (x1 * t))
      with ((t * v - (QL mod t) * m + t * delta) + (m + (j + j') * t) * QL).
    2:{ assert (Hp : product ds * x1 = delta + x + j' * QL) by (subst delta; ring).
        assert (Htx : t * x = (QL - QL mod t) * m + t * v + j * t * QL).
        { rewrite Hx at 1. replace (QL - QL mod t) with (t * (QL / t)) by lia. ring. }
        replace (product ds * (x1 * t)) with (t * (product ds * x1)) by ring.
        rewrite Hp.
        replace (t * (delta + x + j' * QL)) with (t * delta + t * x + j' * t * QL) by ring.
        rewrite Htx. ring. }
    rewrite round_div_shift by assumption.
    rewrite round_div_small; [|assumption|].
    + rewrite Z.add_0_l, Z.mod_add by lia. apply Z.mod_small; lia.
    + assert (2 * Z.abs (t * delta) <= t * rescale_allowance 1 ds).
      { rewrite Z.abs_mul, (Z.abs_eq t) by lia. nia. }
      nia.
Qed.

Lemma product_pos (qs : list Z) : coprime_chain qs -> 0 < product qs.
Proof.
  induction qs as [|q qs IH]; simpl; [lia|]. intros (Hq & _ & Hc).
  specialize (IH Hc). nia.
Qed.

Lemma coprime_product (q : Z) (qs : list Z) :
  Forall (fun q' => Z.gcd q q' = 1) qs -> Z.coprime q (product qs).
Proof.
  induction 1 as [|q' qs Hq' _ IH]; simpl.
  - apply Z.gcd_1_r.
  - apply Z.coprime_mul_r; assumption.
Qed.

(** An integer is what [crt] rebuilds from its residues, up to the
    product of the moduli. *)
Lemma crt_complete (qs : list Z) :
  coprime_chain qs ->
  forall (rs : list Z) (y : Z),
    Forall2 (fun q r => y mod q = r mod q) qs rs ->
    crt qs rs = y mod product qs.
Proof.
  induction qs as [|q qs IH]; intros Hc rs y Hres.
  - inversion Hres; subst. simpl. now rewrite Z.mod_1_r.
  - destruct Hc as (Hq & Hco & Hc). inversion Hres as [|? r ? rs' Hr Hrest]; subst.
    pose proof (product_pos qs Hc) as HQ.
    cbn [crt product fold_right]. fold (product qs).
    symmetry. apply Z.combinecong_complete_coprime_nonneg_nonneg.
    + now apply coprime_product.
    + exact Hr.
    + rewrite (IH Hc rs' y Hrest). now rewrite Z.mod_mod by lia.
    + lia.
    + lia.
Qed.

Lemma crt_of_residues (qs : list Z) (y : Z) :
  coprime_chain qs -> crt qs (map (fun q => y mod q) qs) = y mod product qs.
Proof.
  intros Hc. apply crt_complete; [assumption|].
  clear Hc. induction qs as [|q qs IH]; constructor; [|assumption].
  symmetry; apply Zmod_mod.
Qed.

(** ** Shapes: chains and formats through encryption and decryption *)

Lemma TimesQovert_length (paramsQ : ParmType) (tab : list Z) (t a b : Z) (p : DCRTPoly) :
  length (m_vectors (TimesQovert paramsQ tab t a b p)) = length (m_vectors p).
Proof. unfold TimesQovert; cbn [m_vectors]; apply length_map. Qed.

Lemma DCRTPoly_ofPoly_params (xs : list Z) (params : ParmType) :
  DCRTPoly_GetParams (DCRTPoly_ofPoly xs params) = params.
Proof.
  unfold DCRTPoly_GetParams, DCRTPoly_ofPoly; cbn [m_vectors].
  rewrite map_map; cbn [np_params]; apply map_id.
Qed.

Lemma ScaleAndRoundPOverQ_params (paramsQ : ParmType) (tab : list Z) (p : DCRTPoly) :
  DCRTPoly_GetParams (ScaleAndRoundPOverQ paramsQ tab p) = paramsQ.
Proof.
  unfold DCRTPoly_GetParams, ScaleAndRoundPOverQ; cbn [m_vectors].
  rewrite map_map; cbn [np_params]; apply map_id.
Qed.

Lemma params_length (p : DCRTPoly) : length (DCRTPoly_GetParams p) = length (m_vectors p).
Proof. unfold DCRTPoly_GetParams; apply length_map. Qed.

Lemma Format_neq_eqb (a b : Format) : a <> b -> Format_eqb a b = false.
Proof. destruct a, b; simpl; congruence. Qed.

Lemma SetFormat_towers (fmt : Format) (p : DCRTPoly) :
  m_format p <> fmt -> towers_in_format (SetFormat fmt p).
Proof.
  intros Hne. unfold towers_in_format, SetFormat.
  rewrite (Format_neq_eqb _ _ Hne). cbn [m_format m_vectors].
  apply Forall_forall. intros v Hv. apply in_map_iff in Hv. destruct Hv as (w & <- & _).
  unfold NativePoly_SetFormat. destruct (Format_eqb (np_format w) fmt) eqn:E.
  - now apply Format_eqb_eq.
  - reflexivity.
Qed.

Lemma binop_towers (f : Z -> Z -> Z) (a b : DCRTPoly) :
  towers_in_format a -> towers_in_format (DCRTPoly_binop f a b).
Proof.
  unfold towers_in_format, DCRTPoly_binop. cbn [m_format m_vectors].
  generalize (m_format a). intros fmt.
  generalize (m_vectors b). induction (m_vectors a) as [|v vs IH]; intros [|w ws] H;
    cbn [map2]; try constructor.
  - inversion H as [|? ? Hv Hvs]. unfold NativePoly_binop; cbn [np_format]. exact Hv.
  - inversion H as [|? ? Hv Hvs]. now apply IH.
Qed.

(** Both entry points, given a zero encryption that keeps its contract,
    return two components in the transform domain on the ciphertext's
    chain. *)
Lemma Encrypt_priv_shape (ptxt : DCRTPoly) (privateKey : PrivateKey) (k : nat) :
  zero_encryption_at (EncryptZeroCore_priv privateKey) ->
  exists ct k' c0 c1,
    Encrypt_priv ptxt privateKey k = Ok (ct, k') /\
    GetElements ct = [c0; c1] /\
    m_format c0 = EVALUATION /\ m_format c1 = EVALUATION /\
    towers_in_format c0 /\
    DCRTPoly_GetParams c0 = ciphertext_chain (GetCryptoParameters (sk_context privateKey)) ptxt /\
    DCRTPoly_GetParams c1 = ciphertext_chain (GetCryptoParameters (sk_context privateKey)) ptxt.
Proof.
  intros Hzero. unfold Encrypt_priv, ciphertext_chain, bind.
  destruct (is_EXTENDED (GetEncryptionTechnique (GetCryptoParameters (sk_context privateKey)))).
  - destruct (Hzero (GetParamsQr (GetCryptoParameters (sk_context privateKey))) k)
      as (b & a & k' & Hz & Fb & Fa & Pb & Pa).
    rewrite Hz. cbn [lift at_index nth_error].
    unfold Plus. rewrite checked_binop_ok.
    + cbn [lift ret]. do 4 eexists. split; [reflexivity|]. cbn [GetElements].
      split; [reflexivity|].
      rewrite !SetFormat_format, !SetFormat_params, !ScaleAndRoundPOverQ_params.
      repeat split.
      apply SetFormat_towers. unfold ScaleAndRoundPOverQ; cbn [m_format].
      rewrite SetFormat_format. discriminate.
    + rewrite SetFormat_length, TimesQovert_length, SetFormat_length.
      rewrite <- !params_length, Pb, DCRTPoly_ofPoly_params. reflexivity.
    + now rewrite SetFormat_format.
  - destruct (Hzero (DCRTPoly_GetParams ptxt) k) as (b & a & k' & Hz & Fb & Fa & Pb & Pa).
    rewrite Hz. cbn [lift at_index nth_error].
    unfold Plus. rewrite checked_binop_ok.
    + cbn [lift ret]. do 4 eexists. split; [reflexivity|]. cbn [GetElements].
      split; [reflexivity|].
      rewrite !SetFormat_format, !SetFormat_params.
      rewrite binop_params.
      * repeat split; try assumption.
        apply SetFormat_towers. rewrite SetFormat_format. discriminate.
      * rewrite SetFormat_length, TimesQovert_length, SetFormat_length.
        rewrite <- !params_length, Pb. reflexivity.
    + rewrite SetFormat_length, TimesQovert_length, SetFormat_length.
      rewrite <- !params_length, Pb. reflexivity.
    + now rewrite SetFormat_format.
Qed.

Lemma Encrypt_pub_shape (ptxt : DCRTPoly) (publicKey : PublicKey) (k : nat) :
  zero_encryption_at (EncryptZeroCore_pub publicKey) ->
  exists ct k' c0 c1,
    Encrypt_pub ptxt publicKey k = Ok (ct, k') /\
    GetElements ct = [c0; c1] /\
    m_format c0 = EVALUATION /\ m_format c1 = EVALUATION /\
    towers_in_format c0 /\
    DCRTPoly_GetParams c0 = ciphertext_chain (GetCryptoParameters (pk_context publicKey)) ptxt /\
    DCRTPoly_GetParams c1 = ciphertext_chain (GetCryptoParameters (pk_context publicKey)) ptxt.
Proof.
  intros Hzero. unfold Encrypt_pub, ciphertext_chain, bind.
  destruct (is_EXTENDED (GetEncryptionTechnique (GetCryptoParameters (pk_context publicKey)))).
  - destruct (Hzero (GetParamsQr (GetCryptoParameters (pk_context publicKey))) k)
      as (b & a & k' & Hz & Fb & Fa & Pb & Pa).
    rewrite Hz. cbn [lift at_index nth_error].
    unfold Plus. rewrite checked_binop_ok.
    + cbn [lift ret]. do 4 eexists. split; [reflexivity|]. cbn [GetElements].
      split; [reflexivity|].
      rewrite !SetFormat_format, !SetFormat_params, !ScaleAndRoundPOverQ_params.
      repeat split.
      apply SetFormat_towers. unfold ScaleAndRoundPOverQ; cbn [m_format].
      rewrite SetFormat_format. discriminate.
    + rewrite SetFormat_length, TimesQovert_length, SetFormat_length.
      rewrite <- !params_length, Pb, DCRTPoly_ofPoly_params. reflexivity.
    + now rewrite SetFormat_format.
  - destruct (Hzero (DCRTPoly_GetParams ptxt) k) as (b & a & k' & Hz & Fb & Fa & Pb & Pa).
    rewrite Hz. cbn [lift at_index nth_error].
    unfold Plus. rewrite checked_binop_ok.
    + cbn [lift ret]. do 4 eexists. split; [reflexivity|]. cbn [GetElements].
      split; [reflexivity|].
      rewrite !SetFormat_format, !SetFormat_params.
      rewrite binop_params.
      * repeat split; try assumption.
        apply SetFormat_towers. rewrite SetFormat_format. discriminate.
      * rewrite SetFormat_length, TimesQovert_length, SetFormat_length.
        rewrite <- !params_length, Pb. reflexivity.
    + rewrite SetFormat_length, TimesQovert_length, SetFormat_length.
      rewrite <- !params_length, Pb. reflexivity.
    + now rewrite SetFormat_format.
Qed.

Lemma DropLastElements_length (k : nat) (a : DCRTPoly) :
  length (m_vectors (DropLastElements k a)) = (length (m_vectors a) - k)%nat.
Proof.
  unfold DropLastElements; cbn [m_vectors]. rewrite length_firstn. lia.
Qed.

(** [DecryptCore] on a two-component ciphertext, with a key that has at
    least the ciphertext's towers. *)
Lemma DecryptCore_shape (c0 c1 : DCRTPoly) (privateKey : PrivateKey) (chain : ParmType) :
  m_format c0 = EVALUATION -> m_format c1 = EVALUATION ->
  DCRTPoly_GetParams c0 = chain -> DCRTPoly_GetParams c1 = chain ->
  m_format (GetPrivateElement privateKey) = EVALUATION ->
  (length chain <= GetNumOfElements (GetPrivateElement privateKey))%nat ->
  towers_in_format c0 ->
  exists b,
    DecryptCore [c0; c1] privateKey = Ok b /\
    m_format b = EVALUATION /\
    towers_in_format b /\
    DCRTPoly_GetParams b = chain.
Proof.
  intros F0 F1 P0 P1 Fs Ls T0.
  set (s := DropLastElements (GetNumOfElements (GetPrivateElement privateKey)
                              - GetNumOfElements c1) (GetPrivateElement privateKey)).
  assert (L0 : length (m_vectors c0) = length chain) by (rewrite <- P0; symmetry; apply params_length).
  assert (L1 : length (m_vectors c1) = length chain) by (rewrite <- P1; symmetry; apply params_length).
  assert (Lcut : length (m_vectors s) = length chain).
  { subst s. rewrite DropLastElements_length. unfold GetNumOfElements in *. lia. }
  exists (DCRTPoly_binop Z.add c0 (DCRTPoly_binop Z.mul c1 s)).
  split; [|split; [exact F0|split; [now apply binop_towers|]]].
  - unfold DecryptCore. cbn [at_index nth_error rbind]. fold s.
    unfold Times, Plus. rewrite (checked_binop_ok Z.mul c1 s); [|lia|exact (eq_trans F1 (eq_sym Fs))].
    cbn [rbind]. apply checked_binop_ok; [rewrite binop_length; lia|].
    cbn [m_format DCRTPoly_binop]. congruence.
  - rewrite binop_params; [exact P0|]. rewrite binop_length; lia.
Qed.

Lemma truncated_length (w pk q : nat) :
  Z.of_nat w < 2 ^ 32 -> Z.of_nat pk < 2 ^ 32 -> (q <= pk)%nat -> (q <= w)%nat ->
  (q <= if usint (Z.of_nat pk) >? usint (Z.of_nat w)
        then pk - Z.to_nat (usint (usint (Z.of_nat pk) - usint (Z.of_nat w)))
        else pk)%nat.
Proof.
  intros Hw Hpk Hq1 Hq2. unfold usint.
  rewrite (Z.mod_small (Z.of_nat w)), (Z.mod_small (Z.of_nat pk)) by lia.
  destruct (Z.gtb_spec (Z.of_nat pk) (Z.of_nat w)); [|assumption].
  rewrite Z.mod_small by lia. lia.
Qed.

(** A key pair that key generation returned under valid parameters. *)
Lemma KeyGenInternal_keys (n : nat) (cc : CryptoContext) (makeSparse : bool) (k0 k1 : nat)
    (kp : KeyPair) :
  valid_parameters n (GetCryptoParameters cc) ->
  KeyGenInternal cc makeSparse k0 = Ok (kp, k1) ->
  sk_context (secretKey kp) = cc /\
  pk_context (publicKey kp) = cc /\
  m_format (GetPrivateElement (secretKey kp)) = EVALUATION /\
  (length (GetElementParams (GetCryptoParameters cc))
   <= GetNumOfElements (GetPrivateElement (secretKey kp)))%nat.
Proof.
  intros (Hch & Ht & HmQ & HQr & HPK & H32r & H32) Hk.
  destruct (secret_generator (GetSecretKeyDist (GetCryptoParameters cc))) as [g|] eqn:Hg.
  - pose proof (KeyGenInternal_supported cc makeSparse k0 g Hg) as Hk'. cbv zeta in Hk'.
    rewrite Hk' in Hk. injection Hk as <- _.
    cbn [secretKey publicKey sk_context pk_context GetPrivateElement].
    repeat split.
    + destruct (_ >? _); reflexivity.
    + assert (Hw : Z.of_nat (length (working_chain (GetCryptoParameters cc))) < 2 ^ 32
                   /\ (length (GetElementParams (GetCryptoParameters cc))
                       <= length (working_chain (GetCryptoParameters cc)))%nat).
      { unfold working_chain. destruct (is_EXTENDED _); split; lia. }
      destruct Hw as (Hw1 & Hw2).
      pose proof (truncated_length _ _ _ Hw1 H32 HPK Hw2) as Hlen.
      unfold GetNumOfElements.
      destruct (_ >? _).
      * rewrite DropLastElements_length, sampled_length. exact Hlen.
      * rewrite sampled_length. exact Hlen.
  - exfalso. destruct Hch as (Hne & _).
    unfold KeyGenInternal, bind, GenerateUniqueKeyID in Hk.
    destruct (GetSecretKeyDist (GetCryptoParameters cc)); try discriminate Hg.
    unfold ret, DCRTPoly_random, lift in Hk.
    rewrite Times_default_refused in Hk; [discriminate|].
    intros Hnil. rewrite Hnil in HPK.
    destruct (GetElementParams (GetCryptoParameters cc)); [contradiction|simpl in HPK; lia].
Qed.

Lemma moduli_params (p : DCRTPoly) : moduli p = map modulus (DCRTPoly_GetParams p).
Proof. unfold moduli, DCRTPoly_GetParams, GetModulus. now rewrite map_map. Qed.

Lemma GetRingDimension_params (p : DCRTPoly) :
  GetRingDimension p = match DCRTPoly_GetParams p with
                       | q :: _ => ringDimension q
                       | [] => O
                       end.
Proof. unfold GetRingDimension, DCRTPoly_GetParams. now destruct (m_vectors p). Qed.

Lemma SetFormat_moduli (fmt : Format) (p : DCRTPoly) : moduli (SetFormat fmt p) = moduli p.
Proof. now rewrite !moduli_params, SetFormat_params. Qed.

Lemma SetFormat_ringDimension (fmt : Format) (p : DCRTPoly) :
  GetRingDimension (SetFormat fmt p) = GetRingDimension p.
Proof. now rewrite !GetRingDimension_params, SetFormat_params. Qed.

Lemma CRTInterpolate_length (p : DCRTPoly) : length (CRTInterpolate p) = GetRingDimension p.
Proof. unfold CRTInterpolate. now rewrite length_map, length_seq. Qed.

(** ** Decoding *)

(** A decoder that is right on every coefficient within the margin
    recovers the whole plaintext. *)
Lemma decode_all (Q t : Z) (f : Z -> Z) (margin : Z -> Z -> Prop) :
  0 < Q ->
  (forall x mk v j, 0 <= mk < t -> x = Q / t * mk + v + j * Q -> margin v mk -> f x = mk) ->
  forall xs m : list Z,
    length xs = length m ->
    Forall (fun x => 0 <= x < t) m ->
    Forall2 margin (map2 (fun x mk => centered (x - Q / t * mk) Q) xs m) m ->
    map f xs = m.
Proof.
  intros HQ Hf. induction xs as [|x xs IH]; intros [|mk m] Hl Hm Hmargin;
    try discriminate; [reflexivity|].
  cbn [map2] in Hmargin. inversion Hmargin as [|? ? ? ? Hv Hrest]; subst.
  inversion Hm as [|? ? Hmk Hm']; subst.
  cbn [map]. f_equal.
  - destruct (centered_spec (x - Q / t * mk) Q HQ) as (j & Hj).
    apply (Hf x mk (centered (x - Q / t * mk) Q) j); [assumption|lia|assumption].
  - apply IH; [simpl in Hl; lia|assumption|assumption].
Qed.

(** The full-level branch of [Decrypt]: both techniques scale the
    integers behind the residues by [t/Q] and round. *)
Lemma Decrypt_full_level (ciphertext : Ciphertext) (privateKey : PrivateKey) (b : DCRTPoly) :
  let cp := GetCryptoParameters (sk_context privateKey) in
  DecryptCore (GetElements ciphertext) privateKey = Ok b ->
  length (m_vectors b) = length (GetElementParams cp) ->
  GetModuliQ cp = moduli b ->
  exists plaintext,
    Decrypt ciphertext privateKey
    = Ok (plaintext, {| isValid := true; messageLength := GetLength plaintext |}) /\
    np_values plaintext
    = map (scale_round (GetPlaintextModulus cp) (product (moduli b)))
          (CRTInterpolate (SetFormat COEFFICIENT b)) /\
    GetModulus plaintext = GetPlaintextModulus cp.
Proof.
  intros cp Hb Hl HmQ. unfold Decrypt. fold cp. rewrite Hb. cbn [rbind].
  unfold GetNumOfElements. rewrite Hl, Z.eqb_refl.
  destruct (GetMultiplicationTechnique cp); cbn [rbind]; eexists;
    (split; [reflexivity|split; [|reflexivity]]);
    unfold ScaleAndRound_direct, ScaleAndRound_gamma; cbn [np_values];
    rewrite ?SetFormat_moduli; try reflexivity.
  unfold CRTInterpolate. rewrite map_map, HmQ, SetFormat_moduli. reflexivity.
Qed.

(** ** The transform and the integers behind the residues *)

(** Converting a consistent transform-domain polynomial to coefficients
    applies the inverse transform to every tower. *)
Lemma SetFormat_COEFFICIENT_towers (p : DCRTPoly) :
  m_format p = EVALUATION -> towers_in_format p ->
  m_vectors (SetFormat COEFFICIENT p)
  = map (fun v => {| np_params := np_params v; np_format := COEFFICIENT;
                     np_values := intt (np_params v) (np_values v) |}) (m_vectors p).
Proof.
  intros Hf Ht. unfold SetFormat. rewrite Hf. cbn [Format_eqb m_vectors].
  unfold towers_in_format in Ht. rewrite Hf in Ht.
  induction Ht as [|v vs Hv _ IH]; [reflexivity|].
  cbn [map]. rewrite IH. f_equal.
  unfold NativePoly_SetFormat. now rewrite Hv.
Qed.

Lemma SetFormat_ofPoly (chain : ParmType) (xs : list Z) (primary : ParmType) :
  transform_correct primary ->
  incl chain primary ->
  Forall (fun p => ringDimension p = length xs /\ 0 < modulus p) chain ->
  SetFormat COEFFICIENT (SetFormat EVALUATION (DCRTPoly_ofPoly xs chain))
  = DCRTPoly_ofPoly xs chain.
Proof.
  intros Hntt Hincl Hch.
  unfold SetFormat at 2. cbn [m_format DCRTPoly_ofPoly Format_eqb m_vectors].
  unfold SetFormat. cbn [m_format Format_eqb m_vectors].
  unfold DCRTPoly_ofPoly. f_equal. rewrite !map_map.
  apply map_ext_in. intros p Hp.
  unfold NativePoly_SetFormat. cbn [np_format Format_eqb np_params np_values].
  f_equal.
  rewrite Forall_forall in Hch. destruct (Hch p Hp) as (Hn & Hq).
  apply (proj1 (Hntt p (Hincl p Hp))).
  - now rewrite length_map.
  - apply Forall_forall. intros x Hx. apply in_map_iff in Hx. destruct Hx as (y & <- & _).
    apply Z.mod_pos_bound. assumption.
Qed.

Lemma map_nth_seq {A : Type} (f : Z -> A) (xs : list Z) :
  map (fun k => f (nth k xs 0)) (seq 0 (length xs)) = map f xs.
Proof.
  induction xs as [|x xs IH]; [reflexivity|].
  cbn [length seq map nth]. f_equal.
  rewrite <- seq_shift, map_map. exact IH.
Qed.

(** The integers behind the residues of integers: the integers modulo
    the product of the chain. *)
Lemma CRTInterpolate_ofPoly (chain : ParmType) (xs : list Z) (p0 : ILNativeParams)
    (rest : ParmType) :
  chain = p0 :: rest ->
  coprime_chain (map modulus chain) ->
  ringDimension p0 = length xs ->
  CRTInterpolate (DCRTPoly_ofPoly xs chain)
  = map (fun x => x mod chain_product chain) xs.
Proof.
  intros Hc Hco Hn. unfold CRTInterpolate.
  rewrite GetRingDimension_params, DCRTPoly_ofPoly_params.
  rewrite moduli_params, DCRTPoly_ofPoly_params.
  rewrite Hc at 1. rewrite Hn.
  rewrite <- (map_nth_seq (fun x => x mod chain_product chain) xs).
  apply map_ext. intros k.
  unfold DCRTPoly_ofPoly; cbn [m_vectors]. rewrite map_map.
  unfold coeff, chain_product; cbn [np_values].
  rewrite <- (crt_of_residues (map modulus chain) (nth k xs 0) Hco).
  f_equal. rewrite map_map. apply map_ext. intros p.
  change 0 with ((fun x => x mod modulus p) 0) at 1.
  apply map_nth.
Qed.

Lemma product_app (l1 l2 : list Z) : product (l1 ++ l2) = product l1 * product l2.
Proof.
  induction l1 as [|x l1 IH]; cbn [app product fold_right].
  - fold (product l2). ring.
  - fold (product (l1 ++ l2)) (product l1). rewrite IH. ring.
Qed.

Lemma coprime_chain_app_l (l1 l2 : list Z) : coprime_chain (l1 ++ l2) -> coprime_chain l1.
Proof.
  induction l1 as [|x l1 IH]; cbn [app coprime_chain]; [trivial|].
  intros (Hx & Hco & Hc). split; [assumption|split; [|now apply IH]].
  apply Forall_app in Hco. apply Hco.
Qed.

Lemma coprime_chain_above_one (qs : list Z) : coprime_chain qs -> Forall (fun q => 1 < q) qs.
Proof.
  induction qs as [|q qs IH]; cbn [coprime_chain]; [constructor|].
  intros (Hq & _ & Hc). constructor; [assumption|now apply IH].
Qed.

(** One round of the loop: the last tower goes and the integers are
    divided by its modulus, rounded. *)
Lemma DropLastElementAndScale_value (tab1 tab2 : list Z) (b : DCRTPoly) (chain : ParmType)
    (last : ILNativeParams) :
  m_format b = EVALUATION ->
  DCRTPoly_GetParams b = chain ++ [last] ->
  DropLastElementAndScale tab1 tab2 b
  = Ok (SetFormat EVALUATION
          (DCRTPoly_ofPoly (map (fun x => round_div x (modulus last))
                                (CRTInterpolate (SetFormat COEFFICIENT b))) chain)).
Proof.
  intros Hf Hp. unfold DropLastElementAndScale. rewrite Hp, removelast_last, Hf.
  unfold DCRTPoly_GetParams in Hp. apply map_eq_app in Hp.
  destruct Hp as (vs & ws & Hv & _ & Hw).
  destruct ws as [|w [|w' ws]]; try discriminate Hw. injection Hw as Hw.
  rewrite Hv, rev_app_distr. cbn [rev app]. unfold GetModulus. now rewrite Hw.
Qed.

(** The loop of [Decrypt], on the integers behind the residues: what is
    left in the one remaining tower is the rescaled integer. *)
Lemma DropAndScaleLoop_values (nn : nat) (primary : ParmType) (cp : CryptoParametersBFVRNS)
    (diffQl : Z) (p0 : ILNativeParams) (n : nat) :
  transform_correct primary ->
  forall (rest : ParmType) (l : Z) (b : DCRTPoly),
    length rest = n ->
    incl (p0 :: rest) primary ->
    coprime_chain (map modulus (p0 :: rest)) ->
    Forall (fun p => ringDimension p = nn) (p0 :: rest) ->
    m_format b = EVALUATION -> towers_in_format b ->
    DCRTPoly_GetParams b = p0 :: rest ->
    exists b1 v,
      DropAndScaleLoop cp diffQl n l b = Ok b1 /\
      m_vectors (SetFormat COEFFICIENT b1) = [v] /\
      np_params v = p0 /\
      np_values v
      = map (rescale (chain_product (p0 :: rest)) (rev (map modulus rest)))
            (CRTInterpolate (SetFormat COEFFICIENT b)).
Proof.
  intros Hntt. induction n as [|n IH]; intros rest l b Hlen Hincl Hco Hdim Hf Ht Hp.
  - destruct rest; [|discriminate]. exists b. cbn [DropAndScaleLoop].
    pose proof (SetFormat_COEFFICIENT_towers b Hf Ht) as Htow.
    unfold DCRTPoly_GetParams in Hp.
    destruct (m_vectors b) as [|v0 [|v1 vs]] eqn:Hv; try discriminate Hp.
    injection Hp as Hp0. cbn [map] in Htow.
    eexists. split; [reflexivity|split; [exact Htow|split; [exact Hp0|]]].
    cbn [np_values map rev rescale]. rewrite Hp0.
    destruct (proj2 (Hntt p0 (Hincl p0 (or_introl eq_refl))) (np_values v0)) as (Hl & Hred).
    unfold CRTInterpolate. rewrite Htow. cbn [map].
    rewrite SetFormat_ringDimension, GetRingDimension_params.
    unfold DCRTPoly_GetParams. rewrite Hv. cbn [map]. rewrite Hp0, <- Hl.
    rewrite SetFormat_moduli. unfold moduli. rewrite Hv. cbn [map]. unfold GetModulus.
    rewrite Hp0. unfold coeff. cbn [np_values].
    rewrite (map_nth_seq (fun x => crt [modulus p0] [x])), map_map.
    rewrite <- (map_id (intt p0 (np_values v0))) at 1.
    apply map_ext_in. intros x Hx. rewrite Forall_forall in Hred. cbn [rescale].
    rewrite (crt_complete [modulus p0] Hco [x] x) by (repeat constructor).
    cbn [product fold_right]. rewrite Z.mul_1_r. symmetry. apply Z.mod_small. now apply Hred.
  - destruct rest as [|r rest0] using rev_ind; [discriminate|]. clear IHrest0.
    rename rest0 into rest'. rename r into last.
    rewrite length_app in Hlen. cbn [length] in Hlen.
    assert (Hlen' : length rest' = n) by lia.
    cbn [DropAndScaleLoop].
    rewrite (DropLastElementAndScale_value _ _ b (p0 :: rest') last Hf Hp).
    cbn [rbind].
    set (xs := map (fun x => round_div x (modulus last))
                   (CRTInterpolate (SetFormat COEFFICIENT b))).
    set (b' := SetFormat EVALUATION (DCRTPoly_ofPoly xs (p0 :: rest'))).
    assert (Hco' : coprime_chain (map modulus (p0 :: rest'))).
    { change (p0 :: rest' ++ [last]) with ((p0 :: rest') ++ [last]) in Hco.
      rewrite map_app in Hco. now apply coprime_chain_app_l in Hco. }
    assert (Hdim' : Forall (fun p => ringDimension p = nn) (p0 :: rest')).
    { change (p0 :: rest' ++ [last]) with ((p0 :: rest') ++ [last]) in Hdim.
      apply Forall_app in Hdim. apply Hdim. }
    assert (Hincl' : incl (p0 :: rest') primary).
    { intros p Hin. apply Hincl. change (p0 :: rest' ++ [last]) with ((p0 :: rest') ++ [last]).
      apply in_or_app. now left. }
    assert (Hxs : length xs = nn).
    { subst xs. rewrite length_map, CRTInterpolate_length, SetFormat_ringDimension.
      rewrite GetRingDimension_params, Hp. inversion Hdim; assumption. }
    destruct (IH rest' (size_t (l + 1)) b' Hlen' Hincl' Hco' Hdim') as (b1 & v & Hloop & Hv & Hpv & Hval).
    + subst b'. apply SetFormat_format.
    + subst b'. apply SetFormat_towers. discriminate.
    + subst b'. rewrite SetFormat_params. apply DCRTPoly_ofPoly_params.
    + exists b1, v. split; [exact Hloop|split; [exact Hv|split; [exact Hpv|]]].
      rewrite Hval. subst b'.
      rewrite (SetFormat_ofPoly (p0 :: rest') xs primary Hntt Hincl').
      2:{ apply Forall_forall. intros p Hin. rewrite Forall_forall in Hdim'.
          split; [rewrite Hxs; now apply Hdim'|].
          pose proof (coprime_chain_above_one _ Hco') as Habove.
          rewrite Forall_forall in Habove.
          specialize (Habove (modulus p) (in_map modulus _ _ Hin)). lia. }
      rewrite (CRTInterpolate_ofPoly (p0 :: rest') xs p0 rest' eq_refl Hco')
        by (rewrite Hxs; inversion Hdim'; assumption).
      subst xs. rewrite !map_map. apply map_ext. intros x.
      rewrite map_app, rev_app_distr. cbn [map rev app rescale].
      assert (Hq : chain_product (p0 :: rest' ++ [last]) / modulus last
                   = chain_product (p0 :: rest')).
      { unfold chain_product. change (p0 :: rest' ++ [last]) with ((p0 :: rest') ++ [last]).
        rewrite map_app, product_app. cbn [map product fold_right]. rewrite Z.mul_1_r.
        apply Z.div_mul.
        pose proof (coprime_chain_above_one _ Hco) as Habove.
        rewrite Forall_forall in Habove.
        assert (In (modulus last) (map modulus (p0 :: rest' ++ [last]))).
        { apply in_map. right. apply in_or_app. right. now left. }
        specialize (Habove _ H). lia. }
      rewrite Hq. reflexivity.
Qed.

Lemma product_rev (l : list Z) : product (rev l) = product l.
Proof.
  induction l as [|x l IH]; [reflexivity|].
  cbn [rev]. rewrite product_app, IH. cbn [product fold_right]. fold (product l). ring.
Qed.

(** The reduced-level branch of [Decrypt], on the integers behind the
    residues. *)
Lemma Decrypt_reduced_values (nn : nat) (ciphertext : Ciphertext) (privateKey : PrivateKey)
    (b : DCRTPoly) (p0 : ILNativeParams) (rest : ParmType) :
  let cp := GetCryptoParameters (sk_context privateKey) in
  let t := GetPlaintextModulus cp in
  transform_correct (GetElementParams cp) ->
  DecryptCore (GetElements ciphertext) privateKey = Ok b ->
  m_format b = EVALUATION -> towers_in_format b ->
  DCRTPoly_GetParams b = p0 :: rest ->
  incl (p0 :: rest) (GetElementParams cp) ->
  coprime_chain (map modulus (p0 :: rest)) ->
  Forall (fun p => ringDimension p = nn) (p0 :: rest) ->
  (length (p0 :: rest) < length (GetElementParams cp))%nat ->
  Z.of_nat (length (GetElementParams cp)) < 2 ^ 64 ->
  exists plaintext,
    Decrypt ciphertext privateKey
    = Ok (plaintext, {| isValid := true; messageLength := GetLength plaintext |}) /\
    np_values plaintext
    = map (fun x => round_div (rescale (chain_product (p0 :: rest)) (rev (map modulus rest)) x * t)
                      (modulus p0) mod t)
          (CRTInterpolate (SetFormat COEFFICIENT b)) /\
    GetModulus plaintext = t.
Proof.
  intros cp t Hntt Hb Hf Ht Hp Hincl Hco Hdim Hlt Hbound.
  assert (Hn : length (m_vectors b) = S (length rest)).
  { rewrite <- params_length, Hp. reflexivity. }
  destruct (DropAndScaleLoop_values nn (GetElementParams cp) cp
              (size_t (size_t (Z.of_nat (length (GetElementParams cp)))
                       - size_t (Z.of_nat (S (length rest)))))
              p0 (length rest) Hntt rest 0 b eq_refl Hincl Hco Hdim Hf Ht Hp)
    as (b1 & v & Hloop & Hv & Hpv & Hval).
  cbn [length] in Hlt.
  eexists. split; [|split].
  - unfold Decrypt. fold cp. rewrite Hb. cbn [rbind]. unfold GetNumOfElements. rewrite Hn.
    assert (Hsz : (size_t (Z.of_nat (S (length rest)))
                   =? size_t (Z.of_nat (length (GetElementParams cp)))) = false).
    { unfold size_t. rewrite !Z.mod_small by lia. apply Z.eqb_neq. lia. }
    rewrite Hsz.
    assert (Hlev : Z.to_nat (size_t (size_t (Z.of_nat (S (length rest))) - 1)) = length rest).
    { unfold size_t. rewrite (Z.mod_small (Z.of_nat (S (length rest)))) by lia.
      rewrite Z.mod_small by lia. lia. }
    rewrite Hlev, Hloop. cbn [rbind]. rewrite Hv. cbn [at_index nth_error rbind].
    reflexivity.
  - unfold SwitchModulus, MultiplyAndRound, GetModulus; cbn [np_params np_format np_values].
    rewrite Hval, Hpv, !map_map. reflexivity.
  - reflexivity.
Qed.

Lemma firstn_chain (nn : nat) (primary : ParmType) (j : nat) :
  valid_chain nn primary -> (0 < j <= length primary)%nat ->
  exists p0 rest,
    firstn j primary = p0 :: rest /\
    incl (p0 :: rest) primary /\
    coprime_chain (map modulus (p0 :: rest)) /\
    Forall (fun p => ringDimension p = nn) (p0 :: rest) /\
    length (p0 :: rest) = j.
Proof.
  intros (Hne & Hco & Hdim) Hj.
  destruct (firstn j primary) as [|p0 rest] eqn:Hfirst.
  - apply (f_equal (@length _)) in Hfirst. rewrite length_firstn in Hfirst. simpl in Hfirst. lia.
  - exists p0, rest. rewrite <- Hfirst.
    pose proof (firstn_skipn j primary) as Hsplit.
    split; [reflexivity|split; [|split; [|split]]].
    + intros p Hp. rewrite <- Hsplit. apply in_or_app. now left.
    + rewrite <- Hsplit, map_app in Hco. now apply coprime_chain_app_l in Hco.
    + rewrite <- Hsplit in Hdim. apply Forall_app in Hdim. apply Hdim.
    + rewrite length_firstn. lia.
Qed.

(** Decryption of a two-component ciphertext on a leading part of the
    primary chain: the noise is defined, and within the margin the
    plaintext comes back. *)
Lemma Decrypt_within_margin (nn : nat) (ciphertext : Ciphertext) (privateKey : PrivateKey)
    (c0 c1 : DCRTPoly) (j : nat) (m : list Z) :
  let cp := GetCryptoParameters (sk_context privateKey) in
  let t := GetPlaintextModulus cp in
  valid_parameters nn cp ->
  transform_correct (GetElementParams cp) ->
  GetElements ciphertext = [c0; c1] ->
  m_format c0 = EVALUATION -> m_format c1 = EVALUATION -> towers_in_format c0 ->
  DCRTPoly_GetParams c0 = firstn j (GetElementParams cp) ->
  DCRTPoly_GetParams c1 = firstn j (GetElementParams cp) ->
  (0 < j <= length (GetElementParams cp))%nat ->
  m_format (GetPrivateElement privateKey) = EVALUATION ->
  (length (GetElementParams cp) <= GetNumOfElements (GetPrivateElement privateKey))%nat ->
  length m = nn ->
  Forall (fun x => 0 <= x < t) m ->
  exists b vs,
    DecryptCore (GetElements ciphertext) privateKey = Ok b /\
    noise ciphertext privateKey t m = Ok vs /\
    (Forall2 (within_margin cp (moduli b)) vs m ->
     exists plaintext,
       Decrypt ciphertext privateKey
       = Ok (plaintext, {| isValid := true; messageLength := nn |}) /\
       np_values plaintext = m /\
       GetModulus plaintext = t).
Proof.
  intros cp t Hvalid Hntt Hel F0 F1 T0 P0 P1 Hj Fs Ls Hm Hrange.
  pose proof Hvalid as (Hch & Ht & HmQ & HQr & HPK & H32r & H32).
  destruct (firstn_chain nn (GetElementParams cp) j Hch Hj)
    as (p0 & rest & Hfirst & Hincl & Hco & Hdim & Hlen).
  rewrite Hfirst in P0, P1.
  destruct (DecryptCore_shape c0 c1 privateKey (p0 :: rest) F0 F1 P0 P1 Fs) as (b & Hb & Fb & Tb & Pb).
  { rewrite Hlen. fold cp in Ls. lia. }
  { exact T0. }
  rewrite <- Hel in Hb.
  exists b. eexists. split; [exact Hb|split].
  { unfold noise. rewrite Hb. reflexivity. }
  assert (Hmod : moduli b = map modulus (p0 :: rest)) by (rewrite moduli_params, Pb; reflexivity).
  assert (HQpos : 0 < product (moduli b)) by (rewrite Hmod; now apply product_pos).
  assert (Hxs : length (CRTInterpolate (SetFormat COEFFICIENT b)) = length m).
  { rewrite CRTInterpolate_length, SetFormat_ringDimension, GetRingDimension_params, Pb, Hm.
    inversion Hdim; assumption. }
  intros Hmargin.
  destruct (Nat.eq_dec j (length (GetElementParams cp))) as [Hfull|Hreduced].
  - (* the ciphertext has all the towers *)
    assert (Hall : p0 :: rest = GetElementParams cp).
    { rewrite <- Hfirst, Hfull. apply firstn_all. }
    destruct (Decrypt_full_level ciphertext privateKey b Hb) as (pt & Hdec & Hval & Hpt).
    { rewrite <- params_length, Pb. fold cp. now rewrite Hall. }
    { fold cp. rewrite HmQ, Hmod. now rewrite Hall. }
    fold cp in Hval, Hpt.
    assert (Hvalues : np_values pt = m).
    { rewrite Hval.
      apply (decode_all (product (moduli b)) t _ (within_margin cp (moduli b)) HQpos);
        [|exact Hxs|exact Hrange|exact Hmargin].
      intros x mk v i Hmk Hx Hw. unfold within_margin, decode_allowance in Hw.
      assert (Hl : length (moduli b) = length (GetElementParams cp)).
      { rewrite Hmod, length_map. now rewrite Hall. }
      rewrite Hl, Nat.eqb_refl in Hw.
      apply (scale_round_correct _ _ x mk v i); try assumption; lia. }
    exists pt. split; [|split; [exact Hvalues|exact Hpt]].
    rewrite Hdec. unfold GetLength. rewrite Hvalues, Hm. reflexivity.
  - (* some towers are gone *)
    destruct (Decrypt_reduced_values nn ciphertext privateKey b p0 rest Hntt Hb Fb Tb Pb)
      as (pt & Hdec & Hval & Hpt); try assumption.
    { fold cp. lia. }
    { fold cp. lia. }
    fold cp t in Hval, Hpt.
    assert (Hvalues : np_values pt = m).
    { rewrite Hval.
      apply (decode_all (product (moduli b)) t _ (within_margin cp (moduli b)) HQpos);
        [|exact Hxs|exact Hrange|exact Hmargin].
      intros x mk v i Hmk Hx Hw. unfold within_margin, decode_allowance in Hw.
      assert (Hl : (length (moduli b) =? length (GetElementParams cp))%nat = false).
      { apply Nat.eqb_neq. rewrite Hmod, length_map. lia. }
      rewrite Hl in Hw. rewrite Hmod in Hw, Hx. cbn [map tl] in Hw.
      pose proof (coprime_chain_above_one _ Hco) as Habove. cbn [map] in Habove.
      pose proof (Forall_inv Habove) as Hq0. pose proof (Forall_inv_tail Habove) as Hrestq.
      cbv beta in Hq0.
      assert (Hprod : product (modulus p0 :: map modulus rest)
                      = modulus p0 * product (rev (map modulus rest))).
      { cbn [product fold_right]. now rewrite product_rev. }
      unfold chain_product. cbn [map] in Hx |- *.
      rewrite Hprod in Hw, Hx |- *.
      apply (rescale_decode_correct t (modulus p0) (rev (map modulus rest)) x mk v i);
        try assumption; try lia.
      apply Forall_rev. eapply Forall_impl; [|exact Hrestq]. cbv beta. intros; lia. }
    exists pt. split; [|split; [exact Hvalues|exact Hpt]].
    rewrite Hdec. unfold GetLength. rewrite Hvalues, Hm. reflexivity.
Qed.

(** C1, as amended: for valid parameters, a key pair that key generation
    returned and a plaintext [m] with coefficients in [[0, t)], either
    entry point returns a ciphertext, and decrypting it returns [m]
    exactly whenever every coefficient's accumulated noise [v] is within
    the decoding margin
    [2 * (t * |v| + (Q mod t) * m_k) + t * allowance < Q],
    [Q] being the product of the ciphertext's moduli and the allowance
    the rounding of the rescale rounds of a level-reduced ciphertext
    (none at full level). *)
Theorem Decrypt_Encrypt_within_margin (n : nat) (cc : CryptoContext) (makeSparse : bool)
    (k0 k1 k : nat) (kp : KeyPair) (m : list Z) (sizeP : nat) (fmt : Format)
    (enc : M Ciphertext) :
  let cp := GetCryptoParameters cc in
  let t := GetPlaintextModulus cp in
  let ptxt := SetFormat fmt (plaintext_on m (firstn sizeP (GetElementParams cp))) in
  valid_parameters n cp ->
  transform_correct (GetElementParams cp) ->
  (forall sk, zero_encryption_at (EncryptZeroCore_priv sk)) ->
  (forall pk, zero_encryption_at (EncryptZeroCore_pub pk)) ->
  KeyGenInternal cc makeSparse k0 = Ok (kp, k1) ->
  (0 < sizeP <= length (GetElementParams cp))%nat ->
  length m = n ->
  Forall (fun x => 0 <= x < t) m ->
  enc = Encrypt_priv ptxt (secretKey kp) \/ enc = Encrypt_pub ptxt (publicKey kp) ->
  exists ct k' b vs,
    enc k = Ok (ct, k') /\
    DecryptCore (GetElements ct) (secretKey kp) = Ok b /\
    noise ct (secretKey kp) t m = Ok vs /\
    (Forall2 (within_margin cp (moduli b)) vs m ->
     exists plaintext,
       Decrypt ct (secretKey kp) = Ok (plaintext, {| isValid := true; messageLength := n |}) /\
       np_values plaintext = m /\
       GetModulus plaintext = t).
Proof.
  intros cp t ptxt Hvalid Hntt Hpriv Hpub Hkey HsizeP Hm Hrange Henc.
  destruct (KeyGenInternal_keys n cc makeSparse k0 k1 kp Hvalid Hkey) as (Hsk & Hpk & Fs & Ls).
  fold cp in Ls.
  assert (Hptxt : DCRTPoly_GetParams ptxt = firstn sizeP (GetElementParams cp)).
  { subst ptxt. rewrite SetFormat_params. apply DCRTPoly_ofPoly_params. }
  set (j := if is_EXTENDED (GetEncryptionTechnique cp) then length (GetElementParams cp)
            else sizeP).
  assert (Hchain : ciphertext_chain cp ptxt = firstn j (GetElementParams cp)).
  { unfold ciphertext_chain, j. destruct (is_EXTENDED _); [now rewrite firstn_all|exact Hptxt]. }
  assert (Hj : (0 < j <= length (GetElementParams cp))%nat).
  { unfold j. destruct (is_EXTENDED _); lia. }
  assert (Hshape : exists ct k' c0 c1,
             enc k = Ok (ct, k') /\ GetElements ct = [c0; c1] /\
             m_format c0 = EVALUATION /\ m_format c1 = EVALUATION /\
             towers_in_format c0 /\
             DCRTPoly_GetParams c0 = firstn j (GetElementParams cp) /\
             DCRTPoly_GetParams c1 = firstn j (GetElementParams cp)).
  { destruct Henc as [-> | ->].
    - pose proof (Encrypt_priv_shape ptxt (secretKey kp) k (Hpriv _)) as Hs.
      rewrite Hsk in Hs. fold cp in Hs. rewrite Hchain in Hs. exact Hs.
    - pose proof (Encrypt_pub_shape ptxt (publicKey kp) k (Hpub _)) as Hs.
      rewrite Hpk in Hs. fold cp in Hs. rewrite Hchain in Hs. exact Hs. }
  destruct Hshape as (ct & k' & c0 & c1 & Hrun & Hel & F0 & F1 & T0 & P0 & P1).
  destruct (Decrypt_within_margin n ct (secretKey kp) c0 c1 j m) as (b & vs & Hb & Hnoise & Hdec);
    rewrite ?Hsk; fold cp; try assumption.
  exists ct, k', b, vs. rewrite Hsk in Hnoise, Hdec. fold cp t in Hnoise, Hdec.
  repeat split; assumption.
Qed.

(** ** Further properties of the three operations *)

(** X1: with one of the three supported secret-key distributions key
    generation does not fail: at any draw counter it returns a key pair
    after four draws (the key tag, [s], [a] and [e]); both keys carry the
    context and the same key tag, the public key has two components, and
    the flag [makeSparse] changes nothing. *)
Theorem KeyGenInternal_infallible (cc : CryptoContext) (makeSparse : bool) (k : nat) :
  GetSecretKeyDist (GetCryptoParameters cc) = GAUSSIAN \/
  GetSecretKeyDist (GetCryptoParameters cc) = UNIFORM_TERNARY \/
  GetSecretKeyDist (GetCryptoParameters cc) = SPARSE_TERNARY ->
  exists kp,
    KeyGenInternal cc makeSparse k = Ok (kp, (k + 4)%nat) /\
    KeyGenInternal cc (negb makeSparse) k = Ok (kp, (k + 4)%nat) /\
    pk_context (publicKey kp) = cc /\
    sk_context (secretKey kp) = cc /\
    pk_keyTag (publicKey kp) = sk_keyTag (secretKey kp) /\
    length (GetPublicElements (publicKey kp)) = 2%nat.
Proof.
  intros Hdist.
  assert (Hg : exists g, secret_generator (GetSecretKeyDist (GetCryptoParameters cc)) = Some g).
  { destruct Hdist as [-> | [-> | ->]]; eexists; reflexivity. }
  destruct Hg as (g & Hg).
  pose proof (KeyGenInternal_supported cc makeSparse k g Hg) as H1.
  pose proof (KeyGenInternal_supported cc (negb makeSparse) k g Hg) as H2.
  cbv zeta in H1, H2.
  replace (k + 4)%nat with (S (S (S (S k)))) by lia.
  eexists. split; [exact H1|]. split; [exact H2|].
  repeat split.
Qed.

Lemma Encrypt_priv_meta (ptxt : DCRTPoly) (privateKey : PrivateKey) (k k' : nat)
    (ct : Ciphertext) :
  Encrypt_priv ptxt privateKey k = Ok (ct, k') ->
  GetNoiseScaleDeg ct = 1 /\
  ct_keyTag ct = sk_keyTag privateKey /\
  ct_context ct = sk_context privateKey.
Proof.
  unfold Encrypt_priv, bind, lift, ret.
  repeat match goal with
         | |- context [match ?x with Ok _ => _ | Throw _ => _ end] => destruct x; try discriminate
         | |- context [let (_, _) := ?x in _] => destruct x
         end.
  all: intros H; try discriminate H; injection H as <- _; repeat split.
Qed.

Lemma Encrypt_pub_meta (ptxt : DCRTPoly) (publicKey : PublicKey) (k k' : nat)
    (ct : Ciphertext) :
  Encrypt_pub ptxt publicKey k = Ok (ct, k') ->
  GetNoiseScaleDeg ct = 1 /\
  ct_keyTag ct = pk_keyTag publicKey /\
  ct_context ct = pk_context publicKey.
Proof.
  unfold Encrypt_pub, bind, lift, ret.
  repeat match goal with
         | |- context [match ?x with Ok _ => _ | Throw _ => _ end] => destruct x; try discriminate
         | |- context [let (_, _) := ?x in _] => destruct x
         end.
  all: intros H; try discriminate H; injection H as <- _; repeat split.
Qed.

(** X2: given an encryption of zero that keeps its contract, both entry
    points of [Encrypt] return a ciphertext of two components in the
    transform domain, on the primary chain under the extended technique
    and on the plaintext's chain otherwise, with noise-scale degree 1 and
    the key's tag and context. *)
Theorem Encrypt_two_components_degree_one (ptxt : DCRTPoly) (privateKey : PrivateKey)
    (publicKey : PublicKey) (k : nat) :
  zero_encryption_at (EncryptZeroCore_priv privateKey) ->
  zero_encryption_at (EncryptZeroCore_pub publicKey) ->
  (exists ct k' c0 c1,
     Encrypt_priv ptxt privateKey k = Ok (ct, k') /\
     GetElements ct = [c0; c1] /\
     m_format c0 = EVALUATION /\ m_format c1 = EVALUATION /\
     DCRTPoly_GetParams c0 = ciphertext_chain (GetCryptoParameters (sk_context privateKey)) ptxt /\
     DCRTPoly_GetParams c1 = ciphertext_chain (GetCryptoParameters (sk_context privateKey)) ptxt /\
     GetNoiseScaleDeg ct = 1 /\
     ct_keyTag ct = sk_keyTag privateKey /\
     ct_context ct = sk_context privateKey) /\
  (exists ct k' c0 c1,
     Encrypt_pub ptxt publicKey k = Ok (ct, k') /\
     GetElements ct = [c0; c1] /\
     m_format c0 = EVALUATION /\ m_format c1 = EVALUATION /\
     DCRTPoly_GetParams c0 = ciphertext_chain (GetCryptoParameters (pk_context publicKey)) ptxt /\
     DCRTPoly_GetParams c1 = ciphertext_chain (GetCryptoParameters (pk_context publicKey)) ptxt /\
     GetNoiseScaleDeg ct = 1 /\
     ct_keyTag ct = pk_keyTag publicKey /\
     ct_context ct = pk_context publicKey).
Proof.
  intros Hpriv Hpub. split.
  - destruct (Encrypt_priv_shape ptxt privateKey k Hpriv)
      as (ct & k' & c0 & c1 & Henc & Hel & F0 & F1 & _ & P0 & P1).
    destruct (Encrypt_priv_meta _ _ _ _ _ Henc) as (Hd & Ht & Hc).
    exists ct, k', c0, c1. repeat split; assumption.
  - destruct (Encrypt_pub_shape ptxt publicKey k Hpub)
      as (ct & k' & c0 & c1 & Henc & Hel & F0 & F1 & _ & P0 & P1).
    destruct (Encrypt_pub_meta _ _ _ _ _ Henc) as (Hd & Ht & Hc).
    exists ct, k', c0, c1. repeat split; assumption.
Qed.

(** X3: once the decryption core has produced [b] with at least one
    tower and at most as many as the primary chain, [Decrypt] raises no
    error: it returns a plaintext polynomial, marks the result valid and
    reports the polynomial's own length as the message length. *)
Theorem Decrypt_returns_length (ciphertext : Ciphertext) (privateKey : PrivateKey)
    (b : DCRTPoly) :
  let cp := GetCryptoParameters (sk_context privateKey) in
  DecryptCore (GetElements ciphertext) privateKey = Ok b ->
  (0 < GetNumOfElements b <= length (GetElementParams cp))%nat ->
  Z.of_nat (length (GetElementParams cp)) < 2 ^ 64 ->
  exists plaintext,
    Decrypt ciphertext privateKey
    = Ok (plaintext, {| isValid := true; messageLength := GetLength plaintext |}).
Proof.
  intros cp Hb [Hpos Hle] Hbound.
  unfold GetNumOfElements in *.
  destruct (Nat.eq_dec (length (m_vectors b)) (length (GetElementParams cp))) as [Heq|Hne].
  - unfold Decrypt. fold cp. rewrite Hb. cbn [rbind].
    unfold GetNumOfElements. rewrite Heq, Z.eqb_refl.
    destruct (GetMultiplicationTechnique cp); cbn [rbind]; eexists; reflexivity.
  - destruct (length (m_vectors b)) as [|n] eqn:Hn; [lia|].
    destruct (DropAndScaleLoop_drop_until_one cp
                (size_t (size_t (Z.of_nat (length (GetElementParams cp)))
                         - size_t (Z.of_nat (S n)))) n 0 b Hn)
      as (b1 & v & Hloop & _ & Hone).
    assert (Hone' : exists v', m_vectors (SetFormat COEFFICIENT b1) = [v']).
    { pose proof (SetFormat_length COEFFICIENT b1) as Hl. rewrite Hone in Hl.
      destruct (m_vectors (SetFormat COEFFICIENT b1)) as [|v' [|w vs]]; try discriminate.
      now exists v'. }
    destruct Hone' as (v' & Hv').
    unfold Decrypt. fold cp. rewrite Hb. cbn [rbind]. unfold GetNumOfElements. rewrite Hn.
    assert (Hsz : (size_t (Z.of_nat (S n)) =? size_t (Z.of_nat (length (GetElementParams cp))))
                  = false).
    { unfold size_t. rewrite !Z.mod_small by lia. apply Z.eqb_neq. lia. }
    rewrite Hsz.
    assert (Hlev : Z.to_nat (size_t (size_t (Z.of_nat (S n)) - 1)) = n).
    { unfold size_t. rewrite (Z.mod_small (Z.of_nat (S n))) by lia.
      rewrite Z.mod_small by lia. lia. }
    rewrite Hlev, Hloop. cbn [rbind]. rewrite Hv'. cbn [at_index nth_error rbind].
    eexists; reflexivity.
Qed.

(** ** The randomisation block: what it keeps and how it composes *)

(** The run of the block on a ciphertext of at least two components. *)
Lemma Randomize_run (ct : Ciphertext) (c0 c1 : DCRTPoly) (rest : list DCRTPoly) (k : nat) :
  GetElements ct = c0 :: c1 :: rest ->
  m_format c0 = EVALUATION ->
  m_format c1 = EVALUATION ->
  GetNumOfElements c1 = GetNumOfElements c0 ->
  let r := noise_polynomial k (DCRTPoly_GetParams c0) in
  Randomize ct k
  = Ok ({| ct_context := ct_context ct; ct_keyTag := ct_keyTag ct;
           GetElements := DCRTPoly_binop Z.add c0 r :: DCRTPoly_binop Z.sub c1 r :: rest;
           GetNoiseScaleDeg := GetNoiseScaleDeg ct; GetLevel := GetLevel ct |},
        (k + GetNumOfElements c0)%nat).
Proof.
  intros Hel Hf0 Hf1 Hn r.
  assert (Hrp : DCRTPoly_GetParams r = DCRTPoly_GetParams c0).
  { subst r; unfold noise_polynomial. rewrite SetFormat_params.
    unfold DCRTPoly_GetParams at 1; cbn [m_vectors]. apply noise_towers_params. }
  assert (Hrl : length (m_vectors r) = length (m_vectors c0)).
  { unfold DCRTPoly_GetParams in Hrp.
    rewrite <- (length_map np_params (m_vectors r)), Hrp. apply length_map. }
  assert (Hrf : m_format r = EVALUATION) by apply SetFormat_format.
  assert (H0 : Plus c0 r = Ok (DCRTPoly_binop Z.add c0 r)).
  { apply checked_binop_ok; [now rewrite Hrl|now rewrite Hrf]. }
  assert (H1 : Minus c1 r = Ok (DCRTPoly_binop Z.sub c1 r)).
  { apply checked_binop_ok; [|now rewrite Hrf].
    unfold GetNumOfElements in Hn. now rewrite Hrl. }
  unfold Randomize. rewrite Hel. unfold bind at 1. cbn [at_index nth_error lift].
  unfold bind at 1. cbn [at_index nth_error lift].
  unfold bind at 1.
  pose proof (NoiseLoop_run (DCRTPoly_GetParams c0) []
                (m_vectors (DCRTPoly_zero (DCRTPoly_GetParams c0) COEFFICIENT)) COEFFICIENT k)
    as Hloop.
  cbn [app length] in Hloop.
  unfold DCRTPoly_zero in Hloop |- *. cbn [m_vectors] in Hloop.
  rewrite Hloop by apply length_map.
  fold (noise_polynomial k (DCRTPoly_GetParams c0)). fold r.
  unfold bind at 1. rewrite H0. cbn [lift].
  unfold bind at 1. rewrite H1. cbn [lift].
  rewrite !SetFormat_same by (unfold DCRTPoly_binop; cbn [m_format]; assumption).
  unfold bind, lift, ret. cbn [set_index rbind].
  unfold DCRTPoly_GetParams, GetNumOfElements. rewrite length_map. reflexivity.
Qed.

(** With a transform that keeps the number of values, the noise
    polynomial lives on the chain it is drawn for. *)
Lemma noise_polynomial_on_chain (params : ParmType) (k : nat) :
  (forall p xs, In p params -> length (ntt p xs) = length xs) ->
  on_chain params EVALUATION (noise_polynomial k params).
Proof.
  intros Hntt. unfold on_chain, noise_polynomial.
  split; [apply SetFormat_format|]. split.
  - rewrite SetFormat_params. unfold DCRTPoly_GetParams; cbn [m_vectors].
    apply noise_towers_params.
  - unfold SetFormat; cbn [m_format Format_eqb m_vectors].
    unfold noise_towers. rewrite map_map.
    apply Forall_forall. intros v Hv. apply in_map_iff in Hv.
    destruct Hv as ((p & j) & <- & Hin).
    unfold NativePoly_SetFormat; cbn [np_format Format_eqb np_params np_values fst snd].
    apply in_combine_l in Hin.
    rewrite (Hntt p _ Hin). unfold drawn. now rewrite length_map, length_seq.
Qed.

Lemma balanced_values (q : Z) (n : nat) :
  forall xs ys rs : list Z,
    length xs = n -> length ys = n -> length rs = n ->
    map2 (fun x y => (x + y) mod q)
      (map2 (fun x y => (x + y) mod q) xs rs)
      (map2 (fun x y => (x - y) mod q) ys rs)
    = map2 (fun x y => (x + y) mod q) xs ys.
Proof.
  induction n as [|n IH]; intros [|x xs] [|y ys] [|r rs];
    cbn [map2 length]; try discriminate; try reflexivity.
  intros H0 H1 H2. f_equal; [mod_ring q|apply IH; congruence].
Qed.

Lemma balanced_towers (params : ParmType) :
  forall C0 C1 R : list NativePoly,
    map np_params C0 = params -> map np_params C1 = params -> map np_params R = params ->
    Forall (fun v => length (np_values v) = ringDimension (np_params v)) C0 ->
    Forall (fun v => length (np_values v) = ringDimension (np_params v)) C1 ->
    Forall (fun v => length (np_values v) = ringDimension (np_params v)) R ->
    map2 (NativePoly_binop Z.add)
      (map2 (NativePoly_binop Z.add) C0 R) (map2 (NativePoly_binop Z.sub) C1 R)
    = map2 (NativePoly_binop Z.add) C0 C1.
Proof.
  induction params as [|p params IH]; intros [|c0 C0] [|c1 C1] [|r R]; cbn [map map2];
    try discriminate; try reflexivity.
  intros H0 H1 H3 F0 F1 F3.
  injection H0 as Hp0 H0. injection H1 as Hp1 H1. injection H3 as Hp3 H3.
  inversion F0 as [|? ? L0 F0']; inversion F1 as [|? ? L1 F1'];
    inversion F3 as [|? ? L3 F3']; subst.
  f_equal; [|now apply IH].
  unfold NativePoly_binop, GetModulus; cbn [np_params np_format np_values].
  f_equal. rewrite Hp1.
  apply (balanced_values _ (ringDimension (np_params c0))); congruence.
Qed.

(** X4: the randomisation block keeps the sum of the two components:
    for a ciphertext [(c0, c1, ...)] on one chain in the transform
    domain, the block returns [(c0', c1', ...)] with
    [c0' + c1' = c0 + c1], whatever noise was drawn; it takes one draw
    per tower. *)
Theorem Randomize_keeps_sum (params : ParmType) (ct : Ciphertext) (c0 c1 : DCRTPoly)
    (rest : list DCRTPoly) (k : nat) :
  GetElements ct = c0 :: c1 :: rest ->
  on_chain params EVALUATION c0 ->
  on_chain params EVALUATION c1 ->
  (forall p xs, In p params -> length (ntt p xs) = length xs) ->
  exists ct' c0' c1' total,
    Randomize ct k = Ok (ct', (k + length params)%nat) /\
    GetElements ct' = c0' :: c1' :: rest /\
    Plus c0 c1 = Ok total /\
    Plus c0' c1' = Ok total.
Proof.
  intros Hel H0 H1 Hntt.
  pose proof (noise_polynomial_on_chain params k Hntt) as Hr.
  pose proof (on_chain_length _ _ _ H0) as L0.
  pose proof (on_chain_length _ _ _ H1) as L1.
  pose proof (on_chain_length _ _ _ Hr) as Lr.
  destruct H0 as (F0 & P0 & V0), H1 as (F1 & P1 & V1), Hr as (Fr & Pr & Vr).
  pose proof (Randomize_run ct c0 c1 rest k Hel F0 F1) as Hrun.
  unfold GetNumOfElements in Hrun. rewrite P0, L0 in Hrun.
  specialize (Hrun L1).
  set (r := noise_polynomial k params) in *.
  do 2 eexists. exists (DCRTPoly_binop Z.sub c1 r), (DCRTPoly_binop Z.add c0 c1).
  split; [exact Hrun|]. split; [reflexivity|]. split.
  - apply checked_binop_ok; [congruence|now rewrite F0, F1].
  - unfold Plus. rewrite checked_binop_ok.
    + f_equal. unfold DCRTPoly_binop; cbn [m_format m_vectors]. f_equal.
      apply (balanced_towers params); assumption.
    + rewrite !binop_length_min. lia.
    + unfold DCRTPoly_binop; cbn [m_format]. now rewrite F0, F1.
Qed.

Lemma summed_values (q : Z) (n : nat) (f : Z -> Z -> Z) :
  (forall x a b, f (f x a mod q) b mod q = f x ((a + b) mod q) mod q) ->
  forall xs r1 r2 : list Z,
    length xs = n -> length r1 = n -> length r2 = n ->
    map2 (fun x y => f x y mod q) (map2 (fun x y => f x y mod q) xs r1) r2
    = map2 (fun x y => f x y mod q) xs (map2 (fun x y => (x + y) mod q) r1 r2).
Proof.
  intros Hf.
  induction n as [|n IH]; intros [|x xs] [|a r1] [|b r2];
    cbn [map2 length]; try discriminate; try reflexivity.
  intros H0 H1 H2. f_equal; [apply Hf|apply IH; congruence].
Qed.

Lemma summed_towers (f : Z -> Z -> Z) :
  (forall q x a b, f (f x a mod q) b mod q = f x ((a + b) mod q) mod q) ->
  forall (params : ParmType) (C R1 R2 : list NativePoly),
    map np_params C = params -> map np_params R1 = params -> map np_params R2 = params ->
    Forall (fun v => length (np_values v) = ringDimension (np_params v)) C ->
    Forall (fun v => length (np_values v) = ringDimension (np_params v)) R1 ->
    Forall (fun v => length (np_values v) = ringDimension (np_params v)) R2 ->
    map2 (NativePoly_binop f) (map2 (NativePoly_binop f) C R1) R2
    = map2 (NativePoly_binop f) C (map2 (NativePoly_binop Z.add) R1 R2).
Proof.
  intros Hf.
  induction params as [|p params IH]; intros [|c C] [|r1 R1] [|r2 R2]; cbn [map map2];
    try discriminate; try reflexivity.
  intros H0 H1 H2 F0 F1 F2.
  injection H0 as Hp0 H0. injection H1 as Hp1 H1. injection H2 as Hp2 H2.
  inversion F0 as [|? ? L0 F0']; inversion F1 as [|? ? L1 F1'];
    inversion F2 as [|? ? L2 F2']; subst.
  f_equal; [|now apply IH].
  unfold NativePoly_binop, GetModulus; cbn [np_params np_format np_values].
  f_equal. rewrite Hp1.
  apply (summed_values _ (ringDimension (np_params c))); [apply Hf|congruence..].
Qed.

Lemma add_add_mod (q x a b : Z) : (((x + a) mod q) + b) mod q = (x + ((a + b) mod q)) mod q.
Proof. mod_ring q. Qed.

Lemma sub_sub_mod (q x a b : Z) : (((x - a) mod q) - b) mod q = (x - ((a + b) mod q)) mod q.
Proof. mod_ring q. Qed.

(** X5: running the randomisation block twice is running it once with
    the sum of the two noise polynomials: from [(c0, c1, ...)] the two
    rounds lead to [(c0 + r12, c1 - r12, ...)] with [r12 = r1 + r2],
    where [r1] and [r2] are the noise polynomials of the first and of
    the second round; the rest of the ciphertext is as it was. *)
Theorem Randomize_twice (params : ParmType) (ct : Ciphertext) (c0 c1 : DCRTPoly)
    (rest : list DCRTPoly) (k : nat) :
  GetElements ct = c0 :: c1 :: rest ->
  on_chain params EVALUATION c0 ->
  on_chain params EVALUATION c1 ->
  (forall p xs, In p params -> length (ntt p xs) = length xs) ->
  let n := length params in
  let r1 := noise_polynomial k params in
  let r2 := noise_polynomial (k + n)%nat params in
  exists ct1 ct2 r12 c0'' c1'',
    Randomize ct k = Ok (ct1, (k + n)%nat) /\
    Randomize ct1 (k + n)%nat = Ok (ct2, (k + n + n)%nat) /\
    Plus r1 r2 = Ok r12 /\
    Plus c0 r12 = Ok c0'' /\
    Minus c1 r12 = Ok c1'' /\
    GetElements ct2 = c0'' :: c1'' :: rest /\
    GetLevel ct2 = GetLevel ct /\
    GetNoiseScaleDeg ct2 = GetNoiseScaleDeg ct /\
    ct_keyTag ct2 = ct_keyTag ct /\
    ct_context ct2 = ct_context ct.
Proof.
  intros Hel H0 H1 Hntt n r1 r2.
  pose proof (noise_polynomial_on_chain params k Hntt) as Hr1.
  pose proof (noise_polynomial_on_chain params (k + n)%nat Hntt) as Hr2.
  fold r1 in Hr1. fold r2 in Hr2.
  pose proof (on_chain_length _ _ _ H0) as L0.
  pose proof (on_chain_length _ _ _ H1) as L1.
  pose proof (on_chain_length _ _ _ Hr1) as Lr1.
  pose proof (on_chain_length _ _ _ Hr2) as Lr2.
  destruct H0 as (F0 & P0 & V0), H1 as (F1 & P1 & V1),
           Hr1 as (Fr1 & Pr1 & Vr1), Hr2 as (Fr2 & Pr2 & Vr2).
  pose proof (Randomize_run ct c0 c1 rest k Hel F0 F1) as Hrun1.
  unfold GetNumOfElements in Hrun1. rewrite P0, L0 in Hrun1.
  specialize (Hrun1 L1). fold r1 in Hrun1. fold n in Hrun1.
  set (ct1 := {| ct_context := ct_context ct; ct_keyTag := ct_keyTag ct;
                 GetElements := DCRTPoly_binop Z.add c0 r1 :: DCRTPoly_binop Z.sub c1 r1 :: rest;
                 GetNoiseScaleDeg := GetNoiseScaleDeg ct; GetLevel := GetLevel ct |}) in *.
  assert (Hp0' : DCRTPoly_GetParams (DCRTPoly_binop Z.add c0 r1) = params)
    by (rewrite binop_params; [exact P0|congruence]).
  pose proof (Randomize_run ct1 (DCRTPoly_binop Z.add c0 r1) (DCRTPoly_binop Z.sub c1 r1)
                rest (k + n)%nat eq_refl F0 F1) as Hrun2.
  unfold GetNumOfElements in Hrun2. rewrite Hp0' in Hrun2.
  rewrite !binop_length_min in Hrun2.
  rewrite L0, L1, Lr1, Nat.min_id in Hrun2. fold n in Hrun2.
  specialize (Hrun2 eq_refl). fold r2 in Hrun2.
  exists ct1. eexists.
  exists (DCRTPoly_binop Z.add r1 r2),
         (DCRTPoly_binop Z.add c0 (DCRTPoly_binop Z.add r1 r2)),
         (DCRTPoly_binop Z.sub c1 (DCRTPoly_binop Z.add r1 r2)).
  split; [exact Hrun1|]. split; [exact Hrun2|].
  split; [apply checked_binop_ok; congruence|].
  split; [apply checked_binop_ok; [rewrite binop_length_min; lia|
                                   cbn [m_format DCRTPoly_binop]; congruence]|].
  split; [apply checked_binop_ok; [rewrite binop_length_min; lia|
                                   cbn [m_format DCRTPoly_binop]; congruence]|].
  split; [|repeat split].
  cbn [GetElements]. unfold DCRTPoly_binop; cbn [m_format m_vectors].
  f_equal; [|f_equal]; f_equal.
  - apply (summed_towers Z.add (fun q x a b => add_add_mod q x a b) params); assumption.
  - apply (summed_towers Z.sub (fun q x a b => sub_sub_mod q x a b) params); assumption.
Qed.

(** ** Key generation: the relation between the two keys *)

Lemma map2_map_same {A B C D : Type} (f : B -> C -> D) (g : A -> B) (h : A -> C) (l : list A) :
  map2 f (map g l) (map h l) = map (fun x => f (g x) (h x)) l.
Proof. induction l as [|x l IH]; simpl; [reflexivity|now rewrite IH]. Qed.

Lemma firstn_map2 {A B C : Type} (f : A -> B -> C) (n : nat) :
  forall (l1 : list A) (l2 : list B),
    firstn n (map2 f l1 l2) = map2 f (firstn n l1) (firstn n l2).
Proof.
  induction n as [|n IH]; intros [|a l1] [|b l2]; simpl; try reflexivity.
  now rewrite IH.
Qed.

Lemma DropLastElements_sampled (d : nat) (g : Generator) (params : ParmType) (fmt : Format)
    (k : nat) :
  DropLastElements d (sampled g params fmt k)
  = sampled g (firstn (length params - d) params) fmt k.
Proof.
  unfold DropLastElements, sampled; cbn [m_format m_vectors].
  now rewrite length_map, firstn_map.
Qed.

Lemma DropLastElements_binop (d : nat) (f : Z -> Z -> Z) (a b : DCRTPoly) :
  length (m_vectors a) = length (m_vectors b) ->
  DropLastElements d (DCRTPoly_binop f a b)
  = DCRTPoly_binop f (DropLastElements d a) (DropLastElements d b).
Proof.
  intros Hl. unfold DropLastElements, DCRTPoly_binop; cbn [m_format m_vectors].
  rewrite map2_length by exact Hl. rewrite firstn_map2, <- Hl. reflexivity.
Qed.

Lemma DropLastElements_ScalarTimes (d : nat) (c : Z) (a : DCRTPoly) :
  DropLastElements d (ScalarTimes c a) = ScalarTimes c (DropLastElements d a).
Proof.
  unfold DropLastElements, ScalarTimes; cbn [m_format m_vectors].
  now rewrite length_map, firstn_map.
Qed.

(** On one chain, [(ns * e - a * s) + a * s = ns * e] for sampled
    polynomials. *)
Lemma sampled_key_relation (params : ParmType) (fmt : Format) (ns : Z) (g : Generator)
    (ks ka ke : nat) :
  let s := sampled g params fmt ks in
  let a := sampled DUG params fmt ka in
  let e := sampled DGG params fmt ke in
  DCRTPoly_binop Z.add
    (DCRTPoly_binop Z.sub (ScalarTimes ns e) (DCRTPoly_binop Z.mul a s))
    (DCRTPoly_binop Z.mul a s)
  = ScalarTimes ns e.
Proof.
  intros s a e. subst s a e.
  unfold DCRTPoly_binop, ScalarTimes, sampled; cbn [m_format m_vectors].
  f_equal. rewrite map_map, !map2_map_same.
  apply map_ext. intros p.
  unfold NativePoly_binop, GetModulus; cbn [np_params np_format np_values].
  f_equal. unfold drawn. rewrite !map_map, !map2_map_same.
  apply map_ext. intros j.
  match goal with |- _ = ?x mod ?q => rewrite <- (Zmod_mod x q) end.
  mod_ring (modulus p).
Qed.

(** X6: with a supported secret-key distribution, the two keys that key
    generation returns fit together: on the towers of the returned
    secret key [s], the public key [(b, a)] satisfies
    [b + a * s = noiseScale * e], where [e] is the Gaussian error of the
    fourth draw.  The secret key has as many towers as the shorter of the
    public-key chain and the chain key generation works on (the primary
    chain, or the extended one under the extended technique); the public
    key is cut to these towers by dropping its last ones. *)
Theorem KeyGenInternal_key_relation (cc : CryptoContext) (makeSparse : bool) (k : nat) :
  let cp := GetCryptoParameters cc in
  let paramsPK := GetParamsPK cp in
  GetSecretKeyDist cp = GAUSSIAN \/
  GetSecretKeyDist cp = UNIFORM_TERNARY \/
  GetSecretKeyDist cp = SPARSE_TERNARY ->
  Z.of_nat (length paramsPK) < 2 ^ 32 ->
  Z.of_nat (length (working_chain cp)) < 2 ^ 32 ->
  let n := Nat.min (length (working_chain cp)) (length paramsPK) in
  let d := (length paramsPK - n)%nat in
  let e := sampled DGG paramsPK EVALUATION (k + 3) in
  exists kp b a a_s,
    KeyGenInternal cc makeSparse k = Ok (kp, (k + 4)%nat) /\
    GetPublicElements (publicKey kp) = [b; a] /\
    GetNumOfElements (GetPrivateElement (secretKey kp)) = n /\
    Times (DropLastElements d a) (GetPrivateElement (secretKey kp)) = Ok a_s /\
    Plus (DropLastElements d b) a_s
    = Ok (DropLastElements d (ScalarTimes (GetNoiseScale cp) e)).
Proof.
  intros cp paramsPK Hdist HPK HW n d e.
  assert (Hg : exists g, secret_generator (GetSecretKeyDist cp) = Some g).
  { destruct Hdist as [-> | [-> | ->]]; eexists; reflexivity. }
  destruct Hg as (g & Hg).
  pose proof (KeyGenInternal_supported cc makeSparse k g Hg) as Hrun.
  cbv zeta in Hrun. fold cp in Hrun. fold paramsPK in Hrun.
  replace (k + 4)%nat with (S (S (S (S k)))) by lia.
  subst e. replace (k + 3)%nat with (S (S (S k))) by lia.
  set (s := sampled g paramsPK EVALUATION (S k)) in *.
  set (a := sampled DUG paramsPK EVALUATION (S (S k))) in *.
  set (e := sampled DGG paramsPK EVALUATION (S (S (S k)))) in *.
  assert (Hs : (if usint (Z.of_nat (length paramsPK)) >? usint (Z.of_nat (length (working_chain cp)))
                then DropLastElements
                       (Z.to_nat (usint (usint (Z.of_nat (length paramsPK))
                                         - usint (Z.of_nat (length (working_chain cp)))))) s
                else s) = DropLastElements d s).
  { unfold usint. rewrite !(Z.mod_small (Z.of_nat _)) by lia.
    destruct (Z.gtb_spec (Z.of_nat (length paramsPK)) (Z.of_nat (length (working_chain cp))))
      as [Hgt|Hle].
    - rewrite Z.mod_small by lia. f_equal. subst d n. lia.
    - replace d with 0%nat by (subst d n; lia). now rewrite DropLastElements_0. }
  rewrite Hs in Hrun.
  assert (Ls : length (m_vectors s) = length paramsPK) by apply sampled_length.
  assert (La : length (m_vectors a) = length paramsPK) by apply sampled_length.
  assert (Le : length (m_vectors e) = length paramsPK) by apply sampled_length.
  do 2 eexists. exists a, (DCRTPoly_binop Z.mul (DropLastElements d a) (DropLastElements d s)).
  split; [exact Hrun|]. cbn [publicKey secretKey GetPublicElements GetPrivateElement].
  split; [reflexivity|]. split; [|split].
  - unfold GetNumOfElements. subst s. rewrite DropLastElements_sampled, sampled_length.
    rewrite length_firstn. subst d n. lia.
  - apply checked_binop_ok; [|reflexivity].
    subst a s. now rewrite !DropLastElements_sampled, !sampled_length.
  - rewrite DropLastElements_binop
      by (rewrite ScalarTimes_length, binop_length; congruence).
    rewrite (DropLastElements_binop d Z.mul a s) by congruence.
    rewrite !DropLastElements_ScalarTimes.
    unfold Plus. rewrite checked_binop_ok.
    + f_equal. subst s a e. rewrite !DropLastElements_sampled.
      apply sampled_key_relation.
    + subst s a e. rewrite !DropLastElements_sampled.
      rewrite !binop_length_min, ScalarTimes_length, !sampled_length. lia.
    + reflexivity.
Qed.

(** ** Encryption: the plaintext's domain *)

(** To the transform domain and back. *)
Lemma SetFormat_round_trip (p : DCRTPoly) :
  reduced_form COEFFICIENT p ->
  transform_correct (DCRTPoly_GetParams p) ->
  SetFormat COEFFICIENT (SetFormat EVALUATION p) = p.
Proof.
  intros (Hf & Hv) Htc. destruct p as [fmt towers]. cbn [m_format m_vectors] in *. subst fmt.
  unfold SetFormat; cbn [m_format m_vectors Format_eqb]. f_equal.
  unfold DCRTPoly_GetParams in Htc; cbn [m_vectors] in Htc.
  rewrite map_map.
  induction towers as [|v towers IH]; [reflexivity|].
  inversion Hv as [|? ? (Hvf & Hvl & Hvr) Hv']; subst.
  cbn [map]. f_equal.
  - destruct v as [pv fv xs]. cbn [np_format np_params np_values] in *. subst fv.
    unfold NativePoly_SetFormat; cbn [np_format np_params np_values Format_eqb].
    f_equal. apply (Htc pv); [now left|assumption|assumption].
  - apply IH; [assumption|]. intros q Hq. apply Htc. now right.
Qed.

(** X7: [Encrypt] takes the plaintext in either domain: for a plaintext
    polynomial in coefficient form and a transform whose inverse undoes
    it, both entry points return for the polynomial converted to the
    transform domain exactly what they return for the polynomial itself
    (the same ciphertext or the same error, after the same draws), under
    the standard and under the extended technique. *)
Theorem Encrypt_either_domain (p : DCRTPoly) (privateKey : PrivateKey)
    (publicKey : PublicKey) (k : nat) :
  reduced_form COEFFICIENT p ->
  transform_correct (DCRTPoly_GetParams p) ->
  Encrypt_priv (SetFormat EVALUATION p) privateKey k = Encrypt_priv p privateKey k /\
  Encrypt_pub (SetFormat EVALUATION p) publicKey k = Encrypt_pub p publicKey k.
Proof.
  intros Hp Htc.
  pose proof (SetFormat_round_trip p Hp Htc) as Hrt.
  pose proof (SetFormat_same COEFFICIENT p (proj1 Hp)) as Hid.
  split.
  - unfold Encrypt_priv. rewrite SetFormat_params, Hrt, Hid.
    destruct (is_EXTENDED (GetEncryptionTechnique (GetCryptoParameters (sk_context privateKey))));
      [reflexivity|].
    now rewrite Hrt, Hid.
  - unfold Encrypt_pub. rewrite SetFormat_params, Hrt, Hid.
    destruct (is_EXTENDED (GetEncryptionTechnique (GetCryptoParameters (pk_context publicKey))));
      [reflexivity|].
    now rewrite Hrt, Hid.
Qed.

(** ** Encryption under the standard technique *)

(** To the coefficient domain and back. *)
Lemma SetFormat_back (p : DCRTPoly) :
  reduced_form EVALUATION p ->
  transform_undone (DCRTPoly_GetParams p) ->
  SetFormat EVALUATION (SetFormat COEFFICIENT p) = p.
Proof.
  intros (Hf & Hv) Htc. destruct p as [fmt towers]. cbn [m_format m_vectors] in *. subst fmt.
  unfold SetFormat; cbn [m_format m_vectors Format_eqb]. f_equal.
  unfold DCRTPoly_GetParams in Htc; cbn [m_vectors] in Htc.
  rewrite map_map.
  induction towers as [|v towers IH]; [reflexivity|].
  inversion Hv as [|? ? (Hvf & Hvl & Hvr) Hv']; subst.
  cbn [map]. f_equal.
  - destruct v as [pv fv xs]. cbn [np_format np_params np_values] in *. subst fv.
    unfold NativePoly_SetFormat; cbn [np_format np_params np_values Format_eqb].
    f_equal. apply (Htc pv); [now left|assumption|assumption].
  - apply IH; [assumption|]. intros q Hq. apply Htc. now right.
Qed.

Lemma TimesQovert_params (paramsQ : ParmType) (tab : list Z) (t a b : Z) (p : DCRTPoly) :
  DCRTPoly_GetParams (TimesQovert paramsQ tab t a b p) = DCRTPoly_GetParams p.
Proof.
  unfold DCRTPoly_GetParams, TimesQovert; cbn [m_vectors]. rewrite map_map. reflexivity.
Qed.

(** The scaled plaintext, back in the transform domain, lives on the
    plaintext's chain. *)
Lemma scaled_on_chain (paramsQ : ParmType) (tab : list Z) (t a b : Z) (ptxt : DCRTPoly) :
  reduced_form COEFFICIENT ptxt ->
  (forall p xs, In p (DCRTPoly_GetParams ptxt) -> length (ntt p xs) = length xs) ->
  on_chain (DCRTPoly_GetParams ptxt) EVALUATION
    (SetFormat EVALUATION (TimesQovert paramsQ tab t a b ptxt)).
Proof.
  intros (Hf & Hv) Hntt. unfold on_chain.
  split; [apply SetFormat_format|]. split; [now rewrite SetFormat_params, TimesQovert_params|].
  unfold SetFormat, TimesQovert; cbn [m_format m_vectors]. rewrite Hf. cbn [Format_eqb m_vectors].
  rewrite map_map. apply Forall_forall. intros w Hw. apply in_map_iff in Hw.
  destruct Hw as (v & <- & Hin).
  rewrite Forall_forall in Hv. destruct (Hv v Hin) as (Hvf & Hvl & _).
  unfold NativePoly_SetFormat; cbn [np_format np_params np_values]. rewrite Hvf.
  cbn [Format_eqb np_params np_values].
  rewrite Hntt by (unfold DCRTPoly_GetParams; now apply in_map).
  now rewrite length_map.
Qed.

Lemma sum_values_reduced (q : Z) :
  forall xs ys : list Z,
    Forall (fun x => 0 <= x < q) xs ->
    Forall (fun x => 0 <= x < q) (map2 (fun x y => (x + y) mod q) xs ys).
Proof.
  induction xs as [|x xs IH]; intros [|y ys] Hx; cbn [map2]; try constructor.
  - apply Z.mod_pos_bound. inversion Hx; subst; lia.
  - apply IH. now inversion Hx.
Qed.

Lemma sum_towers_reduced (fmt : Format) :
  forall B S : list NativePoly,
    map np_params B = map np_params S ->
    Forall (fun v => np_format v = fmt /\
                     length (np_values v) = ringDimension (np_params v) /\
                     Forall (fun x => 0 <= x < modulus (np_params v)) (np_values v)) B ->
    Forall (fun v => length (np_values v) = ringDimension (np_params v)) S ->
    Forall (fun v => np_format v = fmt /\
                     length (np_values v) = ringDimension (np_params v) /\
                     Forall (fun x => 0 <= x < modulus (np_params v)) (np_values v))
           (map2 (NativePoly_binop Z.add) B S).
Proof.
  induction B as [|b B IH]; intros [|s S] Hp HB HS; cbn [map map2] in *;
    try discriminate; try constructor.
  - injection Hp as Hp0 _.
    inversion HB as [|? ? (Hbf & Hbl & Hbr) _]; inversion HS as [|? ? Hsl _]; subst.
    unfold NativePoly_binop, GetModulus; cbn [np_format np_params np_values].
    split; [reflexivity|]. split; [rewrite map2_length; congruence|].
    now apply sum_values_reduced.
  - injection Hp as _ Hp. inversion HB; inversion HS; subst. now apply IH.
Qed.

(** X8: under the standard technique [Encrypt] adds the scaled plaintext
    to the first component of the encryption of zero and hands the
    second one on untouched: for a plaintext in coefficient form and an
    encryption of zero [(b', a')] in reduced form on the plaintext's
    chain, the ciphertext is [(b' + scaled, a')], with noise-scale
    degree 1 and the key's tag and context, after the draws of the
    encryption of zero only.  The transform is assumed to keep the number
    of values and to undo its inverse. *)
Theorem Encrypt_standard_components (ptxt : DCRTPoly) (privateKey : PrivateKey)
    (publicKey : PublicKey) (enc : M Ciphertext) (zero : ParmType -> M (list DCRTPoly))
    (cc : CryptoContext) (tag : KeyTag) (k k' : nat) (b' a' : DCRTPoly) :
  let cp := GetCryptoParameters cc in
  let params := DCRTPoly_GetParams ptxt in
  let level := size_t (size_t (Z.of_nat (length (GetElementParams cp)))
                       - size_t (Z.of_nat (length params))) in
  let scaled := SetFormat EVALUATION
                  (TimesQovert params (GettInvModq cp) (GetPlaintextModulus cp)
                     (GetNegQModt cp level) (GetNegQModtPrecon cp level) ptxt) in
  (enc = Encrypt_priv ptxt privateKey /\ zero = EncryptZeroCore_priv privateKey /\
   cc = sk_context privateKey /\ tag = sk_keyTag privateKey) \/
  (enc = Encrypt_pub ptxt publicKey /\ zero = EncryptZeroCore_pub publicKey /\
   cc = pk_context publicKey /\ tag = pk_keyTag publicKey) ->
  GetEncryptionTechnique cp = STANDARD ->
  reduced_form COEFFICIENT ptxt ->
  zero params k = Ok ([b'; a'], k') ->
  reduced_form EVALUATION b' ->
  reduced_form EVALUATION a' ->
  DCRTPoly_GetParams b' = params ->
  DCRTPoly_GetParams a' = params ->
  (forall p xs, In p params -> length (ntt p xs) = length xs) ->
  transform_undone params ->
  exists c0,
    Plus b' scaled = Ok c0 /\
    enc k = Ok ({| ct_context := cc; ct_keyTag := tag; GetElements := [c0; a'];
                   GetNoiseScaleDeg := 1; GetLevel := 0 |}, k').
Proof.
  intros cp params level scaled Henc Htech Hptxt Hzero Hb Ha Pb Pa Hntt Hundo.
  pose proof (scaled_on_chain params (GettInvModq cp) (GetPlaintextModulus cp)
                (GetNegQModt cp level) (GetNegQModtPrecon cp level) ptxt Hptxt Hntt) as Hs.
  fold scaled in Hs. fold params in Hs.
  pose proof (on_chain_length _ _ _ Hs) as Ls.
  destruct Hs as (Fs & Ps & Vs).
  assert (Lb : length (m_vectors b') = length params).
  { rewrite <- Pb. unfold DCRTPoly_GetParams. now rewrite length_map. }
  assert (Hplus : Plus b' scaled = Ok (DCRTPoly_binop Z.add b' scaled)).
  { apply checked_binop_ok; [congruence|]. rewrite Fs. exact (proj1 Hb). }
  assert (Hc0 : reduced_form EVALUATION (DCRTPoly_binop Z.add b' scaled)).
  { split; [exact (proj1 Hb)|]. unfold DCRTPoly_binop; cbn [m_vectors].
    apply sum_towers_reduced; [|exact (proj2 Hb)|exact Vs].
    unfold DCRTPoly_GetParams in Pb, Ps. congruence. }
  assert (Hback0 : SetFormat EVALUATION (SetFormat COEFFICIENT (DCRTPoly_binop Z.add b' scaled))
                   = DCRTPoly_binop Z.add b' scaled).
  { apply SetFormat_back; [exact Hc0|]. rewrite binop_params by congruence. now rewrite Pb. }
  assert (Hback1 : SetFormat EVALUATION (SetFormat COEFFICIENT a') = a').
  { apply SetFormat_back; [exact Ha|]. now rewrite Pa. }
  pose proof (SetFormat_same COEFFICIENT ptxt (proj1 Hptxt)) as Hid.
  exists (DCRTPoly_binop Z.add b' scaled). split; [exact Hplus|].
  destruct Henc as [(-> & -> & -> & ->)|(-> & -> & -> & ->)].
  - unfold Encrypt_priv. fold cp. rewrite Htech. cbn [is_EXTENDED]. rewrite Hid.
    fold params. fold level. fold scaled.
    unfold bind at 1. rewrite Hzero. cbn [lift at_index nth_error].
    unfold bind at 1. cbn [lift at_index nth_error].
    unfold bind at 1. rewrite Hplus. cbn [lift].
    unfold bind at 1. cbn [lift at_index nth_error].
    unfold ret. now rewrite Hback0, Hback1.
  - unfold Encrypt_pub. fold cp. rewrite Htech. cbn [is_EXTENDED]. rewrite Hid.
    fold params. fold level. fold scaled.
    unfold bind at 1. rewrite Hzero. cbn [lift at_index nth_error].
    unfold bind at 1. cbn [lift at_index nth_error].
    unfold bind at 1. rewrite Hplus. cbn [lift].
    unfold bind at 1. cbn [lift at_index nth_error].
    unfold ret. now rewrite Hback0, Hback1.
Qed.

(** ** Encryption followed by the randomisation block *)

(** X9: the randomisation block accepts every ciphertext that [Encrypt]
    returns: given an encryption of zero that keeps its contract, the
    block run on the fresh ciphertext of either entry point raises no
    error, takes one draw per tower of the ciphertext's chain and
    returns a ciphertext of two components with noise-scale degree 1
    and the key's tag. *)
Theorem Randomize_after_Encrypt (ptxt : DCRTPoly) (privateKey : PrivateKey)
    (publicKey : PublicKey) (k : nat) :
  zero_encryption_at (EncryptZeroCore_priv privateKey) ->
  zero_encryption_at (EncryptZeroCore_pub publicKey) ->
  (exists ct k1 ct',
     Encrypt_priv ptxt privateKey k = Ok (ct, k1) /\
     Randomize ct k1
     = Ok (ct', (k1 + length (ciphertext_chain (GetCryptoParameters (sk_context privateKey))
                                ptxt))%nat) /\
     length (GetElements ct') = 2%nat /\
     GetNoiseScaleDeg ct' = 1 /\
     ct_keyTag ct' = sk_keyTag privateKey) /\
  (exists ct k1 ct',
     Encrypt_pub ptxt publicKey k = Ok (ct, k1) /\
     Randomize ct k1
     = Ok (ct', (k1 + length (ciphertext_chain (GetCryptoParameters (pk_context publicKey))
                                ptxt))%nat) /\
     length (GetElements ct') = 2%nat /\
     GetNoiseScaleDeg ct' = 1 /\
     ct_keyTag ct' = pk_keyTag publicKey).
Proof.
  intros Hpriv Hpub. split.
  - destruct (Encrypt_priv_shape ptxt privateKey k Hpriv)
      as (ct & k1 & c0 & c1 & Henc & Hel & F0 & F1 & _ & P0 & P1).
    destruct (Encrypt_priv_meta _ _ _ _ _ Henc) as (Hd & Ht & _).
    assert (Hn : GetNumOfElements c1 = GetNumOfElements c0).
    { unfold GetNumOfElements. rewrite <- !params_length. congruence. }
    pose proof (Randomize_run ct c0 c1 [] k1 Hel F0 F1 Hn) as Hrun. cbv zeta in Hrun.
    unfold GetNumOfElements in Hrun. rewrite <- params_length, P0 in Hrun.
    exists ct, k1. eexists. split; [exact Henc|]. split; [exact Hrun|].
    cbn [GetElements GetNoiseScaleDeg ct_keyTag length]. repeat split; assumption.
  - destruct (Encrypt_pub_shape ptxt publicKey k Hpub)
      as (ct & k1 & c0 & c1 & Henc & Hel & F0 & F1 & _ & P0 & P1).
    destruct (Encrypt_pub_meta _ _ _ _ _ Henc) as (Hd & Ht & _).
    assert (Hn : GetNumOfElements c1 = GetNumOfElements c0).
    { unfold GetNumOfElements. rewrite <- !params_length. congruence. }
    pose proof (Randomize_run ct c0 c1 [] k1 Hel F0 F1 Hn) as Hrun. cbv zeta in Hrun.
    unfold GetNumOfElements in Hrun. rewrite <- params_length, P0 in Hrun.
    exists ct, k1. eexists. split; [exact Henc|]. split; [exact Hrun|].
    cbn [GetElements GetNoiseScaleDeg ct_keyTag length]. repeat split; assumption.
Qed.

(** ** When the randomisation cancels in the decryption *)

Lemma map2_mod_range (f : Z -> Z -> Z) (q : Z) :
  0 < q ->
  forall xs ys : list Z, Forall (fun x => 0 <= x < q) (map2 (fun x y => f x y mod q) xs ys).
Proof.
  intros Hq. induction xs as [|x xs IH]; intros [|y ys]; cbn [map2]; constructor.
  - now apply Z.mod_pos_bound.
  - apply IH.
Qed.

(** The operators leave reduced residues behind. *)
Lemma binop_values_reduced (f : Z -> Z -> Z) (a b : DCRTPoly) :
  Forall (fun p => 0 < modulus p) (DCRTPoly_GetParams a) ->
  Forall (fun v => Forall (fun x => 0 <= x < GetModulus v) (np_values v))
         (m_vectors (DCRTPoly_binop f a b)).
Proof.
  unfold DCRTPoly_GetParams, DCRTPoly_binop; cbn [m_vectors].
  generalize (m_vectors b).
  induction (m_vectors a) as [|x A IH]; intros [|y B] Hq; cbn [map map2]; constructor.
  - unfold NativePoly_binop, GetModulus; cbn [np_params np_values].
    apply map2_mod_range. now inversion Hq.
  - apply IH. now inversion Hq.
Qed.

Lemma shift_values_iff (q : Z) :
  forall ys es : list Z,
    length ys = length es ->
    Forall (fun x => 0 <= x < q) ys ->
    Forall (fun x => 0 <= x < q) es ->
    map2 (fun x y => (x + y) mod q) ys es = ys <-> Forall (fun x => x = 0) es.
Proof.
  induction ys as [|y ys IH]; intros [|e es] Hl Hy He; cbn [map2 length] in *;
    try discriminate.
  - split; [constructor|reflexivity].
  - inversion Hy as [|? ? Ry Hy']; inversion He as [|? ? Re He']; subst.
    specialize (IH es (eq_add_S _ _ Hl) Hy' He').
    split.
    + intros H. injection H as H0 H1. constructor; [|now apply IH].
      destruct (Z_lt_dec (y + e) q) as [Hs|Hs].
      * rewrite Z.mod_small in H0 by lia. lia.
      * replace (y + e) with ((y + e - q) + 1 * q) in H0 by ring.
        rewrite Z_mod_plus_full, Z.mod_small in H0 by lia. lia.
    + intros H. inversion H as [|? ? E0 H']; subst.
      f_equal; [|now apply IH].
      rewrite Z.add_0_r. apply Z.mod_small. lia.
Qed.

Lemma shift_towers_iff :
  forall B E : list NativePoly,
    map np_params B = map np_params E ->
    Forall (fun v => length (np_values v) = ringDimension (np_params v)) B ->
    Forall (fun v => length (np_values v) = ringDimension (np_params v)) E ->
    Forall (fun v => Forall (fun x => 0 <= x < GetModulus v) (np_values v)) B ->
    Forall (fun v => Forall (fun x => 0 <= x < GetModulus v) (np_values v)) E ->
    map2 (NativePoly_binop Z.add) B E = B
    <-> Forall (fun v => Forall (fun x => x = 0) (np_values v)) E.
Proof.
  induction B as [|b B IH]; intros [|e E] Hp LB LE RB RE; cbn [map map2] in *;
    try discriminate.
  - split; [constructor|reflexivity].
  - injection Hp as Hp0 Hp.
    inversion LB as [|? ? Lb LB']; inversion LE as [|? ? Le LE'];
      inversion RB as [|? ? Rb RB']; inversion RE as [|? ? Re RE']; subst.
    specialize (IH E Hp LB' LE' RB' RE').
    assert (Hv : map2 (fun x y => (x + y) mod GetModulus b) (np_values b) (np_values e)
                 = np_values b <-> Forall (fun x => x = 0) (np_values e)).
    { apply shift_values_iff; [congruence|exact Rb|].
      unfold GetModulus in *. now rewrite Hp0. }
    split.
    + intros H. injection H as H0 H1. constructor; [|now apply IH].
      apply Hv. unfold NativePoly_binop in H0.
      now apply (f_equal np_values) in H0.
    + intros H. inversion H as [|? ? E0 H']; subst.
      f_equal; [|now apply IH].
      unfold NativePoly_binop. destruct b as [pb fb xb]. cbn [np_params np_format np_values] in *.
      f_equal. now apply Hv.
Qed.

(** Adding an error term leaves a reduced polynomial as it is exactly
    when the term is zero. *)
Lemma shift_iff (params : ParmType) (b err : DCRTPoly) :
  Forall (fun p => 0 < modulus p) params ->
  DCRTPoly_GetParams b = params ->
  DCRTPoly_GetParams err = params ->
  Forall (fun v => length (np_values v) = ringDimension (np_params v)) (m_vectors b) ->
  Forall (fun v => length (np_values v) = ringDimension (np_params v)) (m_vectors err) ->
  Forall (fun v => Forall (fun x => 0 <= x < GetModulus v) (np_values v)) (m_vectors b) ->
  Forall (fun v => Forall (fun x => 0 <= x < GetModulus v) (np_values v)) (m_vectors err) ->
  DCRTPoly_binop Z.add b err = b <-> vanishes err.
Proof.
  intros _ Pb Pe Lb Le Rb Re. unfold vanishes.
  rewrite <- (shift_towers_iff (m_vectors b) (m_vectors err));
    [|unfold DCRTPoly_GetParams in *; congruence|assumption..].
  unfold DCRTPoly_binop. destruct b as [fb B]. cbn [m_format m_vectors].
  split; [intros H; now injection H|intros ->; reflexivity].
Qed.

Lemma one_times_values (q : Z) (n : nat) :
  forall ss : list Z,
    length ss = n ->
    map2 (fun x y => (x * y) mod q) (repeat 1 n)
      (map2 (fun x y => (x - y) mod q) (repeat 1 n) ss)
    = map2 (fun x y => (x - y) mod q) (repeat 1 n) ss.
Proof.
  induction n as [|n IH]; intros [|s ss]; cbn [map2 repeat length]; try discriminate;
    try reflexivity.
  intros H. f_equal; [|apply IH; congruence].
  now rewrite Z.mul_1_l, Zmod_mod.
Qed.

(** [1 * (1 - s) = 1 - s]. *)
Lemma one_times (params : ParmType) :
  forall S : list NativePoly,
    map np_params S = params ->
    Forall (fun v => length (np_values v) = ringDimension (np_params v)) S ->
    map2 (NativePoly_binop Z.mul) (m_vectors (DCRTPoly_one params))
      (map2 (NativePoly_binop Z.sub) (m_vectors (DCRTPoly_one params)) S)
    = map2 (NativePoly_binop Z.sub) (m_vectors (DCRTPoly_one params)) S.
Proof.
  induction params as [|p params IH]; intros [|s S]; cbn [map map2 DCRTPoly_one m_vectors];
    try discriminate; try reflexivity.
  intros Hp HS. injection Hp as Hp0 Hp. inversion HS as [|? ? Ls HS']; subst.
  f_equal; [|now apply IH].
  unfold NativePoly_binop, GetModulus; cbn [np_params np_format np_values].
  f_equal. now apply one_times_values.
Qed.

Lemma times_zero_values (q : Z) :
  forall xs ys : list Z,
    Forall (fun y => y = 0) ys ->
    Forall (fun z => z = 0) (map2 (fun x y => (x * y) mod q) xs ys).
Proof.
  induction xs as [|x xs IH]; intros [|y ys] H; cbn [map2]; try constructor.
  - inversion H; subst. now rewrite Z.mul_0_r, Zmod_0_l.
  - apply IH. now inversion H.
Qed.

(** [r * 0 = 0]. *)
Lemma times_vanishes (r o : DCRTPoly) : vanishes o -> vanishes (DCRTPoly_binop Z.mul r o).
Proof.
  unfold vanishes, DCRTPoly_binop; cbn [m_vectors].
  generalize (m_vectors o).
  induction (m_vectors r) as [|x R IH]; intros [|y O] H; cbn [map2]; try constructor.
  - unfold NativePoly_binop; cbn [np_values]. apply times_zero_values. now inversion H.
  - apply IH. now inversion H.
Qed.

Lemma DCRTPoly_one_on_chain (params : ParmType) :
  on_chain params EVALUATION (DCRTPoly_one params).
Proof.
  split; [reflexivity|]. split; [apply DCRTPoly_one_params|].
  unfold DCRTPoly_one; cbn [m_vectors]. apply Forall_forall.
  intros v Hv. apply in_map_iff in Hv. destruct Hv as (q & <- & _).
  cbn [np_values np_params]. apply repeat_length.
Qed.

Lemma binop_on_chain (params : ParmType) (fmt : Format) (f : Z -> Z -> Z) (a b : DCRTPoly) :
  on_chain params fmt a -> on_chain params fmt b ->
  on_chain params fmt (DCRTPoly_binop f a b).
Proof.
  intros Ha Hb.
  pose proof (on_chain_length _ _ _ Ha) as La.
  pose proof (on_chain_length _ _ _ Hb) as Lb.
  destruct Ha as (Fa & Pa & Va), Hb as (Fb & Pb & Vb).
  split; [exact Fa|]. split.
  - rewrite binop_params by congruence. exact Pa.
  - unfold DCRTPoly_binop; cbn [m_vectors].
    apply binop_values_length; [|assumption..].
    unfold DCRTPoly_GetParams in *. congruence.
Qed.

(** C9: for a ciphertext [(c0, c1)], a key [s] and a noise polynomial [r]
    on one chain in the transform domain, the randomised ciphertext
    decrypts to the old decryption plus [r * (1 - s)]:
    [(c0 + r) + (c1 - r) * s = (c0 + c1 * s) + r * (1 - s)].  With
    positive moduli the decryption is unchanged exactly when the error
    term [r * (1 - s)] is zero at every position of every tower: this is
    so for every [r] when [1 - s] is zero (in particular for [s = 1]),
    and when [1 - s] is not zero there is a noise polynomial, the
    constant 1, whose randomisation does change the decryption. *)
Theorem Randomize_decryption_identity (params : ParmType) (c0 c1 r : DCRTPoly)
    (privateKey : PrivateKey) :
  on_chain params EVALUATION c0 ->
  on_chain params EVALUATION c1 ->
  on_chain params EVALUATION r ->
  on_chain params EVALUATION (GetPrivateElement privateKey) ->
  exists c0' c1' b b' one_minus_s err,
    Plus c0 r = Ok c0' /\
    Minus c1 r = Ok c1' /\
    DecryptCore [c0; c1] privateKey = Ok b /\
    DecryptCore [c0'; c1'] privateKey = Ok b' /\
    Minus (DCRTPoly_one params) (GetPrivateElement privateKey) = Ok one_minus_s /\
    Times r one_minus_s = Ok err /\
    Plus b err = Ok b' /\
    (GetPrivateElement privateKey = DCRTPoly_one params -> b' = b) /\
    (Forall (fun p => 0 < modulus p) params ->
     (b' = b <-> vanishes err) /\
     (vanishes one_minus_s -> b' = b) /\
     (~ vanishes one_minus_s ->
      exists c0'' c1'' b'',
        Plus c0 (DCRTPoly_one params) = Ok c0'' /\
        Minus c1 (DCRTPoly_one params) = Ok c1'' /\
        DecryptCore [c0''; c1''] privateKey = Ok b'' /\
        b'' <> b)).
Proof.
  intros H0 H1 Hr Hs.
  pose proof (DCRTPoly_one_on_chain params) as Ho.
  pose proof (randomised_decryption params c0 c1 r privateKey H0 H1 Hr Hs) as Hid.
  pose proof (randomised_decryption params c0 c1 (DCRTPoly_one params) privateKey H0 H1 Ho Hs)
    as Hone.
  cbv zeta in Hid, Hone.
  set (s := GetPrivateElement privateKey) in *.
  set (b := DCRTPoly_binop Z.add c0 (DCRTPoly_binop Z.mul c1 s)) in *.
  set (oms := DCRTPoly_binop Z.sub (DCRTPoly_one params) s) in *.
  set (err := DCRTPoly_binop Z.mul r oms) in *.
  destruct Hid as (E1 & E2 & E3 & E4 & E5 & E6 & E7 & E8).
  destruct Hone as (O1 & O2 & _ & O4 & _ & _ & _ & _).
  exists (DCRTPoly_binop Z.add c0 r), (DCRTPoly_binop Z.sub c1 r), b,
         (DCRTPoly_binop Z.add b err), oms, err.
  repeat (split; [assumption|]).
  intros Hq.
  assert (Hb : on_chain params EVALUATION b)
    by (apply binop_on_chain; [assumption|now apply binop_on_chain]).
  assert (Homs : on_chain params EVALUATION oms) by now apply binop_on_chain.
  assert (Herr : on_chain params EVALUATION err) by now apply binop_on_chain.
  assert (Rb : Forall (fun v => Forall (fun x => 0 <= x < GetModulus v) (np_values v))
                      (m_vectors b)).
  { apply binop_values_reduced. destruct H0 as (_ & -> & _). exact Hq. }
  assert (RomS : Forall (fun v => Forall (fun x => 0 <= x < GetModulus v) (np_values v))
                        (m_vectors oms)).
  { apply binop_values_reduced. rewrite DCRTPoly_one_params. exact Hq. }
  assert (Rerr : Forall (fun v => Forall (fun x => 0 <= x < GetModulus v) (np_values v))
                        (m_vectors err)).
  { apply binop_values_reduced. destruct Hr as (_ & -> & _). exact Hq. }
  destruct Hb as (Fb & Pb & Vb), Homs as (Fo & Po & Vo), Herr as (Fe & Pe & Ve).
  pose proof (shift_iff params b err Hq Pb Pe Vb Ve Rb Rerr) as Hiff.
  pose proof (shift_iff params b oms Hq Pb Po Vb Vo Rb RomS) as Hiff1.
  split; [exact Hiff|]. split.
  - intros Hv. apply Hiff. now apply times_vanishes.
  - intros Hnv.
    assert (Ht : DCRTPoly_binop Z.mul (DCRTPoly_one params) oms = oms).
    { unfold oms at 1 2. unfold DCRTPoly_binop; cbn [m_format m_vectors]. f_equal.
      destruct Hs as (_ & Ps & Vs). apply one_times; assumption. }
    rewrite Ht in O4.
    do 3 eexists. split; [exact O1|]. split; [exact O2|]. split; [exact O4|].
    intros Heq. apply Hnv. now apply Hiff1.
Qed.

(** ** The sparse ternary secret key *)

(** C10: under the sparse ternary distribution key generation succeeds
    and the secret polynomial is the draw of the ternary generator with
    Hamming weight 192 on the public-key chain, whatever the other scheme
    parameters and the [makeSparse] flag are: this draw is the [s] of the
    public key's [b = noiseScale * e - a * s], and the returned secret
    key is this draw, without its last [sizePK - sizeQ] towers when the
    public-key chain is the longer one; for chains that fit the machine
    integers it is the same draw on the first towers of the public-key
    chain. *)
Theorem KeyGenInternal_sparse_ternary_192 (cc : CryptoContext) (makeSparse : bool) (k : nat) :
  let cp := GetCryptoParameters cc in
  let paramsPK := GetParamsPK cp in
  let s := sampled (TUG 192) paramsPK EVALUATION (k + 1) in
  let a := sampled DUG paramsPK EVALUATION (k + 2) in
  let e := sampled DGG paramsPK EVALUATION (k + 3) in
  let sizeQ := usint (Z.of_nat (length (working_chain cp))) in
  let sizePK := usint (Z.of_nat (length paramsPK)) in
  GetSecretKeyDist cp = SPARSE_TERNARY ->
  exists kp a_s b,
    KeyGenInternal cc makeSparse k = Ok (kp, (k + 4)%nat) /\
    KeyGenInternal cc (negb makeSparse) k = Ok (kp, (k + 4)%nat) /\
    GetPrivateElement (secretKey kp)
    = (if sizePK >? sizeQ
       then DropLastElements (Z.to_nat (usint (sizePK - sizeQ))) s
       else s) /\
    Times a s = Ok a_s /\
    Minus (ScalarTimes (GetNoiseScale cp) e) a_s = Ok b /\
    GetPublicElements (publicKey kp) = [b; a] /\
    (Z.of_nat (length paramsPK) < 2 ^ 32 ->
     Z.of_nat (length (working_chain cp)) < 2 ^ 32 ->
     GetPrivateElement (secretKey kp)
     = sampled (TUG 192)
         (firstn (Nat.min (length (working_chain cp)) (length paramsPK)) paramsPK)
         EVALUATION (k + 1)).
Proof.
  intros cp paramsPK s a e sizeQ sizePK Hd.
  assert (Hg : secret_generator (GetSecretKeyDist (GetCryptoParameters cc)) = Some (TUG 192))
    by (fold cp; now rewrite Hd).
  pose proof (KeyGenInternal_supported cc makeSparse k _ Hg) as Hk.
  pose proof (KeyGenInternal_supported cc (negb makeSparse) k _ Hg) as Hk'.
  cbv zeta in Hk, Hk'. fold cp in Hk, Hk'. fold paramsPK in Hk, Hk'.
  subst s a e.
  replace (k + 1)%nat with (S k) by lia.
  replace (k + 2)%nat with (S (S k)) by lia.
  replace (k + 3)%nat with (S (S (S k))) by lia.
  replace (k + 4)%nat with (S (S (S (S k)))) by lia.
  set (s := sampled (TUG 192) paramsPK EVALUATION (S k)) in *.
  set (a := sampled DUG paramsPK EVALUATION (S (S k))) in *.
  set (e := sampled DGG paramsPK EVALUATION (S (S (S k)))) in *.
  fold sizeQ in Hk, Hk'. fold sizePK in Hk, Hk'.
  assert (Ls : length (m_vectors s) = length paramsPK) by apply sampled_length.
  assert (La : length (m_vectors a) = length paramsPK) by apply sampled_length.
  assert (Le : length (m_vectors e) = length paramsPK) by apply sampled_length.
  eexists. exists (DCRTPoly_binop Z.mul a s).
  exists (DCRTPoly_binop Z.sub (ScalarTimes (GetNoiseScale cp) e) (DCRTPoly_binop Z.mul a s)).
  split; [exact Hk|]. split; [exact Hk'|].
  cbn [publicKey secretKey GetPublicElements GetPrivateElement].
  split; [reflexivity|]. split; [apply checked_binop_ok; [congruence|reflexivity]|].
  split; [apply checked_binop_ok;
          [rewrite ScalarTimes_length, binop_length; congruence|reflexivity]|].
  split; [reflexivity|].
  intros HPK HW. subst sizeQ sizePK. unfold usint.
  rewrite !(Z.mod_small (Z.of_nat _)) by lia.
  destruct (Z.gtb_spec (Z.of_nat (length paramsPK)) (Z.of_nat (length (working_chain cp))))
    as [Hgt|Hle].
  - rewrite Z.mod_small by lia. subst s. rewrite DropLastElements_sampled.
    do 2 f_equal. lia.
  - rewrite Nat.min_r by lia. now rewrite firstn_all.
Qed.
End PKE.

(** * The theorems at work on the small parameter set *)

Lemma KeyGenInternal_public_key_witness :
  secret_generator (GetSecretKeyDist (GetCryptoParameters (small_cc GAUSSIAN))) = Some DGG /\
  let cp := GetCryptoParameters (small_cc GAUSSIAN) in
  let paramsPK := GetParamsPK cp in
  let s := sampled small_rnd DGG paramsPK EVALUATION 1 in
  let a := sampled small_rnd DUG paramsPK EVALUATION 2 in
  let e := sampled small_rnd DGG paramsPK EVALUATION 3 in
  exists a_s b kp,
    Times a s = Ok a_s /\
    Minus (ScalarTimes (GetNoiseScale cp) e) a_s = Ok b /\
    KeyGenInternal small_rnd (small_cc GAUSSIAN) false 0%nat = Ok (kp, 4%nat) /\
    GetPublicElements (publicKey kp) = [b; a] /\
    Forall (fun p => m_format p = EVALUATION /\ DCRTPoly_GetParams p = paramsPK) [s; a; e; b].
Proof.
  split; [reflexivity|].
  exact (KeyGenInternal_public_key small_rnd (small_cc GAUSSIAN) false 0%nat DGG eq_refl).
Defined.

Lemma KeyGenInternal_unsupported_distribution_witness :
  secret_generator (GetSecretKeyDist (GetCryptoParameters (small_cc (OTHER_DIST 7)))) = None /\
  GetParamsPK (GetCryptoParameters (small_cc (OTHER_DIST 7))) <> [] /\
  KeyGenInternal small_rnd (small_cc (OTHER_DIST 7)) true 0%nat = Throw tower_size_mismatch.
Proof.
  split; [reflexivity|split; [discriminate|]].
  apply (KeyGenInternal_unsupported_distribution small_rnd (small_cc (OTHER_DIST 7)) true 0%nat);
    [reflexivity|discriminate].
Defined.

(** C4, as stated, fails under the extended encryption technique: with a
    one-prime primary chain, a two-prime extended chain and a three-prime
    public-key chain the returned secret key has two towers, not one. *)
Lemma KeyGenInternal_secret_not_primary_sized :
  exists kp k',
    KeyGenInternal small_rnd small_cc_extended false 0%nat = Ok (kp, k') /\
    (length (GetElementParams (GetCryptoParameters small_cc_extended))
     < length (GetParamsPK (GetCryptoParameters small_cc_extended)))%nat /\
    length (GetElementParams (GetCryptoParameters small_cc_extended)) = 1%nat /\
    GetNumOfElements (GetPrivateElement (secretKey kp)) = 2%nat.
Proof.
  eexists; eexists; split; [vm_compute; reflexivity|].
  split; [simpl; lia|split; reflexivity].
Qed.

Lemma KeyGenInternal_secret_truncated_witness :
  secret_generator (GetSecretKeyDist (GetCryptoParameters small_cc_extended)) = Some (TUG 0) /\
  let cp := GetCryptoParameters small_cc_extended in
  let paramsPK := GetParamsPK cp in
  Z.of_nat (length paramsPK) < 2 ^ 32 /\
  (length (working_chain cp) < length paramsPK)%nat /\
  exists kp k' b a,
    KeyGenInternal small_rnd small_cc_extended true 5%nat = Ok (kp, k') /\
    GetPrivateElement (secretKey kp)
    = DropLastElements (length paramsPK - length (working_chain cp))
        (sampled small_rnd (TUG 0) paramsPK EVALUATION 6) /\
    DCRTPoly_GetParams (GetPrivateElement (secretKey kp))
    = firstn (length (working_chain cp)) paramsPK /\
    GetNumOfElements (GetPrivateElement (secretKey kp)) = length (working_chain cp) /\
    GetPublicElements (publicKey kp) = [b; a] /\
    DCRTPoly_GetParams b = paramsPK /\
    DCRTPoly_GetParams a = paramsPK.
Proof.
  split; [reflexivity|].
  split; [reflexivity|split; [simpl; lia|]].
  apply (KeyGenInternal_secret_truncated small_rnd small_cc_extended true 5%nat (TUG 0) eq_refl);
    [reflexivity|simpl; lia].
Defined.

(** ** The small instance meets the assumptions of the round trip *)

Lemma small_transform_correct (chain : ParmType) :
  incl chain [tower17; tower97; tower113] ->
  transform_correct small_ntt small_intt chain.
Proof.
  intros Hin p Hp. apply Hin in Hp.
  assert (Hq : 2 < modulus p /\ ringDimension p = 2%nat /\
               (2 * Z.invmod 2 (modulus p)) mod modulus p = 1 /\
               (2 * rootOfUnity p * Z.invmod (2 * rootOfUnity p) (modulus p)) mod modulus p = 1).
  { destruct Hp as [<-|[<-|[<-|[]]]]; vm_compute; repeat split; reflexivity. }
  destruct Hq as (Hq & Hn & Hi2 & Hiw).
  split.
  - intros xs Hl Hr. rewrite Hn in Hl.
    destruct xs as [|a0 [|a1 [|? ?]]]; try discriminate.
    inversion Hr as [|? ? R0 Hr']; inversion Hr' as [|? ? R1 _]; subst.
    unfold small_ntt, small_intt.
    set (q := modulus p) in *. set (w := rootOfUnity p) in *.
    f_equal; [|f_equal].
    + rewrite <- (Z.mod_small a0 q) at 3 by lia.
      rewrite <- (Z.mul_1_r a0) at 3. rewrite <- Hi2.
      rewrite Zmult_mod_idemp_r.
      rewrite <- Zmult_mod_idemp_l, <- Zplus_mod, Zmult_mod_idemp_l.
      f_equal. ring.
    + rewrite <- (Z.mod_small a1 q) at 3 by lia.
      rewrite <- (Z.mul_1_r a1) at 3. rewrite <- Hiw.
      rewrite Zmult_mod_idemp_r.
      rewrite <- Zmult_mod_idemp_l, <- Zminus_mod, Zmult_mod_idemp_l.
      f_equal. ring.
  - intros xs. unfold small_intt. rewrite Hn.
    destruct xs as [|y0 [|y1 [|? ?]]]; cbn [repeat length];
      (split; [reflexivity|]); repeat constructor; try lia;
      apply Z.mod_pos_bound; lia.
Qed.

Lemma towers_of_params (params : ParmType) (f : nat -> ILNativeParams -> list Z) :
  DCRTPoly_GetParams (towers_of params f) = params.
Proof.
  unfold DCRTPoly_GetParams, towers_of; cbn [m_vectors].
  rewrite map_map; cbn [np_params].
  generalize 0%nat. induction params as [|p ps IH]; intros s; [reflexivity|].
  cbn [length seq combine map snd]. now rewrite IH.
Qed.

Lemma small_zero_priv_contract (privateKey : PrivateKey) :
  zero_encryption_at (small_zero_priv privateKey).
Proof.
  intros params k. unfold small_zero_priv.
  do 3 eexists. split; [reflexivity|].
  rewrite !towers_of_params. repeat split; reflexivity.
Qed.

Lemma small_zero_pub_contract (publicKey : PublicKey) :
  zero_encryption_at (small_zero_pub publicKey).
Proof.
  intros params k. unfold small_zero_pub.
  do 3 eexists. split; [reflexivity|].
  rewrite !towers_of_params. repeat split; reflexivity.
Qed.

Ltac small_valid :=
  unfold valid_parameters, valid_chain;
  cbv [GetCryptoParameters small_cc_three small_cc_single small_cc small_params GetElementParams
       GetParamsQr GetParamsPK GetPlaintextModulus GetModuliQ map modulus ringDimension
       tower17 tower97 tower113 length coprime_chain];
  repeat match goal with
         | |- _ /\ _ => split
         | |- Forall _ _ => constructor
         | |- _ <> _ => discriminate
         | |- (_ <= _)%nat => apply Nat.leb_le; reflexivity
         | |- _ = _ => reflexivity
         | |- _ < _ => reflexivity
         | |- True => exact I
         end.

Lemma small_cc_three_valid : valid_parameters 2 (GetCryptoParameters small_cc_three).
Proof. small_valid. Qed.

Lemma small_cc_single_valid : valid_parameters 2 (GetCryptoParameters small_cc_single).
Proof. small_valid. Qed.

(** ** Encryption, decryption and the randomisation block at work *)

Lemma Decrypt_Encrypt_within_margin_witness :
  let cp := GetCryptoParameters small_cc_three in
  let ptxt := SetFormat small_ntt small_intt EVALUATION
                (plaintext_on [1; 3] (firstn 2 (GetElementParams cp))) in
  exists kp k1 ct k' vs,
    KeyGenInternal small_rnd small_cc_three false 0%nat = Ok (kp, k1) /\
    Encrypt_priv small_ntt small_intt small_zero_priv ptxt (secretKey kp) k1 = Ok (ct, k') /\
    GetNumOfElements (hd DCRTPoly_default (GetElements ct)) = 2%nat /\
    noise small_ntt small_intt ct (secretKey kp) 7 [1; 3] = Ok vs /\
    Forall2 (within_margin cp [17; 97]) vs [1; 3] /\
    exists plaintext,
      Decrypt small_ntt small_intt ct (secretKey kp)
      = Ok (plaintext, {| isValid := true; messageLength := 2 |}) /\
      np_values plaintext = [1; 3] /\ GetModulus plaintext = 7.
Proof.
  intros cp ptxt.
  do 5 eexists.
  split; [vm_compute; reflexivity|].
  split; [vm_compute; reflexivity|].
  split; [reflexivity|].
  split; [vm_compute; reflexivity|].
  split; [repeat constructor|].
  assert (Hsize : (0 < 2 <= length (GetElementParams cp))%nat) by (cbn; lia).
  assert (Hrange : Forall (fun x => 0 <= x < GetPlaintextModulus cp) [1; 3])
    by (repeat constructor; cbn; lia).
  match goal with
  | |- exists plaintext, Decrypt _ _ ?ct (secretKey ?kp) = _ /\ _ =>
      destruct (Decrypt_Encrypt_within_margin small_rnd small_ntt small_intt
                  small_zero_priv small_zero_pub 2 small_cc_three false 0 4 4 kp [1; 3] 2
                  EVALUATION
                  (Encrypt_priv small_ntt small_intt small_zero_priv ptxt (secretKey kp))
                  small_cc_three_valid
                  (small_transform_correct _ (incl_refl _))
                  small_zero_priv_contract small_zero_pub_contract
                  eq_refl Hsize eq_refl Hrange (or_introl eq_refl))
        as (ct' & k'' & b & vs' & Henc & Hcore & Hnoise & Hdec)
  end.
  vm_compute in Henc. injection Henc as <- <-.
  vm_compute in Hcore. injection Hcore as <-.
  vm_compute in Hnoise. injection Hnoise as <-.
  apply Hdec. repeat constructor.
Defined.

(** C1, as stated, fails when the noise is only below half of each
    modulus: on the one-prime chain [17] with [t = 7] the plaintext
    [(1, 3)] is encrypted with noise [(2, 5)], below [17 / 2], and
    decrypts to [(2, 5)]. *)
Lemma Decrypt_Encrypt_below_half_moduli :
  let cp := GetCryptoParameters small_cc_single in
  let ptxt := SetFormat small_ntt small_intt EVALUATION
                (plaintext_on [1; 3] (GetElementParams cp)) in
  valid_parameters 2 cp /\
  exists kp k1 ct k' b plaintext,
    KeyGenInternal small_rnd small_cc_single false 0%nat = Ok (kp, k1) /\
    Encrypt_priv small_ntt small_intt small_zero_priv ptxt (secretKey kp) k1 = Ok (ct, k') /\
    DecryptCore (GetElements ct) (secretKey kp) = Ok b /\
    moduli b = [17] /\
    noise small_ntt small_intt ct (secretKey kp) 7 [1; 3] = Ok [2; 5] /\
    Forall (below_half_moduli (moduli b)) [2; 5] /\
    Decrypt small_ntt small_intt ct (secretKey kp)
    = Ok (plaintext, {| isValid := true; messageLength := 2 |}) /\
    np_values plaintext = [2; 5].
Proof.
  intros cp ptxt. split; [exact small_cc_single_valid|].
  do 6 eexists.
  split; [vm_compute; reflexivity|].
  split; [vm_compute; reflexivity|].
  split; [vm_compute; reflexivity|].
  split; [reflexivity|].
  split; [vm_compute; reflexivity|].
  split; [repeat constructor|].
  split; [vm_compute; reflexivity|reflexivity].
Qed.

Lemma Encrypt_priv_pub_agree_witness :
  let cc := small_cc UNIFORM_TERNARY in
  let ptxt := SetFormat small_ntt small_intt EVALUATION
                (plaintext_on [1; 3] (GetElementParams (GetCryptoParameters cc))) in
  sk_context (small_sk cc) = pk_context (small_pk cc) /\
  sk_keyTag (small_sk cc) = pk_keyTag (small_pk cc) /\
  small_zero_priv (small_sk cc)
    (encryption_chain (GetCryptoParameters (sk_context (small_sk cc))) ptxt) 0%nat
  = small_zero_pub (small_pk cc)
      (encryption_chain (GetCryptoParameters (pk_context (small_pk cc))) ptxt) 0%nat /\
  (exists ct k',
     Encrypt_priv small_ntt small_intt small_zero_priv ptxt (small_sk cc) 0%nat = Ok (ct, k')) /\
  Encrypt_priv small_ntt small_intt small_zero_priv ptxt (small_sk cc) 0%nat
  = Encrypt_pub small_ntt small_intt small_zero_pub ptxt (small_pk cc) 0%nat /\
  forall ct1 k1 ct2 k2 key,
    Encrypt_priv small_ntt small_intt small_zero_priv ptxt (small_sk cc) 0%nat = Ok (ct1, k1) ->
    Encrypt_pub small_ntt small_intt small_zero_pub ptxt (small_pk cc) 0%nat = Ok (ct2, k2) ->
    Decrypt small_ntt small_intt ct1 key = Decrypt small_ntt small_intt ct2 key.
Proof.
  intros cc ptxt.
  assert (Hzero : small_zero_priv (small_sk cc)
                    (encryption_chain (GetCryptoParameters (sk_context (small_sk cc))) ptxt) 0%nat
                  = small_zero_pub (small_pk cc)
                      (encryption_chain (GetCryptoParameters (pk_context (small_pk cc))) ptxt)
                      0%nat)
    by (vm_compute; reflexivity).
  split; [reflexivity|split; [reflexivity|split; [exact Hzero|]]].
  split; [do 2 eexists; vm_compute; reflexivity|].
  exact (Encrypt_priv_pub_agree small_ntt small_intt small_zero_priv small_zero_pub ptxt
           (small_sk cc) (small_pk cc) 0%nat eq_refl eq_refl Hzero).
Defined.

Lemma Decrypt_reduced_level_witness :
  let sk := small_sk small_cc_three in
  let cp := GetCryptoParameters (sk_context sk) in
  let ptxt := SetFormat small_ntt small_intt EVALUATION
                (plaintext_on [1; 3] [tower17; tower97]) in
  exists ct k' b,
    Encrypt_priv small_ntt small_intt small_zero_priv ptxt sk 0%nat = Ok (ct, k') /\
    DecryptCore (GetElements ct) sk = Ok b /\
    (0 < GetNumOfElements b < length (GetElementParams cp))%nat /\
    Z.of_nat (length (GetElementParams cp)) < 2 ^ 64 /\
    exists b1 v plaintext,
      drop_until_one small_ntt small_intt (GetNumOfElements b) b = Ok b1 /\
      m_vectors b1 = [v] /\
      m_format (SetFormat small_ntt small_intt COEFFICIENT b1) = COEFFICIENT /\
      reduced_precision_decode small_ntt small_intt (GetPlaintextModulus cp) b = Ok plaintext /\
      GetModulus plaintext = GetPlaintextModulus cp /\
      rootOfUnity (np_params plaintext) = 1 /\
      Decrypt small_ntt small_intt ct sk
      = Ok (plaintext, {| isValid := true; messageLength := GetLength plaintext |}).
Proof.
  intros sk cp ptxt.
  do 3 eexists.
  split; [vm_compute; reflexivity|].
  match goal with
  | |- DecryptCore (GetElements ?ct) _ = Ok ?b /\ _ =>
      assert (Hb : DecryptCore (GetElements ct) sk = Ok b) by (vm_compute; reflexivity)
  end.
  split; [exact Hb|].
  assert (Hn : forall b n, GetNumOfElements b = n -> (0 < n < 3)%nat ->
                 (0 < GetNumOfElements b < length (GetElementParams cp))%nat)
    by (intros ? ? -> ?; exact H).
  match type of Hb with
  | _ = Ok ?b =>
      assert (Hlev : (0 < GetNumOfElements b < length (GetElementParams cp))%nat)
        by (apply (Hn b 2%nat eq_refl); lia)
  end.
  assert (Hbound : Z.of_nat (length (GetElementParams cp)) < 2 ^ 64) by reflexivity.
  split; [exact Hlev|split; [exact Hbound|]].
  exact (Decrypt_reduced_level small_ntt small_intt _ sk _ Hb Hlev Hbound).
Defined.

Lemma Randomize_frame_witness :
  let c0 := towers_of [tower17; tower97] (fun _ _ => [5; 6]) in
  let c1 := towers_of [tower17; tower97] (fun _ _ => [3; 4]) in
  let c2 := towers_of [tower17; tower97] (fun _ _ => [7; 8]) in
  let r := noise_polynomial small_rnd small_ntt small_intt 4%nat (DCRTPoly_GetParams c0) in
  GetElements small_ct = [c0; c1; c2] /\
  m_format c0 = EVALUATION /\ m_format c1 = EVALUATION /\
  GetNumOfElements c1 = GetNumOfElements c0 /\
  exists c0' c1' ct',
    Plus c0 r = Ok c0' /\
    Minus c1 r = Ok c1' /\
    Randomize small_rnd small_ntt small_intt small_ct 4%nat = Ok (ct', (4 + GetNumOfElements c0)%nat) /\
    GetElements ct' = [c0'; c1'; c2] /\
    m_format r = EVALUATION /\
    DCRTPoly_GetParams r = DCRTPoly_GetParams c0 /\
    GetLevel ct' = GetLevel small_ct /\
    GetNoiseScaleDeg ct' = GetNoiseScaleDeg small_ct /\
    ct_keyTag ct' = ct_keyTag small_ct /\ ct_context ct' = ct_context small_ct.
Proof.
  intros c0 c1 c2 r.
  split; [reflexivity|split; [reflexivity|split; [reflexivity|split; [reflexivity|]]]].
  exact (Randomize_frame small_rnd small_ntt small_intt small_ct c0 c1 [c2] 4%nat
           eq_refl eq_refl eq_refl eq_refl).
Defined.

Lemma KeyGenInternal_infallible_witness :
  let cc := small_cc SPARSE_TERNARY in
  (GetSecretKeyDist (GetCryptoParameters cc) = GAUSSIAN \/
   GetSecretKeyDist (GetCryptoParameters cc) = UNIFORM_TERNARY \/
   GetSecretKeyDist (GetCryptoParameters cc) = SPARSE_TERNARY) /\
  exists kp,
    KeyGenInternal small_rnd cc false 7%nat = Ok (kp, (7 + 4)%nat) /\
    KeyGenInternal small_rnd cc (negb false) 7%nat = Ok (kp, (7 + 4)%nat) /\
    pk_context (publicKey kp) = cc /\
    sk_context (secretKey kp) = cc /\
    pk_keyTag (publicKey kp) = sk_keyTag (secretKey kp) /\
    length (GetPublicElements (publicKey kp)) = 2%nat.
Proof.
  intros cc.
  assert (Hdist : GetSecretKeyDist (GetCryptoParameters cc) = GAUSSIAN \/
                  GetSecretKeyDist (GetCryptoParameters cc) = UNIFORM_TERNARY \/
                  GetSecretKeyDist (GetCryptoParameters cc) = SPARSE_TERNARY)
    by (right; right; reflexivity).
  split; [exact Hdist|].
  exact (KeyGenInternal_infallible small_rnd cc false 7%nat Hdist).
Defined.

Lemma Encrypt_two_components_degree_one_witness :
  let cc := small_cc_extended in
  let ptxt := SetFormat small_ntt small_intt EVALUATION
                (plaintext_on [1; 3] (GetElementParams (GetCryptoParameters cc))) in
  zero_encryption_at (small_zero_priv (small_sk cc)) /\
  zero_encryption_at (small_zero_pub (small_pk cc)) /\
  (exists ct k' c0 c1,
     Encrypt_priv small_ntt small_intt small_zero_priv ptxt (small_sk cc) 0%nat = Ok (ct, k') /\
     GetElements ct = [c0; c1] /\
     m_format c0 = EVALUATION /\ m_format c1 = EVALUATION /\
     DCRTPoly_GetParams c0
     = ciphertext_chain (GetCryptoParameters (sk_context (small_sk cc))) ptxt /\
     DCRTPoly_GetParams c1
     = ciphertext_chain (GetCryptoParameters (sk_context (small_sk cc))) ptxt /\
     GetNoiseScaleDeg ct = 1 /\
     ct_keyTag ct = sk_keyTag (small_sk cc) /\
     ct_context ct = sk_context (small_sk cc)) /\
  (exists ct k' c0 c1,
     Encrypt_pub small_ntt small_intt small_zero_pub ptxt (small_pk cc) 0%nat = Ok (ct, k') /\
     GetElements ct = [c0; c1] /\
     m_format c0 = EVALUATION /\ m_format c1 = EVALUATION /\
     DCRTPoly_GetParams c0
     = ciphertext_chain (GetCryptoParameters (pk_context (small_pk cc))) ptxt /\
     DCRTPoly_GetParams c1
     = ciphertext_chain (GetCryptoParameters (pk_context (small_pk cc))) ptxt /\
     GetNoiseScaleDeg ct = 1 /\
     ct_keyTag ct = pk_keyTag (small_pk cc) /\
     ct_context ct = pk_context (small_pk cc)).
Proof.
  intros cc ptxt.
  split; [apply small_zero_priv_contract|split; [apply small_zero_pub_contract|]].
  exact (Encrypt_two_components_degree_one small_ntt small_intt small_zero_priv small_zero_pub
           ptxt (small_sk cc) (small_pk cc) 0%nat
           (small_zero_priv_contract _) (small_zero_pub_contract _)).
Defined.

Lemma Decrypt_returns_length_witness :
  let sk := small_sk (small_cc UNIFORM_TERNARY) in
  let cp := GetCryptoParameters (sk_context sk) in
  let ptxt := plaintext_on [1; 3] (GetElementParams cp) in
  exists ct k' b,
    Encrypt_priv small_ntt small_intt small_zero_priv ptxt sk 0%nat = Ok (ct, k') /\
    DecryptCore (GetElements ct) sk = Ok b /\
    (0 < GetNumOfElements b <= length (GetElementParams cp))%nat /\
    Z.of_nat (length (GetElementParams cp)) < 2 ^ 64 /\
    exists plaintext,
      Decrypt small_ntt small_intt ct sk
      = Ok (plaintext, {| isValid := true; messageLength := GetLength plaintext |}).
Proof.
  intros sk cp ptxt.
  do 3 eexists.
  split; [vm_compute; reflexivity|].
  match goal with
  | |- DecryptCore (GetElements ?ct) _ = Ok ?b /\ _ =>
      assert (Hb : DecryptCore (GetElements ct) sk = Ok b) by (vm_compute; reflexivity)
  end.
  split; [exact Hb|].
  match type of Hb with
  | _ = Ok ?b =>
      assert (Hlev : (0 < GetNumOfElements b <= length (GetElementParams cp))%nat)
        by (change (0 < 2 <= 2)%nat; lia)
  end.
  assert (Hbound : Z.of_nat (length (GetElementParams cp)) < 2 ^ 64) by reflexivity.
  split; [exact Hlev|split; [exact Hbound|]].
  exact (Decrypt_returns_length small_ntt small_intt _ sk _ Hb Hlev Hbound).
Defined.

(** ** The further properties at work on the small instance *)

Lemma small_ntt_length (p : ILNativeParams) (xs : list Z) :
  length (small_ntt p xs) = length xs.
Proof. destruct xs as [|a [|b [|c l]]]; reflexivity. Qed.

Lemma small_transform_undone (chain : ParmType) :
  incl chain [tower17; tower97; tower113] ->
  transform_undone small_ntt small_intt chain.
Proof.
  intros Hin p Hp xs Hl Hr. apply Hin in Hp.
  assert (Hn : ringDimension p = 2%nat) by (destruct Hp as [<-|[<-|[<-|[]]]]; reflexivity).
  rewrite Hn in Hl.
  destruct xs as [|y0 [|y1 [|? ?]]]; try discriminate.
  inversion Hr as [|? ? R0 Hr']; inversion Hr' as [|? ? R1 _]; subst.
  destruct Hp as [<-|[<-|[<-|[]]]];
    cbv [small_ntt small_intt tower17 tower97 tower113 modulus rootOfUnity] in *;
    match goal with
    | |- context [Z.invmod ?a ?b] =>
        let v := eval vm_compute in (Z.invmod a b) in change (Z.invmod a b) with v
    end;
    match goal with
    | |- context [Z.invmod ?a ?b] =>
        let v := eval vm_compute in (Z.invmod a b) in change (Z.invmod a b) with v
    end;
    (f_equal; [|f_equal]); Z.to_euclidean_division_equations; lia.
Qed.

Lemma small_chain_incl : incl [tower17; tower97] [tower17; tower97; tower113].
Proof. intros x [<-|[<-|[]]]; simpl; auto. Qed.

Lemma Randomize_keeps_sum_witness :
  let params := [tower17; tower97] in
  let c0 := towers_of params (fun _ _ => [5; 6]) in
  let c1 := towers_of params (fun _ _ => [3; 4]) in
  let c2 := towers_of params (fun _ _ => [7; 8]) in
  GetElements small_ct = [c0; c1; c2] /\
  on_chain params EVALUATION c0 /\
  on_chain params EVALUATION c1 /\
  (forall p xs, In p params -> length (small_ntt p xs) = length xs) /\
  exists ct' c0' c1' total,
    Randomize small_rnd small_ntt small_intt small_ct 4%nat = Ok (ct', (4 + length params)%nat) /\
    GetElements ct' = [c0'; c1'; c2] /\
    Plus c0 c1 = Ok total /\
    Plus c0' c1' = Ok total.
Proof.
  intros params c0 c1 c2.
  assert (H0 : on_chain params EVALUATION c0) by (repeat split; repeat constructor).
  assert (H1 : on_chain params EVALUATION c1) by (repeat split; repeat constructor).
  assert (Hntt : forall p xs, In p params -> length (small_ntt p xs) = length xs)
    by (intros p xs _; apply small_ntt_length).
  split; [reflexivity|split; [exact H0|split; [exact H1|split; [exact Hntt|]]]].
  exact (Randomize_keeps_sum small_rnd small_ntt small_intt params small_ct c0 c1 [c2] 4%nat
           eq_refl H0 H1 Hntt).
Defined.

Lemma Randomize_twice_witness :
  let params := [tower17; tower97] in
  let c0 := towers_of params (fun _ _ => [5; 6]) in
  let c1 := towers_of params (fun _ _ => [3; 4]) in
  let c2 := towers_of params (fun _ _ => [7; 8]) in
  let r1 := noise_polynomial small_rnd small_ntt small_intt 4%nat params in
  let r2 := noise_polynomial small_rnd small_ntt small_intt (4 + 2)%nat params in
  GetElements small_ct = [c0; c1; c2] /\
  on_chain params EVALUATION c0 /\
  on_chain params EVALUATION c1 /\
  (forall p xs, In p params -> length (small_ntt p xs) = length xs) /\
  exists ct1 ct2 r12 c0'' c1'',
    Randomize small_rnd small_ntt small_intt small_ct 4%nat = Ok (ct1, (4 + 2)%nat) /\
    Randomize small_rnd small_ntt small_intt ct1 (4 + 2)%nat = Ok (ct2, (4 + 2 + 2)%nat) /\
    Plus r1 r2 = Ok r12 /\
    Plus c0 r12 = Ok c0'' /\
    Minus c1 r12 = Ok c1'' /\
    GetElements ct2 = [c0''; c1''; c2] /\
    GetLevel ct2 = GetLevel small_ct /\
    GetNoiseScaleDeg ct2 = GetNoiseScaleDeg small_ct /\
    ct_keyTag ct2 = ct_keyTag small_ct /\
    ct_context ct2 = ct_context small_ct.
Proof.
  intros params c0 c1 c2 r1 r2.
  assert (H0 : on_chain params EVALUATION c0) by (repeat split; repeat constructor).
  assert (H1 : on_chain params EVALUATION c1) by (repeat split; repeat constructor).
  assert (Hntt : forall p xs, In p params -> length (small_ntt p xs) = length xs)
    by (intros p xs _; apply small_ntt_length).
  split; [reflexivity|split; [exact H0|split; [exact H1|split; [exact Hntt|]]]].
  exact (Randomize_twice small_rnd small_ntt small_intt params small_ct c0 c1 [c2] 4%nat
           eq_refl H0 H1 Hntt).
Defined.

Lemma KeyGenInternal_key_relation_witness :
  let cc := small_cc_extended in
  let cp := GetCryptoParameters cc in
  let paramsPK := GetParamsPK cp in
  let e := sampled small_rnd DGG paramsPK EVALUATION (0 + 3) in
  (GetSecretKeyDist cp = GAUSSIAN \/
   GetSecretKeyDist cp = UNIFORM_TERNARY \/
   GetSecretKeyDist cp = SPARSE_TERNARY) /\
  Z.of_nat (length paramsPK) < 2 ^ 32 /\
  Z.of_nat (length (working_chain cp)) < 2 ^ 32 /\
  Nat.min (length (working_chain cp)) (length paramsPK) = 2%nat /\
  exists kp b a a_s,
    KeyGenInternal small_rnd cc false 0%nat = Ok (kp, (0 + 4)%nat) /\
    GetPublicElements (publicKey kp) = [b; a] /\
    GetNumOfElements (GetPrivateElement (secretKey kp)) = 2%nat /\
    Times (DropLastElements (3 - 2) a) (GetPrivateElement (secretKey kp)) = Ok a_s /\
    Plus (DropLastElements (3 - 2) b) a_s
    = Ok (DropLastElements (3 - 2) (ScalarTimes (GetNoiseScale cp) e)).
Proof.
  intros cc cp paramsPK e.
  assert (Hdist : GetSecretKeyDist cp = GAUSSIAN \/
                  GetSecretKeyDist cp = UNIFORM_TERNARY \/
                  GetSecretKeyDist cp = SPARSE_TERNARY) by (right; left; reflexivity).
  assert (HPK : Z.of_nat (length paramsPK) < 2 ^ 32) by reflexivity.
  assert (HW : Z.of_nat (length (working_chain cp)) < 2 ^ 32) by reflexivity.
  split; [exact Hdist|split; [exact HPK|split; [exact HW|split; [reflexivity|]]]].
  exact (KeyGenInternal_key_relation small_rnd cc false 0%nat Hdist HPK HW).
Defined.

Lemma Encrypt_either_domain_witness :
  let cc := small_cc UNIFORM_TERNARY in
  let p := plaintext_on [1; 3] [tower17; tower97] in
  reduced_form COEFFICIENT p /\
  transform_correct small_ntt small_intt (DCRTPoly_GetParams p) /\
  Encrypt_priv small_ntt small_intt small_zero_priv
    (SetFormat small_ntt small_intt EVALUATION p) (small_sk cc) 0%nat
  = Encrypt_priv small_ntt small_intt small_zero_priv p (small_sk cc) 0%nat /\
  Encrypt_pub small_ntt small_intt small_zero_pub
    (SetFormat small_ntt small_intt EVALUATION p) (small_pk cc) 0%nat
  = Encrypt_pub small_ntt small_intt small_zero_pub p (small_pk cc) 0%nat.
Proof.
  intros cc p.
  assert (Hp : reduced_form COEFFICIENT p).
  { split; [reflexivity|]. repeat constructor; cbn; lia. }
  assert (Htc : transform_correct small_ntt small_intt (DCRTPoly_GetParams p))
    by (apply small_transform_correct, small_chain_incl).
  split; [exact Hp|split; [exact Htc|]].
  exact (Encrypt_either_domain small_ntt small_intt small_zero_priv small_zero_pub p
           (small_sk cc) (small_pk cc) 0%nat Hp Htc).
Defined.

Lemma Encrypt_standard_components_witness :
  let cc := small_cc UNIFORM_TERNARY in
  let cp := GetCryptoParameters cc in
  let ptxt := plaintext_on [1; 3] [tower17; tower97] in
  let params := DCRTPoly_GetParams ptxt in
  let level := size_t (size_t (Z.of_nat (length (GetElementParams cp)))
                       - size_t (Z.of_nat (length params))) in
  let scaled := SetFormat small_ntt small_intt EVALUATION
                  (TimesQovert params (GettInvModq cp) (GetPlaintextModulus cp)
                     (GetNegQModt cp level) (GetNegQModtPrecon cp level) ptxt) in
  GetEncryptionTechnique cp = STANDARD /\
  reduced_form COEFFICIENT ptxt /\
  (forall p xs, In p params -> length (small_ntt p xs) = length xs) /\
  transform_undone small_ntt small_intt params /\
  exists b' a' k',
    small_zero_pub (small_pk cc) params 0%nat = Ok ([b'; a'], k') /\
    reduced_form EVALUATION b' /\
    reduced_form EVALUATION a' /\
    DCRTPoly_GetParams b' = params /\
    DCRTPoly_GetParams a' = params /\
    exists c0,
      Plus b' scaled = Ok c0 /\
      Encrypt_pub small_ntt small_intt small_zero_pub ptxt (small_pk cc) 0%nat
      = Ok ({| ct_context := cc; ct_keyTag := pk_keyTag (small_pk cc);
               GetElements := [c0; a']; GetNoiseScaleDeg := 1; GetLevel := 0 |}, k').
Proof.
  intros cc cp ptxt params level scaled.
  assert (Hp : reduced_form COEFFICIENT ptxt).
  { split; [reflexivity|]. repeat constructor; cbn; lia. }
  assert (Hntt : forall p xs, In p params -> length (small_ntt p xs) = length xs)
    by (intros p xs _; apply small_ntt_length).
  assert (Hundo : transform_undone small_ntt small_intt params)
    by (apply small_transform_undone, small_chain_incl).
  split; [reflexivity|split; [exact Hp|split; [exact Hntt|split; [exact Hundo|]]]].
  do 3 eexists.
  match goal with
  | |- ?z = Ok ([?b; ?a], ?k) /\ _ =>
      assert (Hzero : z = Ok ([b; a], k)) by reflexivity
  end.
  split; [exact Hzero|].
  match type of Hzero with
  | _ = Ok ([?b; ?a], _) =>
      assert (Hb : reduced_form EVALUATION b)
        by (split; [reflexivity|repeat constructor; cbn; lia]);
      assert (Ha : reduced_form EVALUATION a)
        by (split; [reflexivity|repeat constructor; cbn; lia])
  end.
  split; [exact Hb|split; [exact Ha|split; [reflexivity|split; [reflexivity|]]]].
  exact (Encrypt_standard_components small_ntt small_intt small_zero_priv small_zero_pub
           ptxt (small_sk cc) (small_pk cc) _ _ cc _ 0%nat _ _ _
           (or_intror (conj eq_refl (conj eq_refl (conj eq_refl eq_refl))))
           eq_refl Hp Hzero Hb Ha eq_refl eq_refl Hntt Hundo).
Defined.

Lemma Randomize_after_Encrypt_witness :
  let cc := small_cc_extended in
  let sk := small_sk cc in
  let pk := small_pk cc in
  let ptxt := plaintext_on [1; 3] (GetElementParams (GetCryptoParameters cc)) in
  zero_encryption_at (small_zero_priv sk) /\
  zero_encryption_at (small_zero_pub pk) /\
  (exists ct k1 ct',
     Encrypt_priv small_ntt small_intt small_zero_priv ptxt sk 0%nat = Ok (ct, k1) /\
     Randomize small_rnd small_ntt small_intt ct k1
     = Ok (ct', (k1 + length (ciphertext_chain (GetCryptoParameters (sk_context sk)) ptxt))%nat) /\
     length (GetElements ct') = 2%nat /\
     GetNoiseScaleDeg ct' = 1 /\
     ct_keyTag ct' = sk_keyTag sk) /\
  (exists ct k1 ct',
     Encrypt_pub small_ntt small_intt small_zero_pub ptxt pk 0%nat = Ok (ct, k1) /\
     Randomize small_rnd small_ntt small_intt ct k1
     = Ok (ct', (k1 + length (ciphertext_chain (GetCryptoParameters (pk_context pk)) ptxt))%nat) /\
     length (GetElements ct') = 2%nat /\
     GetNoiseScaleDeg ct' = 1 /\
     ct_keyTag ct' = pk_keyTag pk).
Proof.
  intros cc sk pk ptxt.
  split; [apply small_zero_priv_contract|split; [apply small_zero_pub_contract|]].
  exact (Randomize_after_Encrypt small_rnd small_ntt small_intt small_zero_priv small_zero_pub
           ptxt sk pk 0%nat (small_zero_priv_contract _) (small_zero_pub_contract _)).
Defined.

(** ** The sparse ternary key and the cancellation of the randomisation *)

Lemma KeyGenInternal_sparse_ternary_192_witness :
  let cc := small_cc SPARSE_TERNARY in
  let cp := GetCryptoParameters cc in
  let paramsPK := GetParamsPK cp in
  let s := sampled tagged_rnd (TUG 192) paramsPK EVALUATION (0 + 1) in
  let a := sampled tagged_rnd DUG paramsPK EVALUATION (0 + 2) in
  let e := sampled tagged_rnd DGG paramsPK EVALUATION (0 + 3) in
  let sizeQ := usint (Z.of_nat (length (working_chain cp))) in
  let sizePK := usint (Z.of_nat (length paramsPK)) in
  GetSecretKeyDist cp = SPARSE_TERNARY /\
  exists kp a_s b,
    KeyGenInternal tagged_rnd cc false 0%nat = Ok (kp, (0 + 4)%nat) /\
    KeyGenInternal tagged_rnd cc (negb false) 0%nat = Ok (kp, (0 + 4)%nat) /\
    GetPrivateElement (secretKey kp)
    = (if sizePK >? sizeQ
       then DropLastElements (Z.to_nat (usint (sizePK - sizeQ))) s
       else s) /\
    Times a s = Ok a_s /\
    Minus (ScalarTimes (GetNoiseScale cp) e) a_s = Ok b /\
    GetPublicElements (publicKey kp) = [b; a] /\
    (Z.of_nat (length paramsPK) < 2 ^ 32 ->
     Z.of_nat (length (working_chain cp)) < 2 ^ 32 ->
     GetPrivateElement (secretKey kp)
     = sampled tagged_rnd (TUG 192)
         (firstn (Nat.min (length (working_chain cp)) (length paramsPK)) paramsPK)
         EVALUATION (0 + 1)) /\
    map np_values (m_vectors (GetPrivateElement (secretKey kp))) = [[9; 12]; [2; 5]] /\
    map np_values (m_vectors (sampled tagged_rnd (TUG 0) (firstn 2 paramsPK) EVALUATION (0 + 1)))
    = [[4; 7]; [4; 7]].
Proof.
  intros cc cp paramsPK s a e sizeQ sizePK.
  split; [reflexivity|].
  destruct (KeyGenInternal_sparse_ternary_192 tagged_rnd cc false 0%nat eq_refl)
    as (kp & a_s & b & H1 & H2 & H3 & H4 & H5 & H6 & H7).
  exists kp, a_s, b.
  split; [exact H1|]. split; [exact H2|]. split; [exact H3|]. split; [exact H4|].
  split; [exact H5|]. split; [exact H6|]. split; [exact H7|].
  split; [rewrite H3; vm_compute; reflexivity|vm_compute; reflexivity].
Defined.

Lemma Randomize_decryption_identity_witness :
  let params := [tower17; tower97] in
  let c0 := towers_of params (fun _ _ => [5; 6]) in
  let c1 := towers_of params (fun _ _ => [3; 4]) in
  let r := noise_polynomial small_rnd small_ntt small_intt 4%nat params in
  let sk := small_sk (small_cc UNIFORM_TERNARY) in
  on_chain params EVALUATION c0 /\
  on_chain params EVALUATION c1 /\
  on_chain params EVALUATION r /\
  on_chain params EVALUATION (GetPrivateElement sk) /\
  Forall (fun p => 0 < modulus p) params /\
  exists c0' c1' b b' one_minus_s err,
    Plus c0 r = Ok c0' /\
    Minus c1 r = Ok c1' /\
    DecryptCore [c0; c1] sk = Ok b /\
    DecryptCore [c0'; c1'] sk = Ok b' /\
    Minus (DCRTPoly_one params) (GetPrivateElement sk) = Ok one_minus_s /\
    Times r one_minus_s = Ok err /\
    Plus b err = Ok b' /\
    (GetPrivateElement sk = DCRTPoly_one params -> b' = b) /\
    (Forall (fun p => 0 < modulus p) params ->
     (b' = b <-> vanishes err) /\
     (vanishes one_minus_s -> b' = b) /\
     (~ vanishes one_minus_s ->
      exists c0'' c1'' b'',
        Plus c0 (DCRTPoly_one params) = Ok c0'' /\
        Minus c1 (DCRTPoly_one params) = Ok c1'' /\
        DecryptCore [c0''; c1''] sk = Ok b'' /\
        b'' <> b)).
Proof.
  intros params c0 c1 r sk.
  assert (H0 : on_chain params EVALUATION c0) by (repeat split; repeat constructor).
  assert (H1 : on_chain params EVALUATION c1) by (repeat split; repeat constructor).
  assert (Hr : on_chain params EVALUATION r) by (repeat split; repeat constructor).
  assert (Hs : on_chain params EVALUATION (GetPrivateElement sk))
    by (repeat split; repeat constructor).
  split; [exact H0|split; [exact H1|split; [exact Hr|split; [exact Hs|]]]].
  split; [repeat constructor|].
  exact (Randomize_decryption_identity params c0 c1 r sk H0 H1 Hr Hs).
Defined.

(** C9, read as "whenever the randomisation cancels, [s] is 1", fails: on
    the chain [17] the key [s = (1, 3)] is not 1, the noise
    [r = (5, 0)] is not 0, and yet [r * (1 - s) = 0]: the randomised
    ciphertext decrypts as the original one. *)
Lemma Randomize_cancels_with_another_key :
  let params := [tower17] in
  let c0 := towers_of params (fun _ _ => [5; 6]) in
  let c1 := towers_of params (fun _ _ => [3; 4]) in
  let r := towers_of params (fun _ _ => [5; 0]) in
  let sk := {| sk_context := small_cc_single; sk_keyTag := None;
               GetPrivateElement := towers_of params (fun _ _ => [1; 3]) |} in
  exists c0' c1' b one_minus_s err,
    on_chain params EVALUATION c0 /\
    on_chain params EVALUATION c1 /\
    on_chain params EVALUATION r /\
    on_chain params EVALUATION (GetPrivateElement sk) /\
    Plus c0 r = Ok c0' /\
    Minus c1 r = Ok c1' /\
    Minus (DCRTPoly_one params) (GetPrivateElement sk) = Ok one_minus_s /\
    map np_values (m_vectors one_minus_s) = [[0; 15]] /\
    Times r one_minus_s = Ok err /\
    map np_values (m_vectors err) = [[0; 0]] /\
    DecryptCore [c0; c1] sk = Ok b /\
    DecryptCore [c0'; c1'] sk = Ok b.
Proof.
  intros params c0 c1 r sk.
  do 5 eexists.
  split; [repeat split; repeat constructor|].
  split; [repeat split; repeat constructor|].
  split; [repeat split; repeat constructor|].
  split; [repeat split; repeat constructor|].
  split; [vm_compute; reflexivity|].
  split; [vm_compute; reflexivity|].
  split; [vm_compute; reflexivity|].
  split; [reflexivity|].
  split; [vm_compute; reflexivity|].
  split; [reflexivity|].
  split; [vm_compute; reflexivity|].
  vm_compute; reflexivity.
Qed.
